(** * obsidian-r2-uploader: naming, signing, reference extraction and publish

    A shallow embedding of the TypeScript sources of the plugin:
    - [UploaderUtils] (src/uploader/uploaderUtils.ts),
    - [ImageTagProcessor] (the image tag processor with video support),
    - the SigV4 request signer of the fetch based [R2Uploader],
    - [uploadLocalImagesInContent] of the plugin class.

    JavaScript strings are sequences of UTF-16 code units; they are modelled
    as lists of code units ([N]).  Host built-ins whose behaviour is fixed by
    the platform and not by this repository (SHA-256, HMAC, Unicode lower
    casing, percent decoding, the vault API, the network) are Section
    variables or fields of the record [Host.t]. *)

From Stdlib Require Import String Ascii DecimalString.
From Stdlib Require Import List NArith Arith Lia Bool.
Import ListNotations.

(** ** JavaScript strings *)

Definition char := N.
Definition jsstring := list char.

Definition lit (s : string) : jsstring :=
  map N_of_ascii (list_ascii_of_string s).
Arguments lit s%_string.

Definition chr (a : ascii) : char := N_of_ascii a.
Arguments chr a%_char.

Definition char_eqb (a b : char) : bool := N.eqb a b.

Fixpoint str_eqb (a b : jsstring) : bool :=
  match a, b with
  | [], [] => true
  | x :: a', y :: b' => char_eqb x y && str_eqb a' b'
  | _, _ => false
  end.

(** [stripPrefix p s]: when [s] starts with the literal [p], what follows. *)
Fixpoint stripPrefix (p s : jsstring) : option jsstring :=
  match p with
  | [] => Some s
  | c :: p' =>
      match s with
      | [] => None
      | d :: s' => if char_eqb c d then stripPrefix p' s' else None
      end
  end.

(** [String.prototype.startsWith]. *)
Definition startsWith (s p : jsstring) : bool :=
  match stripPrefix p s with Some _ => true | None => false end.

(** [String.prototype.indexOf] (from position 0): first index at which
    [p] occurs in [s], [None] for -1. *)
Fixpoint indexOfFrom (p s : jsstring) (i : nat) : option nat :=
  match stripPrefix p s with
  | Some _ => Some i
  | None => match s with
            | [] => None
            | _ :: s' => indexOfFrom p s' (S i)
            end
  end.

Definition indexOf (s p : jsstring) : option nat := indexOfFrom p s 0.

(** [String.prototype.includes]. *)
Definition includes (s p : jsstring) : bool :=
  match indexOf s p with Some _ => true | None => false end.

(** [String.prototype.substring(a, b)]: both ends clamped to the length,
    swapped when [a > b]. *)
Definition substring (s : jsstring) (a b : nat) : jsstring :=
  let a' := Nat.min a (length s) in
  let b' := Nat.min b (length s) in
  let lo := Nat.min a' b' in
  let hi := Nat.max a' b' in
  firstn (hi - lo) (skipn lo s).

(** [String.prototype.substring(a)]. *)
Definition substringFrom (s : jsstring) (a : nat) : jsstring := skipn a s.

(** Longest prefix of [s] whose characters all satisfy [p], and the rest:
    what a greedy character-class repetition consumes. *)
Fixpoint span (p : char -> bool) (s : jsstring) : jsstring * jsstring :=
  match s with
  | [] => ([], [])
  | c :: s' =>
      if p c then let (a, b) := span p s' in (c :: a, b) else ([], s)
  end.

(** ** Basic facts on strings *)

Lemma char_eqb_eq a b : char_eqb a b = true <-> a = b.
Proof. apply N.eqb_eq. Qed.

Lemma char_eqb_refl a : char_eqb a a = true.
Proof. apply N.eqb_refl. Qed.

Lemma char_eqb_neq a b : char_eqb a b = false <-> a <> b.
Proof. apply N.eqb_neq. Qed.

Lemma str_eqb_eq a b : str_eqb a b = true <-> a = b.
Proof.
  revert b; induction a as [|x a IH]; intros [|y b]; simpl; split; intro H;
    try reflexivity; try discriminate.
  - apply andb_true_iff in H as [H1 H2].
    apply char_eqb_eq in H1. apply IH in H2. congruence.
  - injection H as -> ->. rewrite char_eqb_refl. simpl. now apply IH.
Qed.

Lemma stripPrefix_app p r : stripPrefix p (p ++ r) = Some r.
Proof.
  induction p as [|c p IH]; simpl; [reflexivity|].
  now rewrite char_eqb_refl.
Qed.

Lemma stripPrefix_Some p s r : stripPrefix p s = Some r -> s = p ++ r.
Proof.
  revert s; induction p as [|c p IH]; intros s H; simpl in *.
  - congruence.
  - destruct s as [|d s]; [discriminate|].
    destruct (char_eqb c d) eqn:E; [|discriminate].
    apply char_eqb_eq in E; subst d. f_equal. now apply IH.
Qed.

Lemma stripPrefix_iff p s r : stripPrefix p s = Some r <-> s = p ++ r.
Proof.
  split; [apply stripPrefix_Some|]. intros ->. apply stripPrefix_app.
Qed.

Lemma span_app p s a b : span p s = (a, b) -> s = a ++ b.
Proof.
  revert a b; induction s as [|c s IH]; intros a b H; simpl in H.
  - now inversion H.
  - destruct (p c).
    + destruct (span p s) as [a' b'] eqn:E. inversion H; subst.
      simpl. f_equal. now apply IH.
    + now inversion H.
Qed.

Lemma span_all p s a b : span p s = (a, b) -> forallb p a = true.
Proof.
  revert a b; induction s as [|c s IH]; intros a b H; simpl in H.
  - now inversion H.
  - destruct (p c) eqn:Ec.
    + destruct (span p s) as [a' b'] eqn:E. inversion H; subst.
      simpl. rewrite Ec. simpl. eapply IH; reflexivity.
    + now inversion H.
Qed.

Lemma span_stop p s a b :
  span p s = (a, b) -> match b with [] => True | c :: _ => p c = false end.
Proof.
  revert a b; induction s as [|c s IH]; intros a b H; simpl in H.
  - now inversion H.
  - destruct (p c) eqn:Ec.
    + destruct (span p s) as [a' b'] eqn:E. inversion H; subst.
      eapply IH; reflexivity.
    + inversion H; subst. exact Ec.
Qed.

Lemma span_unique p a b :
  forallb p a = true ->
  match b with [] => True | c :: _ => p c = false end ->
  span p (a ++ b) = (a, b).
Proof.
  intros Ha Hb. induction a as [|c a IH]; simpl in *.
  - destruct b as [|d b]; [reflexivity|]. simpl. now rewrite Hb.
  - apply andb_true_iff in Ha as [Hc Ha]. rewrite Hc.
    now rewrite (IH Ha).
Qed.

(** ** Image tags (imageTagProcessor.ts) *)

Record ImageTag := {
  originalText : jsstring;
  altText : jsstring;
  imagePath : jsstring;
  start : nat;
  end_ : nat
}.

(** *** Regular expressions with the global flag

    [regex.exec(content)] on a regular expression with the [g] flag looks
    for the leftmost match at or after [lastIndex]; the [while] loops of
    [extractImageTags] call it until it answers [null].  [matchHere s] is
    the match of the pattern anchored at the head of [s]: the matched text
    and the captured groups. *)

Section GlobalRegex.

Variable G : Type.
Variable matchHere : jsstring -> option (jsstring * G).

Fixpoint searchFrom (s : jsstring) (i : nat) : option (nat * jsstring * G) :=
  match matchHere s with
  | Some (w, g) => Some (i, w, g)
  | None => match s with
            | [] => None
            | _ :: s' => searchFrom s' (S i)
            end
  end.

(** [exec]: the match found from [lastIndex], as (index, match[0], groups). *)
Definition exec (content : jsstring) (lastIndex : nat)
  : option (nat * jsstring * G) :=
  if lastIndex <=? length content
  then searchFrom (skipn lastIndex content) lastIndex
  else None.

Variable mkTag : nat -> jsstring -> G -> ImageTag.

(** [while ((match = regex.exec(content)) !== null) imageTags.push(...)];
    after a match [lastIndex] is the end of the match. *)
Fixpoint whileExec (fuel : nat) (content : jsstring) (lastIndex : nat)
  (imageTags : list ImageTag) : list ImageTag :=
  match fuel with
  | O => imageTags
  | S fuel' =>
      match exec content lastIndex with
      | None => imageTags
      | Some (index, w, g) =>
          whileExec fuel' content (index + length w)
            (imageTags ++ [mkTag index w g])
      end
  end.

(** The matches a run of the loop from [i] reports: each is the leftmost
    one at or after the end of the previous one. *)
Inductive Scan (content : jsstring)
  : nat -> list (nat * jsstring * G) -> Prop :=
| Scan_done i :
    (forall k, i <= k -> matchHere (skipn k content) = None) ->
    Scan content i []
| Scan_hit i j w g rest :
    i <= j ->
    (forall k, i <= k < j -> matchHere (skipn k content) = None) ->
    matchHere (skipn j content) = Some (w, g) ->
    Scan content (j + length w) rest ->
    Scan content i ((j, w, g) :: rest).

Hypothesis matchHere_nonempty :
  forall s w g, matchHere s = Some (w, g) -> w <> [].
Hypothesis matchHere_prefix :
  forall s w g, matchHere s = Some (w, g) -> exists r, s = w ++ r.

Lemma matchHere_nil_None : matchHere [] = None.
Proof.
  destruct (matchHere []) as [[w g]|] eqn:E; [|reflexivity].
  destruct (matchHere_prefix _ _ _ E) as [r Hr].
  apply matchHere_nonempty in E. destruct w; [congruence|discriminate].
Qed.

Lemma searchFrom_None s i :
  searchFrom s i = None -> forall k, matchHere (skipn k s) = None.
Proof.
  revert i; induction s as [|c s IH]; intros i H k; simpl in H.
  - rewrite skipn_nil. apply matchHere_nil_None.
  - destruct (matchHere (c :: s)) as [[w g]|] eqn:E; [discriminate|].
    destruct k as [|k]; simpl; [exact E|]. eapply IH; eassumption.
Qed.

Lemma searchFrom_Some s i j w g :
  searchFrom s i = Some (j, w, g) ->
  exists k, j = i + k /\ k < length s /\
    matchHere (skipn k s) = Some (w, g) /\
    forall k', k' < k -> matchHere (skipn k' s) = None.
Proof.
  revert i; induction s as [|c s IH]; intros i H; simpl in H.
  - rewrite matchHere_nil_None in H. discriminate.
  - destruct (matchHere (c :: s)) as [[w' g']|] eqn:E.
    + inversion H; subst. exists 0.
      split; [lia|]. split; [simpl; lia|]. split; [exact E|].
      intros k' Hk'; lia.
    + apply IH in H as (k & -> & Hlen & Hm & Hbefore).
      exists (S k).
      split; [lia|]. split; [simpl; lia|]. split; [exact Hm|].
      intros [|k'] Hk'; simpl; [exact E|]. apply Hbefore; lia.
Qed.

Lemma exec_None content i :
  exec content i = None ->
  forall k, i <= k -> matchHere (skipn k content) = None.
Proof.
  unfold exec. intros H k Hk.
  destruct (i <=? length content) eqn:E.
  - apply Nat.leb_le in E.
    pose proof (searchFrom_None _ _ H (k - i)) as Hn.
    rewrite skipn_skipn in Hn. now replace (k - i + i) with k in Hn by lia.
  - apply Nat.leb_gt in E. rewrite skipn_all2 by lia.
    apply matchHere_nil_None.
Qed.

Lemma exec_Some content i j w g :
  exec content i = Some (j, w, g) ->
  i <= j /\ j + length w <= length content /\
  matchHere (skipn j content) = Some (w, g) /\
  forall k, i <= k < j -> matchHere (skipn k content) = None.
Proof.
  unfold exec. intros H.
  destruct (i <=? length content) eqn:E; [|discriminate].
  apply Nat.leb_le in E.
  apply searchFrom_Some in H as (k & -> & Hlen & Hm & Hbefore).
  rewrite skipn_skipn in Hm. rewrite (Nat.add_comm k i) in Hm.
  split; [lia|]. split; [|split; [exact Hm|]].
  - destruct (matchHere_prefix _ _ _ Hm) as [r Hr].
    apply (f_equal (@length _)) in Hr.
    rewrite length_skipn, length_app in Hr.
    rewrite length_skipn in Hlen. lia.
  - intros k' Hk'. specialize (Hbefore (k' - i)).
    rewrite skipn_skipn in Hbefore.
    replace (k' - i + i) with k' in Hbefore by lia. apply Hbefore; lia.
Qed.

(** The loop only appends to the array it is given. *)
Lemma whileExec_acc fuel content i acc :
  whileExec fuel content i acc = acc ++ whileExec fuel content i [].
Proof.
  revert i acc; induction fuel as [|fuel IH]; intros i acc; simpl.
  - now rewrite app_nil_r.
  - destruct (exec content i) as [[[j w] g]|]; [|now rewrite app_nil_r].
    rewrite IH. simpl. rewrite (IH _ [_]). now rewrite <- app_assoc.
Qed.

(** With fuel beyond the characters that remain, the loop ends because
    [exec] answers [null], and what it pushed is the scan from [i]. *)
Lemma whileExec_Scan fuel content i :
  length content < fuel + i ->
  exists ms, Scan content i ms /\
    whileExec fuel content i [] =
      map (fun m => mkTag (fst (fst m)) (snd (fst m)) (snd m)) ms.
Proof.
  revert i; induction fuel as [|fuel IH]; intros i Hfuel; simpl.
  - exists []. split; [|reflexivity]. constructor. intros k Hk.
    rewrite skipn_all2 by lia. apply matchHere_nil_None.
  - destruct (exec content i) as [[[j w] g]|] eqn:E.
    + apply exec_Some in E as (Hij & Hlen & Hm & Hbefore).
      pose proof (matchHere_nonempty _ _ _ Hm) as Hne.
      assert (0 < length w) by (destruct w; simpl; [congruence|lia]).
      destruct (IH (j + length w)) as (ms & Hscan & Hrun); [lia|].
      exists ((j, w, g) :: ms). split.
      * econstructor; eauto.
      * rewrite whileExec_acc, Hrun. reflexivity.
    + exists []. split; [|reflexivity]. constructor.
      now apply exec_None.
Qed.

(** The scan from a position is unique: more fuel changes nothing. *)
Lemma Scan_unique content i ms1 ms2 :
  Scan content i ms1 -> Scan content i ms2 -> ms1 = ms2.
Proof.
  intros H1; revert ms2; induction H1 as [i Hn|i j w g rest Hij Hb Hm Hs IH];
    intros ms2 H2; inversion H2 as [i' Hn'|i' j' w' g' rest' Hij' Hb' Hm' Hs'];
    subst.
  - reflexivity.
  - rewrite Hn in Hm' by lia. discriminate.
  - rewrite Hn' in Hm by lia. discriminate.
  - assert (j = j').
    { destruct (Nat.lt_trichotomy j j') as [L|[L|L]]; [|exact L|].
      - rewrite Hb' in Hm by lia. discriminate.
      - rewrite Hb in Hm' by lia. discriminate. }
    subst j'. rewrite Hm in Hm'. inversion Hm'; subst.
    f_equal. now apply IH.
Qed.

Lemma whileExec_fuel_irrelevant fuel1 fuel2 content i :
  length content < fuel1 + i -> length content < fuel2 + i ->
  whileExec fuel1 content i [] = whileExec fuel2 content i [].
Proof.
  intros H1 H2.
  destruct (whileExec_Scan _ _ _ H1) as (ms1 & S1 & ->).
  destruct (whileExec_Scan _ _ _ H2) as (ms2 & S2 & ->).
  now rewrite (Scan_unique _ _ _ _ S1 S2).
Qed.

(** Every position at which the pattern matches lies inside a reported
    match, and reported matches follow each other without overlap. *)
Lemma Scan_covers content i ms :
  Scan content i ms ->
  forall p w g, i <= p -> matchHere (skipn p content) = Some (w, g) ->
  exists j w' g', In (j, w', g') ms /\ j <= p < j + length w'.
Proof.
  induction 1 as [i Hn|i j w g rest Hij Hb Hm Hs IH]; intros p w0 g0 Hp Hp0.
  - rewrite Hn in Hp0 by lia. discriminate.
  - destruct (Nat.lt_ge_cases p (j + length w)) as [L|L].
    + exists j, w, g. split; [now left|]. split; [|exact L].
      destruct (Nat.lt_ge_cases p j) as [L'|L']; [|exact L'].
      rewrite Hb in Hp0 by lia. discriminate.
    + destruct (IH p w0 g0 L Hp0) as (j' & w' & g' & Hin & Hr).
      exists j', w', g'. split; [now right|exact Hr].
Qed.

Lemma Scan_lower content i ms :
  Scan content i ms -> Forall (fun m => i <= fst (fst m)) ms.
Proof.
  induction 1 as [i Hn|i j w g rest Hij Hb Hm Hs IH]; constructor; simpl; auto.
  eapply Forall_impl; [|exact IH]. simpl. intros; lia.
Qed.

Lemma Scan_matches content i ms :
  Scan content i ms ->
  Forall (fun m => matchHere (skipn (fst (fst m)) content)
                   = Some (snd (fst m), snd m)) ms.
Proof.
  induction 1; constructor; simpl; auto.
Qed.

Lemma searchFrom_found s i j w g :
  searchFrom s i = Some (j, w, g) ->
  exists k, matchHere (skipn k s) = Some (w, g).
Proof.
  revert i; induction s as [|c s IH]; intros i H; simpl in H.
  - destruct (matchHere []) as [[w' g']|] eqn:E; [|discriminate].
    inversion H; subst. now exists 0.
  - destruct (matchHere (c :: s)) as [[w' g']|] eqn:E.
    + inversion H; subst. now exists 0.
    + destruct (IH _ H) as [k Hk]. now exists (S k).
Qed.

(** The leftmost offset at which the pattern matches is the one found. *)
Lemma searchFrom_first s i n w g :
  (forall k, k < n -> matchHere (skipn k s) = None) ->
  matchHere (skipn n s) = Some (w, g) ->
  searchFrom s i = Some (i + n, w, g).
Proof.
  revert s i; induction n as [|n IH]; intros s i Hb Hm.
  - simpl in Hm. destruct s; simpl; rewrite Hm; now rewrite Nat.add_0_r.
  - pose proof (Hb 0 (Nat.lt_0_succ n)) as H0. simpl in H0.
    destruct s as [|c s].
    + simpl in Hm. congruence.
    + simpl. rewrite H0. rewrite (IH s (S i)).
      * f_equal. f_equal. f_equal. lia.
      * intros k Hk. apply (Hb (S k)). lia.
      * exact Hm.
Qed.

End GlobalRegex.

Arguments searchFrom {G} matchHere s i.
Arguments exec {G} matchHere content lastIndex.
Arguments whileExec {G} matchHere mkTag fuel content lastIndex imageTags.
Arguments Scan {G} matchHere content _ _.

(** *** The two reference syntaxes *)

Definition notChar (c : char) : char -> bool :=
  fun d => negb (char_eqb d c).

(** The text of a bracket link [![alt](path)]. *)
Definition bracketLink (alt path : jsstring) : jsstring :=
  lit "![" ++ alt ++ lit "](" ++ path ++ lit ")".

(** The text of an embedded link [![[path]]]. *)
Definition wikiLink (path : jsstring) : jsstring :=
  lit "![[" ++ path ++ lit "]]".

(** The pattern [mdImageRegex] anchored at the head of [s]: the literal
    "![", group 1 = any run of characters other than "]", the literal "](",
    group 2 = one or more characters other than ")", the literal ")".  A
    character class that excludes the character the pattern requires next
    leaves the greedy repetition nothing to give back, so the first attempt
    decides. *)
Definition mdImageRegex (s : jsstring)
  : option (jsstring * (jsstring * jsstring)) :=
  match stripPrefix (lit "![") s with
  | None => None
  | Some s1 =>
      let (alt, s2) := span (notChar (chr "]")) s1 in
      match stripPrefix (lit "](") s2 with
      | None => None
      | Some s3 =>
          let (path, s4) := span (notChar (chr ")")) s3 in
          match path, stripPrefix (lit ")") s4 with
          | _ :: _, Some _ => Some (bracketLink alt path, (alt, path))
          | _, _ => None
          end
      end
  end.

(** The pattern [wikiImageRegex] anchored at the head of [s]: the literal
    "![[", group 1 = one or more characters other than "]", the literal
    "]]". *)
Definition wikiImageRegex (s : jsstring) : option (jsstring * jsstring) :=
  match stripPrefix (lit "![[") s with
  | None => None
  | Some s1 =>
      let (path, s2) := span (notChar (chr "]")) s1 in
      match path, stripPrefix (lit "]]") s2 with
      | _ :: _, Some _ => Some (wikiLink path, path)
      | _, _ => None
      end
  end.

(** [const [originalText, altText, imagePath] = match; imageTags.push(...)] *)
Definition mdTag (index : nat) (w : jsstring) (g : jsstring * jsstring)
  : ImageTag :=
  {| originalText := w; altText := fst g; imagePath := snd g;
     start := index; end_ := index + length w |}.

(** [const [originalText, imagePath] = match], alt text [''] *)
Definition wikiTag (index : nat) (w : jsstring) (g : jsstring) : ImageTag :=
  {| originalText := w; altText := []; imagePath := g;
     start := index; end_ := index + length w |}.

(** [extractImageTags]: one array, filled by the bracket-link loop and then
    by the embedded-link loop.  A match is never empty, so each loop runs at
    most once per character: [length content + 1] iterations reach the
    [null] that ends it (see [whileExec_fuel_irrelevant]). *)
Definition extractImageTags (content : jsstring) : list ImageTag :=
  let fuel := S (length content) in
  let imageTags := whileExec mdImageRegex mdTag fuel content 0 [] in
  whileExec wikiImageRegex wikiTag fuel content 0 imageTags.

(** [isLocalImage] *)
Definition isLocalImage (imagePath : jsstring) : bool :=
  negb (startsWith imagePath (lit "http://")) &&
  negb (startsWith imagePath (lit "https://")) &&
  negb (startsWith imagePath (lit "data:")).

(** What it means for the bracket-link pattern to match at offset [p]. *)
Definition BracketOccurs (content : jsstring) (p : nat) (alt path : jsstring)
  : Prop :=
  forallb (notChar (chr "]")) alt = true /\
  path <> [] /\
  forallb (notChar (chr ")")) path = true /\
  exists rest, skipn p content = bracketLink alt path ++ rest.

(** What it means for the embedded-link pattern to match at offset [p]. *)
Definition WikiOccurs (content : jsstring) (p : nat) (path : jsstring) : Prop :=
  path <> [] /\
  forallb (notChar (chr "]")) path = true /\
  exists rest, skipn p content = wikiLink path ++ rest.

Definition IsBracketTag (content : jsstring) (t : ImageTag) : Prop :=
  BracketOccurs content (start t) (altText t) (imagePath t) /\
  originalText t = bracketLink (altText t) (imagePath t) /\
  end_ t = start t + length (originalText t).

Definition IsWikiTag (content : jsstring) (t : ImageTag) : Prop :=
  WikiOccurs content (start t) (imagePath t) /\
  altText t = [] /\
  originalText t = wikiLink (imagePath t) /\
  end_ t = start t + length (originalText t).

(** Document order: a tag ends before any later tag of the list starts. *)
Inductive InDocumentOrder : list ImageTag -> Prop :=
| ido_nil : InDocumentOrder []
| ido_cons t ts :
    Forall (fun u => end_ t <= start u) ts ->
    InDocumentOrder ts ->
    InDocumentOrder (t :: ts).

(** *** The anchored matchers decide the patterns *)

Lemma mdImageRegex_spec s w alt path :
  mdImageRegex s = Some (w, (alt, path)) <->
  w = bracketLink alt path /\
  forallb (notChar (chr "]")) alt = true /\
  path <> [] /\
  forallb (notChar (chr ")")) path = true /\
  exists rest, s = w ++ rest.
Proof.
  unfold mdImageRegex. split.
  - destruct (stripPrefix (lit "![") s) as [s1|] eqn:E1; [|discriminate].
    destruct (span (notChar (chr "]")) s1) as [a s2] eqn:E2.
    destruct (stripPrefix (lit "](") s2) as [s3|] eqn:E3; [|discriminate].
    destruct (span (notChar (chr ")")) s3) as [p s4] eqn:E4.
    destruct p as [|c p]; [discriminate|].
    destruct (stripPrefix (lit ")") s4) as [s5|] eqn:E5; [|discriminate].
    intros H; inversion H; subst; clear H.
    split; [reflexivity|].
    split; [eapply span_all; eassumption|].
    split; [discriminate|].
    split; [eapply span_all; eassumption|].
    exists s5.
    apply stripPrefix_Some in E1, E3, E5. apply span_app in E2, E4.
    subst. unfold bracketLink. now rewrite <- !app_assoc.
  - intros (-> & Ha & Hp & Hpp & rest & ->).
    unfold bracketLink. rewrite <- !app_assoc. rewrite stripPrefix_app.
    rewrite (span_unique _ _ _ Ha); [|reflexivity].
    rewrite stripPrefix_app.
    rewrite (span_unique _ _ _ Hpp); [|reflexivity].
    destruct path; [congruence|]. rewrite stripPrefix_app. reflexivity.
Qed.

Lemma wikiImageRegex_spec s w path :
  wikiImageRegex s = Some (w, path) <->
  w = wikiLink path /\
  path <> [] /\
  forallb (notChar (chr "]")) path = true /\
  exists rest, s = w ++ rest.
Proof.
  unfold wikiImageRegex. split.
  - destruct (stripPrefix (lit "![[") s) as [s1|] eqn:E1; [|discriminate].
    destruct (span (notChar (chr "]")) s1) as [p s2] eqn:E2.
    destruct p as [|c p]; [discriminate|].
    destruct (stripPrefix (lit "]]") s2) as [s3|] eqn:E3; [|discriminate].
    intros H; inversion H; subst; clear H.
    split; [reflexivity|]. split; [discriminate|].
    split; [eapply span_all; eassumption|].
    exists s3. apply stripPrefix_Some in E1, E3. apply span_app in E2.
    subst. unfold wikiLink. now rewrite <- !app_assoc.
  - intros (-> & Hp & Hpp & rest & ->).
    unfold wikiLink. rewrite <- !app_assoc. rewrite stripPrefix_app.
    rewrite (span_unique _ _ _ Hpp); [|reflexivity].
    destruct path; [congruence|]. rewrite stripPrefix_app. reflexivity.
Qed.

Lemma mdImageRegex_nonempty s w g : mdImageRegex s = Some (w, g) -> w <> [].
Proof.
  destruct g as [a p]. intros H. apply mdImageRegex_spec in H as (-> & _).
  discriminate.
Qed.

Lemma mdImageRegex_prefix s w g :
  mdImageRegex s = Some (w, g) -> exists r, s = w ++ r.
Proof.
  destruct g as [a p]. intros H. now apply mdImageRegex_spec in H.
Qed.

Lemma wikiImageRegex_nonempty s w g :
  wikiImageRegex s = Some (w, g) -> w <> [].
Proof.
  intros H. apply wikiImageRegex_spec in H as (-> & _). discriminate.
Qed.

Lemma wikiImageRegex_prefix s w g :
  wikiImageRegex s = Some (w, g) -> exists r, s = w ++ r.
Proof.
  intros H. now apply wikiImageRegex_spec in H.
Qed.

(** *** Extraction *)

Definition tagOfMd (m : nat * jsstring * (jsstring * jsstring)) : ImageTag :=
  mdTag (fst (fst m)) (snd (fst m)) (snd m).

Definition tagOfWiki (m : nat * jsstring * jsstring) : ImageTag :=
  wikiTag (fst (fst m)) (snd (fst m)) (snd m).

Lemma extractImageTags_scans content :
  exists msA msB,
    Scan mdImageRegex content 0 msA /\
    Scan wikiImageRegex content 0 msB /\
    extractImageTags content = map tagOfMd msA ++ map tagOfWiki msB.
Proof.
  unfold extractImageTags.
  destruct (whileExec_Scan _ mdImageRegex mdTag mdImageRegex_nonempty
              mdImageRegex_prefix (S (length content)) content 0)
    as (msA & SA & EA); [lia|].
  destruct (whileExec_Scan _ wikiImageRegex wikiTag wikiImageRegex_nonempty
              wikiImageRegex_prefix (S (length content)) content 0)
    as (msB & SB & EB); [lia|].
  exists msA, msB. split; [exact SA|]. split; [exact SB|].
  rewrite whileExec_acc, EA, EB. reflexivity.
Qed.

Lemma substring_of_skipn (content w r : jsstring) j :
  skipn j content = w ++ r -> w <> [] ->
  substring content j (j + length w) = w.
Proof.
  intros H Hne. unfold substring.
  assert (Hlen : j + length w <= length content).
  { pose proof (f_equal (@length _) H) as L.
    rewrite length_skipn, length_app in L.
    destruct w; [congruence|]. simpl in L. simpl. lia. }
  rewrite !Nat.min_l by lia.
  rewrite Nat.max_r by lia.
  replace (j + length w - j) with (length w) by lia.
  rewrite H. rewrite firstn_app, Nat.sub_diag, firstn_all. simpl.
  now rewrite app_nil_r.
Qed.

Lemma Scan_in_order {G} (matchHere : jsstring -> option (jsstring * G))
  (mk : nat * jsstring * G -> ImageTag) content i ms :
  (forall m, start (mk m) = fst (fst m)) ->
  (forall m, end_ (mk m) = fst (fst m) + length (snd (fst m))) ->
  Scan matchHere content i ms -> InDocumentOrder (map mk ms).
Proof.
  intros Hs He. induction 1 as [i Hn|i j w g rest Hij Hb Hm Hsc IH]; simpl.
  - constructor.
  - constructor; [|exact IH].
    apply Forall_map. apply Scan_lower in Hsc.
    eapply Forall_impl; [|exact Hsc]. intros m Hm'.
    rewrite He, Hs. exact Hm'.
Qed.

(** Where a loop found its matches, read on the tags. *)
Lemma md_tags_are_bracket_tags content i ms :
  Scan mdImageRegex content i ms ->
  Forall (IsBracketTag content) (map tagOfMd ms).
Proof.
  intros H. apply Scan_matches in H. apply Forall_map.
  eapply Forall_impl; [|exact H]. intros [[j w] [a p]]; simpl. intros Hm.
  apply mdImageRegex_spec in Hm as (-> & Ha & Hp & Hpp & rest & Hr).
  unfold IsBracketTag, BracketOccurs; simpl. repeat split; auto.
  now exists rest.
Qed.

Lemma wiki_tags_are_wiki_tags content i ms :
  Scan wikiImageRegex content i ms ->
  Forall (IsWikiTag content) (map tagOfWiki ms).
Proof.
  intros H. apply Scan_matches in H. apply Forall_map.
  eapply Forall_impl; [|exact H]. intros [[j w] p]; simpl. intros Hm.
  apply wikiImageRegex_spec in Hm as (-> & Hp & Hpp & rest & Hr).
  unfold IsWikiTag, WikiOccurs; simpl. repeat split; auto.
  now exists rest.
Qed.

(** ** C10 *)

(** C10. For every input text, every tag returned by [extractImageTags] has
    [end = start + originalText.length], and [content.substring(start, end)]
    is [originalText]: the offsets locate the matched text in the input. *)
Theorem extractImageTags_offsets (content : jsstring) :
  Forall (fun t =>
            end_ t = start t + length (originalText t) /\
            substring content (start t) (end_ t) = originalText t)
         (extractImageTags content).
Proof.
  destruct (extractImageTags_scans content) as (msA & msB & SA & SB & ->).
  apply Forall_app; split.
  - apply md_tags_are_bracket_tags in SA.
    eapply Forall_impl; [|exact SA].
    intros t ((_ & Hp & _ & rest & Hr) & Ho & He). split; [exact He|].
    rewrite He. apply substring_of_skipn with (r := rest).
    + now rewrite Ho.
    + rewrite Ho. discriminate.
  - apply wiki_tags_are_wiki_tags in SB.
    eapply Forall_impl; [|exact SB].
    intros t ((Hp & _ & rest & Hr) & _ & Ho & He). split; [exact He|].
    rewrite He. apply substring_of_skipn with (r := rest).
    + now rewrite Ho.
    + rewrite Ho. discriminate.
Qed.

(** ** C9 *)

(** C9. For every document text, [extractImageTags] returns all bracket-link
    matches in document order followed by all embedded-link matches in
    document order: the result splits into a list of bracket-link tags and a
    list of embedded-link tags, each in document order, and every offset at
    which a pattern matches lies inside one of the tags of its list. *)
Theorem extractImageTags_bracket_then_wiki (content : jsstring) :
  exists bracketTags wikiTags,
    extractImageTags content = bracketTags ++ wikiTags /\
    Forall (IsBracketTag content) bracketTags /\
    InDocumentOrder bracketTags /\
    (forall p alt path, BracketOccurs content p alt path ->
       exists t, In t bracketTags /\ start t <= p < end_ t) /\
    Forall (IsWikiTag content) wikiTags /\
    InDocumentOrder wikiTags /\
    (forall p path, WikiOccurs content p path ->
       exists t, In t wikiTags /\ start t <= p < end_ t).
Proof.
  destruct (extractImageTags_scans content) as (msA & msB & SA & SB & E).
  exists (map tagOfMd msA), (map tagOfWiki msB).
  split; [exact E|].
  split; [eapply md_tags_are_bracket_tags; exact SA|].
  split; [eapply Scan_in_order; [| |exact SA]; reflexivity|].
  split.
  { intros p alt path (Ha & Hp & Hpp & rest & Hr).
    assert (Hm : mdImageRegex (skipn p content)
                 = Some (bracketLink alt path, (alt, path))).
    { apply mdImageRegex_spec. repeat split; auto. now exists rest. }
    destruct (Scan_covers _ _ _ _ _ SA p _ _ (Nat.le_0_l p) Hm)
      as (j & w & g & Hin & Hr').
    exists (tagOfMd (j, w, g)). split; [|exact Hr'].
    apply in_map_iff. now exists (j, w, g). }
  split; [eapply wiki_tags_are_wiki_tags; exact SB|].
  split; [eapply Scan_in_order; [| |exact SB]; reflexivity|].
  intros p path (Hp & Hpp & rest & Hr).
  assert (Hm : wikiImageRegex (skipn p content)
               = Some (wikiLink path, path)).
  { apply wikiImageRegex_spec. repeat split; auto. now exists rest. }
  destruct (Scan_covers _ _ _ _ _ SB p _ _ (Nat.le_0_l p) Hm)
    as (j & w & g & Hin & Hr').
  exists (tagOfWiki (j, w, g)). split; [|exact Hr'].
  apply in_map_iff. now exists (j, w, g).
Qed.

(** ** Video assets *)

Definition isAsciiUpper (c : char) : bool := (65 <=? c)%N && (c <=? 90)%N.
Definition isAsciiLower (c : char) : bool := (97 <=? c)%N && (c <=? 122)%N.

Definition asciiLower (c : char) : char :=
  if isAsciiUpper c then (c + 32)%N else c.

(** Canonicalization of a code unit under the [i] flag (no [u] flag): the
    upper-case form, except that a code unit from 128 on is never mapped
    below 128.  Every character of the patterns of this file is below 128,
    so only the ASCII part of the mapping can make two sides equal; from 128
    on the code unit is kept. *)
Definition canonicalize (c : char) : char :=
  if isAsciiLower c then (c - 32)%N else c.

(** A literal matched under the [i] flag at the head of [s]. *)
Fixpoint stripPrefixCI (p s : jsstring) : option jsstring :=
  match p with
  | [] => Some s
  | c :: p' =>
      match s with
      | [] => None
      | d :: s' =>
          if char_eqb (canonicalize c) (canonicalize d)
          then stripPrefixCI p' s' else None
      end
  end.

(** The alternation of [videoExtensionRegex], in source order. *)
Definition videoExtensions : list jsstring :=
  [lit "mp4"; lit "mov"; lit "m4v"; lit "webm"; lit "ogg"; lit "ogv";
   lit "mkv"; lit "avi"; lit "mpeg"; lit "mpg"; lit "mpe"; lit "m2v";
   lit "3gp"; lit "3g2"].

(** The lookahead: end of input, or one of "?" and "#". *)
Definition atEndOrQueryOrHash (s : jsstring) : bool :=
  match s with
  | [] => true
  | c :: _ => char_eqb c (chr "?") || char_eqb c (chr "#")
  end.

(** [videoExtensionRegex] anchored at the head of [s]: a dot, one of the
    alternatives, then the lookahead; an alternative whose lookahead fails
    is given up for the next one. *)
Definition videoExtensionHere (s : jsstring) : bool :=
  match stripPrefixCI (lit ".") s with
  | None => false
  | Some s1 =>
      existsb (fun ext => match stripPrefixCI ext s1 with
                          | Some s2 => atEndOrQueryOrHash s2
                          | None => false
                          end) videoExtensions
  end.

(** [regex.test(s)] for a pattern without the [g] flag: a match anywhere. *)
Fixpoint regexTest (matchHere : jsstring -> bool) (s : jsstring) : bool :=
  matchHere s ||
  match s with
  | [] => false
  | _ :: s' => regexTest matchHere s'
  end.

Section VideoAsset.

(** [String.prototype.toLowerCase] of the host. *)
Variable toLowerCase : jsstring -> jsstring.
(** [decodeURIComponent] of the host; [None] when it throws [URIError]. *)
Variable decodeURIComponent : jsstring -> option jsstring.

(** [isVideoAsset(target?: string | null)]; [None] is [undefined] or [null],
    and the empty string is falsy as well. *)
Definition isVideoAsset (target : option jsstring) : bool :=
  match target with
  | None => false
  | Some [] => false
  | Some t =>
      let normalized :=
        match decodeURIComponent t with
        | Some d => d
        | None => t
        end in
      regexTest videoExtensionHere (toLowerCase normalized)
  end.

End VideoAsset.

(** The string the pattern is tested on. *)
Definition decodedLowered (toLowerCase : jsstring -> jsstring)
  (decodeURIComponent : jsstring -> option jsstring) (t : jsstring)
  : jsstring :=
  toLowerCase (match decodeURIComponent t with Some d => d | None => t end).

(** The specification's reading: a dot, an extension of the list, then the
    end of the string, "?" or "#". *)
Definition HasVideoExtension (s : jsstring) : Prop :=
  exists pre ext post,
    s = pre ++ lit "." ++ ext ++ post /\
    In ext videoExtensions /\
    (post = [] \/ exists r, post = chr "?" :: r \/ post = chr "#" :: r).

Definition noAsciiUpper (s : jsstring) : Prop :=
  forall c, In c s -> isAsciiUpper c = false.

Definition lowerPattern (p : jsstring) : Prop :=
  forall c, In c p -> isAsciiUpper c = false.

Lemma canonicalize_inj c d :
  isAsciiUpper c = false -> isAsciiUpper d = false ->
  canonicalize c = canonicalize d -> c = d.
Proof.
  unfold canonicalize, isAsciiLower, isAsciiUpper. intros Hc Hd.
  destruct ((97 <=? c)%N && (c <=? 122)%N) eqn:Ec;
  destruct ((97 <=? d)%N && (d <=? 122)%N) eqn:Ed; intros H;
  rewrite ?andb_true_iff, ?andb_false_iff, ?N.leb_le, ?N.leb_gt in *; lia.
Qed.

Lemma stripPrefixCI_exact p s r :
  lowerPattern p -> noAsciiUpper s ->
  (stripPrefixCI p s = Some r <-> s = p ++ r).
Proof.
  revert s; induction p as [|c p IH]; intros s Hp Hs; simpl.
  - split; congruence.
  - destruct s as [|d s]; [split; discriminate|].
    assert (Hp' : lowerPattern p) by (intros x Hx; apply Hp; now right).
    assert (Hs' : noAsciiUpper s) by (intros x Hx; apply Hs; now right).
    destruct (char_eqb (canonicalize c) (canonicalize d)) eqn:E.
    + apply char_eqb_eq in E.
      apply canonicalize_inj in E; [|apply Hp; now left|apply Hs; now left].
      subst d. rewrite (IH s Hp' Hs'). split; [now intros ->|].
      intros H; now inversion H.
    + apply char_eqb_neq in E. split; [discriminate|].
      intros H; inversion H; subst. congruence.
Qed.

Lemma videoExtensions_lower ext : In ext videoExtensions -> lowerPattern ext.
Proof.
  unfold videoExtensions. intros H c Hc.
  repeat (destruct H as [<-|H];
          [simpl in Hc; repeat (destruct Hc as [<-|Hc]; [reflexivity|]);
           contradiction|]).
  contradiction.
Qed.

Lemma atEndOrQueryOrHash_spec post :
  atEndOrQueryOrHash post = true <->
  (post = [] \/ exists r, post = chr "?" :: r \/ post = chr "#" :: r).
Proof.
  destruct post as [|c r]; simpl.
  - split; auto.
  - rewrite orb_true_iff, !char_eqb_eq. split.
    + intros [->| ->]; right; exists r; auto.
    + intros [H|[r' [H|H]]]; inversion H; auto.
Qed.

Lemma videoExtensionHere_spec s :
  noAsciiUpper s ->
  (videoExtensionHere s = true <->
   exists ext post, s = lit "." ++ ext ++ post /\ In ext videoExtensions /\
                    atEndOrQueryOrHash post = true).
Proof.
  intros Hs. unfold videoExtensionHere.
  assert (Hdot : lowerPattern (lit "."))
    by (intros c [<-|[]]; reflexivity).
  destruct (stripPrefixCI (lit ".") s) as [s1|] eqn:E.
  - apply (stripPrefixCI_exact _ _ _ Hdot Hs) in E. subst s.
    assert (Hs1 : noAsciiUpper s1) by (intros x Hx; apply Hs; now right).
    rewrite existsb_exists. split.
    + intros (ext & Hin & H).
      destruct (stripPrefixCI ext s1) as [s2|] eqn:E2; [|discriminate].
      apply (stripPrefixCI_exact _ _ _ (videoExtensions_lower _ Hin) Hs1) in E2.
      exists ext, s2. subst. auto.
    + intros (ext & post & Heq & Hin & Hla).
      exists ext. split; [exact Hin|].
      apply app_inv_head in Heq. subst s1.
      assert (E2 : stripPrefixCI ext (ext ++ post) = Some post).
      { apply stripPrefixCI_exact;
          [now apply videoExtensions_lower|exact Hs1|reflexivity]. }
      now rewrite E2.
  - split; [discriminate|]. intros (ext & post & Heq & _).
    assert (E' : stripPrefixCI (lit ".") s = Some (ext ++ post))
      by (now apply stripPrefixCI_exact).
    congruence.
Qed.

Lemma regexTest_spec (matchHere : jsstring -> bool) s :
  regexTest matchHere s = true <->
  exists pre suf, s = pre ++ suf /\ matchHere suf = true.
Proof.
  induction s as [|c s IH]; simpl.
  - rewrite orb_false_r. split.
    + intros H. now exists [], [].
    + intros (pre & suf & Heq & H). symmetry in Heq.
      apply app_eq_nil in Heq as [_ ->]. exact H.
  - rewrite orb_true_iff, IH. split.
    + intros [H|(pre & suf & -> & H)].
      * now exists [], (c :: s).
      * now exists (c :: pre), suf.
    + intros (pre & suf & Heq & H). destruct pre as [|d pre]; simpl in Heq.
      * left. now subst.
      * right. inversion Heq; subst. now exists pre, suf.
Qed.

Lemma videoTest_spec s :
  noAsciiUpper s ->
  (regexTest videoExtensionHere s = true <-> HasVideoExtension s).
Proof.
  intros Hs. rewrite regexTest_spec. unfold HasVideoExtension. split.
  - intros (pre & suf & -> & H).
    apply videoExtensionHere_spec in H.
    + destruct H as (ext & post & -> & Hin & Hla).
      exists pre, ext, post. split; [reflexivity|]. split; [exact Hin|].
      now apply atEndOrQueryOrHash_spec.
    + intros x Hx. apply Hs. apply in_or_app. now right.
  - intros (pre & ext & post & -> & Hin & Hla).
    exists pre, (lit "." ++ ext ++ post). split; [reflexivity|].
    apply videoExtensionHere_spec.
    + intros x Hx. apply Hs. apply in_or_app. now right.
    + exists ext, post. split; [reflexivity|]. split; [exact Hin|].
      now apply atEndOrQueryOrHash_spec.
Qed.

(** ** C8 *)

Section VideoAssetFacts.

Variable toLowerCase : jsstring -> jsstring.
Variable decodeURIComponent : jsstring -> option jsstring.

(** What is assumed of the host: a string without "%" decodes to
    itself; lower casing a string of characters below 128 lowers its ASCII
    capitals and nothing else; no lower-cased string holds an ASCII
    capital. *)
Hypothesis decode_plain :
  forall s, existsb (char_eqb (chr "%")) s = false ->
            decodeURIComponent s = Some s.
Hypothesis lower_ascii :
  forall s, forallb (fun c => (c <? 128)%N) s = true ->
            toLowerCase s = map asciiLower s.
Hypothesis lower_no_upper : forall s, noAsciiUpper (toLowerCase s).

Lemma decodedLowered_plain (s : jsstring) :
  existsb (char_eqb (chr "%")) s = false ->
  forallb (fun c => (c <? 128)%N) s = true ->
  decodedLowered toLowerCase decodeURIComponent s = map asciiLower s.
Proof.
  intros H1 H2. unfold decodedLowered.
  now rewrite (decode_plain _ H1), (lower_ascii _ H2).
Qed.

Lemma isVideoAsset_test t :
  t <> [] ->
  isVideoAsset toLowerCase decodeURIComponent (Some t) =
  regexTest videoExtensionHere
    (decodedLowered toLowerCase decodeURIComponent t).
Proof.
  destruct t; [congruence|reflexivity].
Qed.

(** C8. For every target string, [isVideoAsset] is true exactly when the
    percent-decoded (raw when decoding fails), lower-cased target contains a
    dot followed by one of the listed extensions that is followed by the end
    of the string, "?" or "#"; [isVideoAsset("photo.png")] is false,
    [isVideoAsset("clip.MP4")] and [isVideoAsset("clip.mp4?x=1")] are true,
    and [isVideoAsset(undefined)] is false. *)
Theorem isVideoAsset_spec :
  (forall t : jsstring,
     isVideoAsset toLowerCase decodeURIComponent (Some t) = true <->
     HasVideoExtension (decodedLowered toLowerCase decodeURIComponent t)) /\
  isVideoAsset toLowerCase decodeURIComponent (Some (lit "photo.png")) = false /\
  isVideoAsset toLowerCase decodeURIComponent (Some (lit "clip.MP4")) = true /\
  isVideoAsset toLowerCase decodeURIComponent (Some (lit "clip.mp4?x=1")) = true /\
  isVideoAsset toLowerCase decodeURIComponent None = false.
Proof.
  split; [|repeat split].
  - intros t. destruct t as [|c t].
    + simpl. split; [discriminate|].
      rewrite decodedLowered_plain by reflexivity. simpl.
      intros (pre & ext & post & H & _). destruct pre; discriminate.
    + rewrite isVideoAsset_test by discriminate.
      apply videoTest_spec. apply lower_no_upper.
  - rewrite isVideoAsset_test by discriminate.
    rewrite decodedLowered_plain by reflexivity. reflexivity.
  - rewrite isVideoAsset_test by discriminate.
    rewrite decodedLowered_plain by reflexivity. reflexivity.
  - rewrite isVideoAsset_test by discriminate.
    rewrite decodedLowered_plain by reflexivity. reflexivity.
Qed.

End VideoAssetFacts.

(** A host for the ASCII part of the strings: lower casing touches the
    ASCII capitals only, and decoding is only ever asked for a string
    without an escape. *)
Definition asciiToLowerCase (s : jsstring) : jsstring := map asciiLower s.

Definition plainDecode (s : jsstring) : option jsstring :=
  if existsb (char_eqb (chr "%")) s then None else Some s.

Lemma asciiToLowerCase_no_upper s : noAsciiUpper (asciiToLowerCase s).
Proof.
  intros c Hc. apply in_map_iff in Hc as (d & <- & _).
  unfold asciiLower, isAsciiUpper.
  destruct ((65 <=? d)%N && (d <=? 90)%N) eqn:E; [|exact E].
  rewrite andb_true_iff, !N.leb_le in E.
  rewrite andb_false_iff, !N.leb_gt. lia.
Qed.

Lemma plainDecode_plain s :
  existsb (char_eqb (chr "%")) s = false -> plainDecode s = Some s.
Proof. unfold plainDecode. now intros ->. Qed.

Lemma isVideoAsset_spec_witness :
  isVideoAsset asciiToLowerCase plainDecode (Some (lit "clip.MP4")) = true.
Proof.
  apply (isVideoAsset_spec asciiToLowerCase plainDecode
           plainDecode_plain (fun s _ => eq_refl)
           asciiToLowerCase_no_upper).
Defined.

(** ** More of the JavaScript string library *)

(** [GetSubstitution] for a string pattern (no capture groups): in the
    replacement text "$$" is a dollar sign, "$&" the matched text,
    "$`" what precedes the match and "$'" what follows it; any other
    dollar sign stands for itself. *)
Fixpoint getSubstitution (matched before after replacement : jsstring)
  : jsstring :=
  match replacement with
  | [] => []
  | c :: r =>
      if char_eqb c (chr "$") then
        match r with
        | [] => [c]
        | d :: r' =>
            if char_eqb d (chr "$") then
              chr "$" :: getSubstitution matched before after r'
            else if char_eqb d (chr "&") then
              matched ++ getSubstitution matched before after r'
            else if char_eqb d (chr "`") then
              before ++ getSubstitution matched before after r'
            else if char_eqb d (chr "'") then
              after ++ getSubstitution matched before after r'
            else c :: getSubstitution matched before after r
        end
      else c :: getSubstitution matched before after r
  end.

(** [s.replace(search, replacement)] with a string pattern: the first
    occurrence only. *)
Definition replace (s search replacement : jsstring) : jsstring :=
  match indexOf s search with
  | None => s
  | Some pos =>
      let before := firstn pos s in
      let after := skipn (pos + length search) s in
      before ++ getSubstitution search before after replacement ++ after
  end.

(** The literal replacement of the first occurrence. *)
Definition replaceFirstLiteral (s search replacement : jsstring) : jsstring :=
  match indexOf s search with
  | None => s
  | Some pos => firstn pos s ++ replacement ++ skipn (pos + length search) s
  end.

(** [s.replaceAll(search, replacement)] with a string pattern: the
    occurrences are looked for from left to right, each search resuming
    after the previous occurrence (one character further when [search] is
    empty).  [before] is the part of the string already passed, [skip] the
    number of characters of the current occurrence still to pass. *)
Fixpoint replaceAllGo (search replacement before s : jsstring) (skip : nat)
  : jsstring :=
  match skip with
  | S k =>
      match s with
      | [] => []
      | c :: s' => replaceAllGo search replacement (before ++ [c]) s' k
      end
  | O =>
      match stripPrefix search s with
      | Some after =>
          getSubstitution search before after replacement ++
          match s with
          | [] => []
          | c :: s' =>
              match search with
              | [] => c :: replaceAllGo search replacement (before ++ [c]) s' 0
              | _ :: q =>
                  replaceAllGo search replacement (before ++ [c]) s' (length q)
              end
          end
      | None =>
          match s with
          | [] => []
          | c :: s' => c :: replaceAllGo search replacement (before ++ [c]) s' 0
          end
      end
  end.

Definition replaceAll (s search replacement : jsstring) : jsstring :=
  replaceAllGo search replacement [] s 0.

(** White space and line terminators, as [trim] strips them. *)
Definition isWhiteSpace (c : char) : bool :=
  existsb (N.eqb c)
    [9; 10; 11; 12; 13; 32; 160; 5760; 8232; 8233; 8239; 8287; 12288; 65279]%N
  || ((8192 <=? c)%N && (c <=? 8202)%N).

Fixpoint dropWhile (p : char -> bool) (s : jsstring) : jsstring :=
  match s with
  | [] => []
  | c :: s' => if p c then dropWhile p s' else s
  end.

(** [String.prototype.trim]. *)
Definition trim (s : jsstring) : jsstring :=
  rev (dropWhile isWhiteSpace (rev (dropWhile isWhiteSpace s))).

(** [s.split(sep)] for a separator of one character. *)
Fixpoint split (sep : char) (s : jsstring) : list jsstring :=
  match s with
  | [] => [[]]
  | c :: s' =>
      if char_eqb c sep then [] :: split sep s'
      else match split sep s' with
           | [] => [[c]]
           | x :: xs => (c :: x) :: xs
           end
  end.

(** [Array.prototype.pop]: the last element, [None] ([undefined]) on an
    empty array. *)
Definition pop (xs : list jsstring) : option jsstring :=
  match rev xs with
  | [] => None
  | x :: _ => Some x
  end.

(** [x || dflt] on a string that may be [undefined]. *)
Definition orElse (x : option jsstring) (dflt : jsstring) : jsstring :=
  match x with
  | None | Some [] => dflt
  | Some s => s
  end.

(** [s.charAt(i)]: the empty string out of range. *)
Definition charAt (s : jsstring) (i : nat) : jsstring :=
  match nth_error s i with
  | Some c => [c]
  | None => []
  end.

(** [n.toString()] of a natural number. *)
Definition toString (n : N) : jsstring :=
  lit (DecimalString.NilZero.string_of_uint (N.to_uint n)).

(** [s.padStart(n, '0')]. *)
Definition padStart0 (s : jsstring) (n : nat) : jsstring :=
  repeat (chr "0") (n - length s) ++ s.

Definition isDigit (c : char) : bool := (48 <=? c)%N && (c <=? 57)%N.

(** [s.endsWith(p)]. *)
Definition endsWith (s p : jsstring) : bool :=
  startsWith (rev s) (rev p).

(** ** UploaderUtils (src/uploader/uploaderUtils.ts) *)

(** What the code reads of a [Date] in local time. *)
Record DateTime := {
  getFullYear : N;
  getMonth : N;
  getDate : N;
  getHours : N;
  getMinutes : N;
  getSeconds : N;
  getMilliseconds : N
}.

Definition characters : jsstring :=
  lit "ABCDEFGHIJKLMNOPQRSTUVWXYZabcdefghijklmnopqrstuvwxyz0123456789".

(** The pattern of [nameWithoutExt] anchored at the head of [s]: a dot, one
    or more characters other than "/" and ".", then the end of the string. *)
Definition extensionRegex (s : jsstring) : option (jsstring * unit) :=
  match stripPrefix (lit ".") s with
  | None => None
  | Some s1 =>
      let (ext, rest) :=
        span (fun c => notChar (chr "/") c && notChar (chr ".") c) s1 in
      match ext, rest with
      | _ :: _, [] => Some (s, tt)
      | _, _ => None
      end
  end.

(** [s.replace(regex, '')] for a pattern without the [g] flag: the leftmost
    match is cut out. *)
Definition removeFirstMatch {G} (matchHere : jsstring -> option (jsstring * G))
  (s : jsstring) : jsstring :=
  match searchFrom matchHere s 0 with
  | None => s
  | Some (i, w, _) => firstn i s ++ skipn (i + length w) s
  end.

(** The pattern of [customizeDomainName] anchored at the head of [s]:
    "http", an optional "s", "://", then group 1 = one or more characters
    other than "/". *)
Definition schemeHostRegex (s : jsstring) : option (jsstring * jsstring) :=
  match stripPrefix (lit "http") s with
  | None => None
  | Some s1 =>
      let (scheme, s2) :=
        match stripPrefix (lit "s") s1 with
        | Some r => (lit "https", r)
        | None => (lit "http", s1)
        end in
      match stripPrefix (lit "://") s2 with
      | None => None
      | Some s3 =>
          let (domain, _) := span (notChar (chr "/")) s3 in
          match domain with
          | [] => None
          | _ :: _ => Some (scheme ++ lit "://" ++ domain, domain)
          end
      end
  end.

Section UploaderUtils.

Variable toLowerCase : jsstring -> jsstring.
(** [randomIndex i]: the value of
    [Math.floor(Math.random() * characters.length)] at the [i]-th draw. *)
Variable randomIndex : nat -> nat.

(** The loop of [generateRandomString], from iteration [i], [n] iterations
    to go. *)
Fixpoint generateRandomStringFrom (i n : nat) : jsstring :=
  match n with
  | O => []
  | S n' =>
      charAt characters (randomIndex i) ++ generateRandomStringFrom (S i) n'
  end.

Definition generateRandomString (length : nat) : jsstring :=
  generateRandomStringFrom 0 length.

Definition timestampOf (now : DateTime) : jsstring :=
  toString (getFullYear now) ++
  padStart0 (toString (getMonth now + 1)) 2 ++
  padStart0 (toString (getDate now)) 2 ++
  padStart0 (toString (getHours now)) 2 ++
  padStart0 (toString (getMinutes now)) 2 ++
  padStart0 (toString (getSeconds now)) 2 ++
  padStart0 (toString (getMilliseconds now)) 3.

Definition extensionOf (originalName : jsstring) : jsstring :=
  orElse (pop (split (chr ".") originalName)) (lit "png").

(** [generateUniqueFileName]; [now] is the [new Date()] it takes. *)
Definition generateUniqueFileName (now : DateTime) (originalName : jsstring)
  : jsstring :=
  let timestamp := timestampOf now in
  let extension := extensionOf originalName in
  if includes (toLowerCase originalName) (lit "image")
     || str_eqb originalName (lit "blob")
  then lit "Pasted image " ++ timestamp ++ lit "." ++ extension
  else
    let nameWithoutExt := removeFirstMatch extensionRegex originalName in
    nameWithoutExt ++ lit " " ++ timestamp ++ lit "." ++ extension.

(** [generateName]; [date] and [now] are the two [new Date()] of the call,
    [pathTmpl = None] is [undefined]. *)
Definition generateName (date now : DateTime) (pathTmpl : option jsstring)
  (imageName : jsstring) : jsstring :=
  let year := toString (getFullYear date) in
  let month := padStart0 (toString (getMonth date + 1)) 2 in
  let day := padStart0 (toString (getDate date)) 2 in
  let random := generateRandomString 20 in
  let uniqueFileName := generateUniqueFileName now imageName in
  match pathTmpl with
  | None => uniqueFileName
  | Some tmpl =>
      if 0 <? length (trim tmpl)
      then replace
             (replace
                (replace
                   (replace (replace tmpl (lit "{year}") year)
                      (lit "{mon}") month)
                   (lit "{day}") day)
                (lit "{random}") random)
             (lit "{filename}") uniqueFileName
      else uniqueFileName
  end.

End UploaderUtils.

(** [customizeDomainName] *)
Definition customizeDomainName (url customDomainName : jsstring) : jsstring :=
  let customDomainName := replaceAll customDomainName (lit "https://") [] in
  if negb (str_eqb customDomainName [])
     && negb (str_eqb (trim customDomainName) [])
  then
    match searchFrom schemeHostRegex url 0 with
    | Some (index, matched, domain) =>
        firstn index url ++
        replace matched domain customDomainName ++
        skipn (index + length matched) url
    | None => lit "https://" ++ customDomainName ++ lit "/" ++ url
    end
  else url.

(** ** Facts on replacement and search *)

Lemma getSubstitution_no_dollar matched before after r :
  forallb (notChar (chr "$")) r = true ->
  getSubstitution matched before after r = r.
Proof.
  induction r as [|c r IH]; simpl; [reflexivity|].
  intros H. apply andb_true_iff in H as [Hc Hr].
  unfold notChar in Hc. apply negb_true_iff in Hc. rewrite Hc.
  now rewrite (IH Hr).
Qed.

Lemma replace_no_dollar s search r :
  forallb (notChar (chr "$")) r = true ->
  replace s search r = replaceFirstLiteral s search r.
Proof.
  intros H. unfold replace, replaceFirstLiteral.
  destruct (indexOf s search); [|reflexivity].
  now rewrite getSubstitution_no_dollar.
Qed.

Lemma indexOfFrom_first p s i n r :
  (forall k, k < n -> stripPrefix p (skipn k s) = None) ->
  stripPrefix p (skipn n s) = Some r ->
  indexOfFrom p s i = Some (i + n).
Proof.
  revert s i; induction n as [|n IH]; intros s i Hb Hm.
  - simpl in Hm. destruct s; simpl; rewrite Hm; now rewrite Nat.add_0_r.
  - pose proof (Hb 0 (Nat.lt_0_succ n)) as H0. simpl in H0.
    destruct s as [|c s].
    + simpl in Hm. congruence.
    + simpl indexOfFrom. rewrite H0. rewrite (IH s (S i)).
      * f_equal. lia.
      * intros k Hk. apply (Hb (S k)). lia.
      * exact Hm.
Qed.

Lemma indexOf_first s p n r :
  (forall k, k < n -> stripPrefix p (skipn k s) = None) ->
  stripPrefix p (skipn n s) = Some r ->
  indexOf s p = Some n.
Proof.
  intros Hb Hm. unfold indexOf. now rewrite (indexOfFrom_first p s 0 n r).
Qed.

Lemma in_firstn_in (c : char) n (l : jsstring) : In c (firstn n l) -> In c l.
Proof.
  intros H. rewrite <- (firstn_skipn n l). apply in_or_app. now left.
Qed.

Lemma in_skipn_in (c : char) n (l : jsstring) : In c (skipn n l) -> In c l.
Proof.
  intros H. rewrite <- (firstn_skipn n l). apply in_or_app. now right.
Qed.

(** A string that starts again inside a copy of itself shifted by [q] is
    made of the characters of [q]. *)
Lemma self_overlap_chars (q : jsstring) :
  q <> [] ->
  forall n host r, length host <= n -> q ++ host = host ++ r ->
  forall c, In c host -> In c q.
Proof.
  intros Hq. induction n as [|n IH]; intros host r Hn Heq c Hc.
  - destruct host; [contradiction|simpl in Hn; lia].
  - destruct (Nat.le_gt_cases (length host) (length q)) as [L|L].
    + assert (Hpre : host = firstn (length host) q).
      { pose proof (f_equal (firstn (length host)) Heq) as F.
        rewrite firstn_app in F.
        replace (length host - length q) with 0 in F by lia.
        simpl in F. rewrite app_nil_r in F.
        rewrite firstn_app, Nat.sub_diag, firstn_all in F. simpl in F.
        rewrite app_nil_r in F. congruence. }
      rewrite Hpre in Hc. eapply in_firstn_in; eauto.
    + assert (Hsplit : host = q ++ skipn (length q) host).
      { pose proof (f_equal (firstn (length q)) Heq) as F.
        rewrite firstn_app, Nat.sub_diag, firstn_all in F. simpl in F.
        rewrite app_nil_r in F.
        rewrite firstn_app in F.
        replace (length q - length host) with 0 in F by lia.
        simpl in F. rewrite app_nil_r in F.
        rewrite <- (firstn_skipn (length q) host) at 1. now rewrite <- F. }
      set (host' := skipn (length q) host) in *.
      rewrite Hsplit in Hc. apply in_app_or in Hc as [Hc|Hc]; [exact Hc|].
      apply (IH host' r); [| |exact Hc].
      * unfold host'. rewrite length_skipn.
        destruct q; [congruence|]. simpl. simpl in L. lia.
      * rewrite Hsplit in Heq at 1. rewrite Hsplit in Heq at 1.
        rewrite <- !app_assoc in Heq. now apply app_inv_head in Heq.
Qed.

Lemma indexOf_after_prefix pre host :
  (exists c, In c host /\ ~ In c pre) ->
  indexOf (pre ++ host) host = Some (length pre).
Proof.
  intros (c & Hc & Hnc).
  apply indexOf_first with (r := []).
  - intros k Hk.
    destruct (stripPrefix host (skipn k (pre ++ host))) as [r|] eqn:E;
      [|reflexivity].
    exfalso. apply Hnc.
    rewrite skipn_app in E.
    replace (k - length pre) with 0 in E by lia. simpl in E.
    apply stripPrefix_Some in E.
    assert (Hq : skipn k pre <> []).
    { intros Hq. apply (f_equal (@length _)) in Hq.
      rewrite length_skipn in Hq. simpl in Hq. lia. }
    pose proof (self_overlap_chars _ Hq (length host) host r
                  (Nat.le_refl _) E c Hc) as Hin.
    eapply in_skipn_in; eauto.
  - rewrite skipn_app, Nat.sub_diag, skipn_all. simpl.
    rewrite <- (app_nil_r host) at 2. apply stripPrefix_app.
Qed.

Lemma replace_after_prefix pre host r :
  (exists c, In c host /\ ~ In c pre) ->
  forallb (notChar (chr "$")) r = true ->
  replace (pre ++ host) host r = pre ++ r.
Proof.
  intros Hc Hr. rewrite (replace_no_dollar _ _ _ Hr).
  unfold replaceFirstLiteral. rewrite (indexOf_after_prefix _ _ Hc).
  rewrite firstn_app, Nat.sub_diag, firstn_all. simpl.
  rewrite skipn_all2 by (rewrite length_app; lia).
  now rewrite !app_nil_r.
Qed.

(** ** customizeDomainName *)

(** [s] starts with a scheme, "://" and a host that runs up to the next "/"
    or to the end. *)
Definition SchemeHostAt (s scheme host rest : jsstring) : Prop :=
  (scheme = lit "http" \/ scheme = lit "https") /\
  host <> [] /\
  forallb (notChar (chr "/")) host = true /\
  (rest = [] \/ exists r, rest = chr "/" :: r) /\
  s = scheme ++ lit "://" ++ host ++ rest.

(** The custom domain is used when something other than white space is
    left of it. *)
Definition isBlank (s : jsstring) : bool := str_eqb (trim s) [].

Lemma span_rest_slash s a b :
  span (notChar (chr "/")) s = (a, b) ->
  b = [] \/ exists r, b = chr "/" :: r.
Proof.
  intros H. apply span_stop in H. destruct b as [|c r]; [now left|right].
  exists r. unfold notChar in H. apply negb_false_iff, char_eqb_eq in H.
  now subst.
Qed.

Lemma schemeHostRegex_spec s w host :
  schemeHostRegex s = Some (w, host) <->
  exists scheme rest,
    SchemeHostAt s scheme host rest /\ w = scheme ++ lit "://" ++ host.
Proof.
  unfold schemeHostRegex, SchemeHostAt. split.
  - destruct (stripPrefix (lit "http") s) as [s1|] eqn:E1; [|discriminate].
    apply stripPrefix_Some in E1.
    destruct (stripPrefix (lit "s") s1) as [s2|] eqn:E2.
    + apply stripPrefix_Some in E2.
      destruct (stripPrefix (lit "://") s2) as [s3|] eqn:E3; [|discriminate].
      apply stripPrefix_Some in E3.
      destruct (span (notChar (chr "/")) s3) as [d rest] eqn:E4.
      destruct d as [|c d]; [discriminate|].
      intros H; inversion H; subst; clear H.
      exists (lit "https"), rest. split; [|reflexivity].
      split; [now right|]. split; [discriminate|].
      split; [eapply span_all; eassumption|].
      split; [eapply span_rest_slash; eassumption|].
      apply span_app in E4. now subst.
    + destruct (stripPrefix (lit "://") s1) as [s3|] eqn:E3; [|discriminate].
      apply stripPrefix_Some in E3.
      destruct (span (notChar (chr "/")) s3) as [d rest] eqn:E4.
      destruct d as [|c d]; [discriminate|].
      intros H; inversion H; subst; clear H.
      exists (lit "http"), rest. split; [|reflexivity].
      split; [now left|]. split; [discriminate|].
      split; [eapply span_all; eassumption|].
      split; [eapply span_rest_slash; eassumption|].
      apply span_app in E4. now subst.
  - intros (scheme & rest & (Hs & Hne & Hh & Hrest & ->) & ->).
    assert (Hspan : span (notChar (chr "/")) (host ++ rest) = (host, rest)).
    { apply span_unique; [exact Hh|].
      destruct Hrest as [->|[r ->]]; [exact I|reflexivity]. }
    destruct Hs as [->| ->].
    + rewrite stripPrefix_app.
      change (stripPrefix (lit "s") (lit "://" ++ host ++ rest)) with
        (@None jsstring).
      cbv beta iota.
      rewrite stripPrefix_app, Hspan. destruct host; [congruence|reflexivity].
    + change (lit "https" ++ lit "://" ++ host ++ rest) with
        (lit "http" ++ lit "s" ++ lit "://" ++ host ++ rest).
      rewrite !stripPrefix_app. cbv beta iota.
      rewrite Hspan. destruct host; [congruence|reflexivity].
Qed.

Lemma skipn_past_two (a b c : jsstring) :
  skipn (length a + length b) (a ++ b ++ c) = c.
Proof.
  rewrite app_assoc, <- length_app.
  now rewrite skipn_app, Nat.sub_diag, skipn_all.
Qed.

Lemma trim_nil : trim [] = [].
Proof. reflexivity. Qed.

Lemma customizeDomainName_blank url customDomainName :
  isBlank (replaceAll customDomainName (lit "https://") []) = true ->
  customizeDomainName url customDomainName = url.
Proof.
  unfold customizeDomainName, isBlank. intros ->.
  now rewrite andb_false_r.
Qed.

Lemma customizeDomainName_used url customDomainName :
  isBlank (replaceAll customDomainName (lit "https://") []) = false ->
  customizeDomainName url customDomainName =
  let custom := replaceAll customDomainName (lit "https://") [] in
  match searchFrom schemeHostRegex url 0 with
  | Some (index, matched, domain) =>
      firstn index url ++ replace matched domain custom ++
      skipn (index + length matched) url
  | None => lit "https://" ++ custom ++ lit "/" ++ url
  end.
Proof.
  unfold customizeDomainName, isBlank. intros H. rewrite H.
  destruct (replaceAll customDomainName (lit "https://") []) eqn:E.
  - rewrite trim_nil in H. discriminate.
  - reflexivity.
Qed.

(** ** C5 *)

(** C5, as the code has it.  With [custom] the custom domain after every
    "https://" is removed from it: when [custom] is empty or blank the url
    is returned unchanged; otherwise, when the url holds a first occurrence
    of "http://" or "https://" followed by a host (the characters up to the
    next "/"), that host is replaced by [custom] and the scheme is kept
    (for a [custom] without "$" and a host with a character that is not in
    the scheme or "://"); when it holds no such occurrence the result is
    "https://" + custom + "/" + url.  The example of the specification holds. *)
Theorem customizeDomainName_spec (url customDomainName : jsstring) :
  let custom := replaceAll customDomainName (lit "https://") [] in
  (isBlank custom = true -> customizeDomainName url customDomainName = url) /\
  (isBlank custom = false ->
     (forall pre scheme host rest,
        url = pre ++ scheme ++ lit "://" ++ host ++ rest ->
        SchemeHostAt (scheme ++ lit "://" ++ host ++ rest) scheme host rest ->
        (forall k scheme' host' rest',
           k < length pre -> ~ SchemeHostAt (skipn k url) scheme' host' rest') ->
        (exists c, In c host /\ ~ In c (scheme ++ lit "://")) ->
        forallb (notChar (chr "$")) custom = true ->
        customizeDomainName url customDomainName =
        pre ++ scheme ++ lit "://" ++ custom ++ rest) /\
     ((forall k scheme host rest,
         ~ SchemeHostAt (skipn k url) scheme host rest) ->
      customizeDomainName url customDomainName =
      lit "https://" ++ custom ++ lit "/" ++ url)) /\
  customizeDomainName
    (lit "https://acct.r2.cloudflarestorage.com/bucket/key.png")
    (lit "cdn.example.com")
  = lit "https://cdn.example.com/bucket/key.png".
Proof.
  intros custom. split; [apply customizeDomainName_blank|].
  split; [|reflexivity].
  intros Hb. rewrite (customizeDomainName_used _ _ Hb). cbv zeta.
  fold custom. split.
  - intros pre scheme host rest -> Hat Hfirst Hc Hd.
    assert (Hm : schemeHostRegex
                   (skipn (length pre)
                      (pre ++ scheme ++ lit "://" ++ host ++ rest))
                 = Some (scheme ++ lit "://" ++ host, host)).
    { rewrite skipn_app, Nat.sub_diag, skipn_all, skipn_O, app_nil_l.
      apply schemeHostRegex_spec. now exists scheme, rest. }
    rewrite (searchFrom_first _ schemeHostRegex
               (pre ++ scheme ++ lit "://" ++ host ++ rest) 0 (length pre)
               (scheme ++ lit "://" ++ host) host); cycle 1.
    + intros k Hk.
      destruct (schemeHostRegex
                  (skipn k (pre ++ scheme ++ lit "://" ++ host ++ rest)))
        as [[w h]|] eqn:E; [|reflexivity].
      apply schemeHostRegex_spec in E as (scheme' & rest' & Hat' & _).
      exfalso. exact (Hfirst k scheme' h rest' Hk Hat').
    + exact Hm.
    + rewrite Nat.add_0_l.
      rewrite firstn_app, Nat.sub_diag, firstn_all, firstn_O, app_nil_r.
      replace (scheme ++ lit "://" ++ host)
        with ((scheme ++ lit "://") ++ host) by now rewrite <- app_assoc.
      rewrite (replace_after_prefix _ _ _ Hc Hd).
      replace (pre ++ scheme ++ lit "://" ++ host ++ rest)
        with (pre ++ ((scheme ++ lit "://") ++ host) ++ rest)
        by now rewrite <- !app_assoc.
      rewrite skipn_past_two. now rewrite <- !app_assoc.
  - intros Hnone.
    destruct (searchFrom schemeHostRegex url 0) as [[[i w] h]|] eqn:E;
      [|reflexivity].
    exfalso.
    assert (Hfind : exists k, schemeHostRegex (skipn k url) = Some (w, h))
      by (eapply searchFrom_found; exact E).
    destruct Hfind as [k Hk].
    apply schemeHostRegex_spec in Hk as (scheme & rest & Hat & _).
    exact (Hnone k scheme h rest Hat).
Qed.

Lemma customizeDomainName_spec_witness :
  customizeDomainName (lit "see http://a.com/x") (lit "https://cdn.example.com")
  = lit "see http://cdn.example.com/x".
Proof.
  destruct (customizeDomainName_spec (lit "see http://a.com/x")
              (lit "https://cdn.example.com")) as (_ & Hused & _).
  destruct (Hused eq_refl) as (Hfirst & _).
  apply (Hfirst (lit "see ") (lit "http") (lit "a.com") (lit "/x")).
  - reflexivity.
  - split; [now left|]. split; [discriminate|]. split; [reflexivity|].
    split; [right; now exists (lit "x")|reflexivity].
  - intros k scheme' host' rest' Hk Hat.
    assert (Hm : schemeHostRegex (skipn k (lit "see http://a.com/x"))
                 = Some (scheme' ++ lit "://" ++ host', host'))
      by (apply schemeHostRegex_spec; now exists scheme', rest').
    destruct k as [|[|[|[|k]]]]; try (vm_compute in Hm; discriminate).
    simpl in Hk. lia.
  - exists (chr "."). split; [vm_compute; tauto|].
    vm_compute. intros H. repeat (destruct H as [H|H]; [discriminate|]).
    exact H.
  - reflexivity.
Defined.

(** C5 reads "replaced with https://{customDomain}"; the scheme of
    the url is kept instead. *)
Lemma customizeDomainName_keeps_http :
  customizeDomainName (lit "http://a.com/x") (lit "cdn.example.com")
  = lit "http://cdn.example.com/x" /\
  customizeDomainName (lit "http://a.com/x") (lit "cdn.example.com")
  <> lit "https://cdn.example.com/x".
Proof.
  split; [reflexivity|]. vm_compute. discriminate.
Qed.

(** ** C6 *)

Lemma split_no_sep sep s :
  forallb (notChar sep) s = true -> split sep s = [s].
Proof.
  induction s as [|c s IH]; simpl; [reflexivity|].
  intros H. apply andb_true_iff in H as [Hc Hs].
  unfold notChar in Hc. apply negb_true_iff in Hc. rewrite Hc.
  now rewrite (IH Hs).
Qed.

(** A name without a dot is its own extension: [split('.')] leaves it in one
    piece and [pop()] gives it back, so the default is not taken. *)
Lemma extensionOf_no_dot name :
  name <> [] -> forallb (notChar (chr ".")) name = true ->
  extensionOf name = name.
Proof.
  intros Hne Hnd. unfold extensionOf. rewrite (split_no_sep _ _ Hnd).
  destruct name; [congruence|reflexivity].
Qed.

Lemma generateUniqueFileName_suffix toLowerCase now name :
  exists stem,
    generateUniqueFileName toLowerCase now name
    = stem ++ lit "." ++ extensionOf name.
Proof.
  unfold generateUniqueFileName.
  destruct (includes (toLowerCase name) (lit "image")
            || str_eqb name (lit "blob")).
  - exists (lit "Pasted image " ++ timestampOf now).
    now rewrite <- !app_assoc.
  - exists (removeFirstMatch extensionRegex name ++ lit " " ++ timestampOf now).
    now rewrite <- !app_assoc.
Qed.

Lemma endsWith_app_false (stem a b : jsstring) :
  length a = length b -> a <> b ->
  forall pre, endsWith (stem ++ a) (pre ++ b) = false.
Proof.
  intros Hlen Hab pre. unfold endsWith, startsWith.
  destruct (stripPrefix (rev (pre ++ b)) (rev (stem ++ a))) as [r|] eqn:E;
    [|reflexivity].
  exfalso. apply Hab. apply stripPrefix_Some in E.
  rewrite !rev_app_distr, <- app_assoc in E.
  apply (f_equal (firstn (length (rev a)))) in E.
  rewrite firstn_app, Nat.sub_diag, firstn_all in E. simpl in E.
  rewrite app_nil_r in E.
  rewrite length_rev, Hlen, <- (length_rev b) in E.
  rewrite firstn_app, Nat.sub_diag, firstn_all in E. simpl in E.
  rewrite app_nil_r in E.
  rewrite <- (rev_involutive a), <- (rev_involutive b). now f_equal.
Qed.

(** C6, at the name "blob", which the code itself names as a generic name:
    the name holds no dot, and the generated name ends with ".blob", not
    with ".png". *)
Theorem generateUniqueFileName_blob (toLowerCase : jsstring -> jsstring)
  (now : DateTime) :
  forallb (notChar (chr ".")) (lit "blob") = true /\
  generateUniqueFileName toLowerCase now (lit "blob")
  = lit "Pasted image " ++ timestampOf now ++ lit ".blob" /\
  endsWith (generateUniqueFileName toLowerCase now (lit "blob")) (lit ".png")
  = false.
Proof.
  assert (E : generateUniqueFileName toLowerCase now (lit "blob")
              = lit "Pasted image " ++ timestampOf now ++ lit ".blob").
  { unfold generateUniqueFileName.
    replace (str_eqb (lit "blob") (lit "blob")) with true by reflexivity.
    rewrite orb_true_r. reflexivity. }
  split; [reflexivity|]. split; [exact E|].
  rewrite E.
  replace (lit "Pasted image " ++ timestampOf now ++ lit ".blob")
    with ((lit "Pasted image " ++ timestampOf now ++ lit ".") ++ lit "blob")
    by now rewrite <- !app_assoc.
  apply (endsWith_app_false _ (lit "blob") (lit ".png") eq_refl) with (pre := []).
  vm_compute. discriminate.
Qed.

(** C6, for every name: a non-empty name without a dot, other than "png"
    itself, never gets a generated name that ends with ".png". *)
Lemma generateUniqueFileName_no_dot_not_png toLowerCase now name :
  name <> [] -> forallb (notChar (chr ".")) name = true ->
  name <> lit "png" ->
  endsWith (generateUniqueFileName toLowerCase now name) (lit ".png") = false.
Proof.
  intros Hne Hnd Hpng.
  destruct (generateUniqueFileName_suffix toLowerCase now name) as [stem ->].
  rewrite (extensionOf_no_dot _ Hne Hnd).
  unfold endsWith, startsWith. rewrite !rev_app_distr.
  change (rev (lit ".png")) with [chr "g"; chr "n"; chr "p"; chr "."].
  change (rev (lit ".")) with [chr "."].
  assert (Hrn : rev name <> []).
  { intros E. apply Hne. now rewrite <- (rev_involutive name), E. }
  assert (Hrd : forallb (notChar (chr ".")) (rev name) = true).
  { rewrite forallb_forall in *. intros c Hc. apply Hnd.
    now apply in_rev. }
  assert (Hrp : rev name <> [chr "g"; chr "n"; chr "p"]).
  { intros E. apply Hpng. now rewrite <- (rev_involutive name), E. }
  destruct (rev name) as [|a [|b [|c [|d rn]]]]; [congruence| | | |].
  - cbn [stripPrefix app]. destruct (char_eqb (chr "g") a); [|reflexivity].
    reflexivity.
  - cbn [stripPrefix app]. destruct (char_eqb (chr "g") a); [|reflexivity].
    destruct (char_eqb (chr "n") b); reflexivity.
  - cbn [stripPrefix app]. destruct (char_eqb (chr "g") a) eqn:Ea; [|reflexivity].
    destruct (char_eqb (chr "n") b) eqn:Eb; [|reflexivity].
    destruct (char_eqb (chr "p") c) eqn:Ec; [|reflexivity].
    apply char_eqb_eq in Ea, Eb, Ec. subst. congruence.
  - cbn [stripPrefix app]. destruct (char_eqb (chr "g") a); [|reflexivity].
    destruct (char_eqb (chr "n") b); [|reflexivity].
    destruct (char_eqb (chr "p") c); [|reflexivity].
    cbn [forallb] in Hrd. rewrite !andb_true_iff in Hrd.
    destruct Hrd as (_ & _ & _ & Hd & _).
    unfold notChar in Hd. apply negb_true_iff in Hd.
    destruct (char_eqb (chr ".") d) eqn:E; [|reflexivity].
    apply char_eqb_eq in E. subst d. rewrite char_eqb_refl in Hd.
    discriminate.
Qed.

(** ** C7 *)

Definition sampleDate : DateTime :=
  {| getFullYear := 2024; getMonth := 0; getDate := 2; getHours := 3;
     getMinutes := 4; getSeconds := 5; getMilliseconds := 6 |}.

(** The chain of literal first-occurrence replacements the specification
    reads in [generateName]. *)
Definition literalTemplate
  (tmpl year month day random uniqueFileName : jsstring) : jsstring :=
  replaceFirstLiteral
    (replaceFirstLiteral
       (replaceFirstLiteral
          (replaceFirstLiteral (replaceFirstLiteral tmpl (lit "{year}") year)
             (lit "{mon}") month)
          (lit "{day}") day)
       (lit "{random}") random)
    (lit "{filename}") uniqueFileName.

(** C7, at the template "{filename}" and the file name "cost$$.png": the
    generated unique file name is "cost$$ 20240102030405006.png", its
    literal substitution gives that name, and [generateName] gives
    "cost$ 20240102030405006.png": the replacement text is read as a
    replacement pattern, in which "$$" stands for one dollar sign. *)
Theorem generateName_dollar :
  let unique :=
    generateUniqueFileName asciiToLowerCase sampleDate (lit "cost$$.png") in
  unique = lit "cost$$ 20240102030405006.png" /\
  literalTemplate (lit "{filename}") (lit "2024") (lit "01") (lit "02")
    (generateRandomString (fun i => i) 20) unique
  = lit "cost$$ 20240102030405006.png" /\
  generateName asciiToLowerCase (fun i => i) sampleDate sampleDate
    (Some (lit "{filename}")) (lit "cost$$.png")
  = lit "cost$ 20240102030405006.png".
Proof.
  cbv zeta. repeat split; vm_compute; reflexivity.
Qed.

(** *** Where the substitution is literal

    A replacement text without a dollar sign is inserted as it is.  The
    year, the month, the day and the random string never hold one; the
    generated file name holds one only when the original name does. *)

Lemma string_of_uint_digits (d : Decimal.uint) :
  forallb isDigit (lit (NilEmpty.string_of_uint d)) = true.
Proof.
  induction d; simpl; try reflexivity; exact IHd.
Qed.

Lemma toString_digits n : forallb isDigit (toString n) = true.
Proof.
  unfold toString, NilZero.string_of_uint.
  destruct (N.to_uint n) eqn:E; try reflexivity;
    rewrite <- E; apply string_of_uint_digits.
Qed.

Lemma padStart0_digits s n :
  forallb isDigit s = true -> forallb isDigit (padStart0 s n) = true.
Proof.
  intros H. unfold padStart0. rewrite forallb_app, H, andb_true_r.
  induction (n - length s) as [|k IH]; simpl; auto.
Qed.

Lemma digits_no_dollar s :
  forallb isDigit s = true -> forallb (notChar (chr "$")) s = true.
Proof.
  intros H. rewrite forallb_forall in *. intros c Hc. specialize (H c Hc).
  unfold isDigit in H. unfold notChar.
  apply andb_true_iff in H as [H1 H2]. apply N.leb_le in H1, H2.
  apply negb_true_iff, N.eqb_neq. change (chr "$") with 36%N. lia.
Qed.

Lemma charAt_characters_no_dollar i :
  forallb (notChar (chr "$")) (charAt characters i) = true.
Proof.
  unfold charAt. destruct (nth_error characters i) as [c|] eqn:E;
    [|reflexivity].
  apply nth_error_In in E. simpl. rewrite andb_true_r.
  assert (H : forallb (notChar (chr "$")) characters = true) by reflexivity.
  rewrite forallb_forall in H. now apply H.
Qed.

Lemma generateRandomStringFrom_no_dollar randomIndex i n :
  forallb (notChar (chr "$")) (generateRandomStringFrom randomIndex i n) = true.
Proof.
  revert i; induction n as [|n IH]; intros i; simpl; [reflexivity|].
  now rewrite forallb_app, charAt_characters_no_dollar, IH.
Qed.

(** C7, where it holds: a blank (or missing) template gives the generated
    unique file name, and for a generated name without a dollar sign the
    result is the chain of literal first-occurrence replacements. *)
Lemma generateName_literal toLowerCase randomIndex date now tmpl imageName :
  let unique := generateUniqueFileName toLowerCase now imageName in
  generateName toLowerCase randomIndex date now None imageName = unique /\
  (trim tmpl = [] ->
   generateName toLowerCase randomIndex date now (Some tmpl) imageName
   = unique) /\
  (trim tmpl <> [] ->
   forallb (notChar (chr "$")) unique = true ->
   generateName toLowerCase randomIndex date now (Some tmpl) imageName
   = literalTemplate tmpl
       (toString (getFullYear date))
       (padStart0 (toString (getMonth date + 1)) 2)
       (padStart0 (toString (getDate date)) 2)
       (generateRandomString randomIndex 20)
       unique).
Proof.
  cbv zeta. split; [reflexivity|]. split.
  - intros Hb. unfold generateName. now rewrite Hb.
  - intros Hb Hu. unfold generateName, literalTemplate.
    destruct (trim tmpl) as [|c t] eqn:E; [congruence|].
    cbn [length Nat.ltb Nat.leb].
    assert (Hy : forallb (notChar (chr "$")) (toString (getFullYear date))
                 = true)
      by apply digits_no_dollar, toString_digits.
    assert (Hm : forallb (notChar (chr "$"))
                   (padStart0 (toString (getMonth date + 1)) 2) = true)
      by apply digits_no_dollar, padStart0_digits, toString_digits.
    assert (Hd : forallb (notChar (chr "$"))
                   (padStart0 (toString (getDate date)) 2) = true)
      by apply digits_no_dollar, padStart0_digits, toString_digits.
    assert (Hr : forallb (notChar (chr "$"))
                   (generateRandomString randomIndex 20) = true)
      by apply generateRandomStringFrom_no_dollar.
    now rewrite !replace_no_dollar by assumption.
Qed.

(** ** The request signer of the fetch based R2Uploader *)

Definition bytes := list Byte.byte.

(** What a rejected promise or a [throw] carries. *)
Inductive JsError :=
| TypeError
| Error (message : jsstring).

Inductive Result (A : Type) :=
| Ok (a : A)
| Throw (e : JsError).
Arguments Ok {A} a.
Arguments Throw {A} e.

(** [await]: the rest runs on the value, a rejection is passed on. *)
Definition bind {A B} (r : Result A) (k : A -> Result B) : Result B :=
  match r with
  | Ok a => k a
  | Throw e => Throw e
  end.

Notation "x <- r ;; k" := (bind r (fun x => k))
  (at level 61, r at next level, right associativity).

(** The value handed to [importKey] as key data: the TypeScript signature
    says [ArrayBuffer], the value that arrives at run time is whatever the
    caller passed. *)
Inductive KeyData :=
| BufferSource (b : bytes)
| JsString (s : jsstring).

(** What [sha256] is given: [string | ArrayBuffer]. *)
Inductive HashInput :=
| OfString (s : jsstring)
| OfBuffer (b : bytes).

Definition newline : jsstring := [10%N].

Definition hexDigit (n : N) : char :=
  if (n <? 10)%N then (48 + n)%N else (87 + n)%N.

(** [b.toString(16).padStart(2, '0')] of a byte. *)
Definition hexByte (b : Byte.byte) : jsstring :=
  let n := Byte.to_N b in
  padStart0 (if (n <? 16)%N then [hexDigit n]
             else [hexDigit (n / 16); hexDigit (n mod 16)]) 2.

(** [hashArray.map(b => ...).join('')] *)
Definition hex (bs : bytes) : jsstring := flat_map hexByte bs.

(** [parts.join(sep)] *)
Fixpoint join (sep : jsstring) (parts : list jsstring) : jsstring :=
  match parts with
  | [] => []
  | [p] => p
  | p :: ps => p ++ sep ++ join sep ps
  end.

(** [iso.replace(/-/g, '')] *)
Definition removeDashes (s : jsstring) : jsstring :=
  filter (notChar (chr "-")) s.

(** The global replacement that makes [amzDate]: every ":" and "-" goes,
    and every "." that three digits follow goes with them. *)
Fixpoint removeSeparators (s : jsstring) : jsstring :=
  match s with
  | [] => []
  | c :: s' =>
      if char_eqb c (chr ":") || char_eqb c (chr "-") then removeSeparators s'
      else if char_eqb c (chr ".") then
        match s' with
        | d1 :: d2 :: d3 :: s'' =>
            if isDigit d1 && isDigit d2 && isDigit d3
            then removeSeparators s''
            else c :: removeSeparators s'
        | _ => c :: removeSeparators s'
        end
      else c :: removeSeparators s'
  end.

(** [endpoint.replace(/^https?:\/\//, '')] *)
Definition stripScheme (endpoint : jsstring) : jsstring :=
  match stripPrefix (lit "https://") endpoint with
  | Some r => r
  | None =>
      match stripPrefix (lit "http://") endpoint with
      | Some r => r
      | None => endpoint
      end
  end.

Record R2Setting := {
  accessKeyId : jsstring;
  secretAccessKey : jsstring;
  endpoint : jsstring;
  bucketName : jsstring;
  path : jsstring;
  customDomainName : jsstring
}.

Section Signer.

(** [crypto.subtle.digest('SHA-256', data)] *)
Variable sha256Digest : bytes -> bytes.
(** [crypto.subtle.sign('HMAC', key, data)] for a key imported from the raw
    bytes [key]. *)
Variable hmacSign : bytes -> bytes -> bytes.
(** [new TextEncoder().encode(s)] *)
Variable encode : jsstring -> bytes.

(** [crypto.subtle.importKey('raw', keyData, ...)]: the key data has to be a
    buffer; for any other value, a string among them, the promise is
    rejected with a [TypeError]. *)
Definition importKey (keyData : KeyData) : Result bytes :=
  match keyData with
  | BufferSource b => Ok b
  | JsString _ => Throw TypeError
  end.

Definition sha256 (data : HashInput) : jsstring :=
  let dataBuffer :=
    match data with
    | OfString s => encode s
    | OfBuffer b => b
    end in
  hex (sha256Digest dataBuffer).

(** [hmacSha256(key, data)]: resolves to the MAC in hexadecimal, a string. *)
Definition hmacSha256 (key : KeyData) (data : jsstring) : Result jsstring :=
  cryptoKey <- importKey key ;;
  let signature := hmacSign cryptoKey (encode data) in
  Ok (hex signature).

(** [getSignatureKey]: each step hands the string the previous one resolved
    to on as the next key. *)
Definition getSignatureKey (key dateStamp regionName serviceName
  stringToSign : jsstring) : Result jsstring :=
  kDate <- hmacSha256 (BufferSource (encode (lit "AWS4" ++ key))) dateStamp ;;
  kRegion <- hmacSha256 (JsString kDate) regionName ;;
  kService <- hmacSha256 (JsString kRegion) serviceName ;;
  kSigning <- hmacSha256 (JsString kService) (lit "aws4_request") ;;
  hmacSha256 (JsString kSigning) stringToSign.

Variable this : R2Setting.

(** The constants of [createSignedRequest]; [iso] is [now.toISOString()]. *)
Definition dateStampOf (iso : jsstring) : jsstring :=
  removeDashes (firstn 10 iso).

Definition amzDateOf (iso : jsstring) : jsstring := removeSeparators iso.

Definition region : jsstring := lit "auto".
Definition service : jsstring := lit "s3".
Definition signedHeaders : jsstring :=
  lit "host;x-amz-content-sha256;x-amz-date".
Definition algorithm : jsstring := lit "AWS4-HMAC-SHA256".

Definition canonicalHeadersOf (iso : jsstring) (body : bytes) : jsstring :=
  lit "host:" ++ stripScheme (endpoint this) ++ newline ++
  lit "x-amz-content-sha256:" ++ sha256 (OfBuffer body) ++ newline ++
  lit "x-amz-date:" ++ amzDateOf iso ++ newline.

Definition canonicalRequestOf (iso method key : jsstring) (body : bytes)
  : jsstring :=
  let canonicalUri := lit "/" ++ key in
  let canonicalQueryString : jsstring := [] in
  let payloadHash := sha256 (OfBuffer body) in
  method ++ newline ++ canonicalUri ++ newline ++ canonicalQueryString ++
  newline ++ canonicalHeadersOf iso body ++ newline ++ signedHeaders ++
  newline ++ payloadHash.

Definition credentialScopeOf (iso : jsstring) : jsstring :=
  dateStampOf iso ++ lit "/" ++ region ++ lit "/" ++ service ++
  lit "/aws4_request".

Definition stringToSignOf (iso method key : jsstring) (body : bytes)
  : jsstring :=
  algorithm ++ newline ++ amzDateOf iso ++ newline ++ credentialScopeOf iso ++
  newline ++ sha256 (OfString (canonicalRequestOf iso method key body)).

(** [createSignedRequest]: the headers, in the order of the object
    literal. *)
Definition createSignedRequest (iso method key contentType : jsstring)
  (body : bytes) : Result (list (jsstring * jsstring)) :=
  let amzDate := amzDateOf iso in
  let payloadHash := sha256 (OfBuffer body) in
  let credentialScope := credentialScopeOf iso in
  let stringToSign := stringToSignOf iso method key body in
  signature <- getSignatureKey (secretAccessKey this) (dateStampOf iso)
                 region service stringToSign ;;
  let authorization :=
    algorithm ++ lit " Credential=" ++ accessKeyId this ++ lit "/" ++
    credentialScope ++ lit ", SignedHeaders=" ++ signedHeaders ++
    lit ", Signature=" ++ signature in
  Ok [(lit "Authorization", authorization);
      (lit "x-amz-content-sha256", payloadHash);
      (lit "x-amz-date", amzDate);
      (lit "Content-Type", contentType)].

(** The signature of AWS Signature Version 4, as the specification words it: every
    key of the chain is the raw MAC of the step before. *)
Definition sigV4Signature (secretKey dateStamp stringToSign : jsstring)
  : jsstring :=
  let kDate := hmacSign (encode (lit "AWS4" ++ secretKey)) (encode dateStamp) in
  let kRegion := hmacSign kDate (encode (lit "auto")) in
  let kService := hmacSign kRegion (encode (lit "s3")) in
  let kSigning := hmacSign kService (encode (lit "aws4_request")) in
  hex (hmacSign kSigning (encode stringToSign)).

(** ** C1 *)

Lemma hmacSha256_buffer b data :
  hmacSha256 (BufferSource b) data = Ok (hex (hmacSign b (encode data))).
Proof. reflexivity. Qed.

Lemma hmacSha256_string s data : hmacSha256 (JsString s) data = Throw TypeError.
Proof. reflexivity. Qed.

Lemma getSignatureKey_TypeError key dateStamp regionName serviceName
  stringToSign :
  getSignatureKey key dateStamp regionName serviceName stringToSign
  = Throw TypeError.
Proof. reflexivity. Qed.

(** C1, on the code: for every secret key, date stamp and string to sign,
    the first step of the chain resolves to the hexadecimal text of kDate
    and the second step is given that text as its key, which [importKey]
    rejects: [getSignatureKey] never resolves, to the SigV4 signature or to
    anything else. *)
Theorem getSignatureKey_rejects (secretKey dateStamp stringToSign : jsstring) :
  hmacSha256 (BufferSource (encode (lit "AWS4" ++ secretKey))) dateStamp
  = Ok (hex (hmacSign (encode (lit "AWS4" ++ secretKey)) (encode dateStamp))) /\
  getSignatureKey secretKey dateStamp region service stringToSign
  = Throw TypeError /\
  getSignatureKey secretKey dateStamp region service stringToSign
  <> Ok (sigV4Signature secretKey dateStamp stringToSign).
Proof.
  split; [apply hmacSha256_buffer|]. split.
  - apply getSignatureKey_TypeError.
  - rewrite getSignatureKey_TypeError. discriminate.
Qed.

(** ** C2 *)

(** C2, on the code: the canonical request and the string to sign are the
    newline-joined sequences of the specification, and the call then fails in
    [getSignatureKey] instead of returning the four headers. *)
Theorem createSignedRequest_builds_then_rejects
  (iso method key contentType : jsstring) (body : bytes) :
  let payloadHash := hex (sha256Digest body) in
  let amzDate := amzDateOf iso in
  let canonicalRequest := canonicalRequestOf iso method key body in
  canonicalRequest =
    join newline
      [method; lit "/" ++ key; [];
       lit "host:" ++ stripScheme (endpoint this) ++ newline ++
       lit "x-amz-content-sha256:" ++ payloadHash ++ newline ++
       lit "x-amz-date:" ++ amzDate ++ newline;
       lit "host;x-amz-content-sha256;x-amz-date";
       payloadHash] /\
  stringToSignOf iso method key body =
    join newline
      [lit "AWS4-HMAC-SHA256"; amzDate;
       dateStampOf iso ++ lit "/auto/s3/aws4_request";
       hex (sha256Digest (encode canonicalRequest))] /\
  createSignedRequest iso method key contentType body = Throw TypeError.
Proof.
  cbv zeta. split; [|split].
  - unfold canonicalRequestOf, canonicalHeadersOf, sha256, join, signedHeaders.
    now rewrite <- !app_assoc.
  - unfold stringToSignOf, credentialScopeOf, sha256, join, algorithm,
      region, service.
    rewrite <- !app_assoc. reflexivity.
  - unfold createSignedRequest.
    now rewrite getSignatureKey_TypeError.
Qed.

End Signer.

(** ** The publish orchestrator (uploadLocalImagesInContent) *)

(** A file of the vault ([TFile]) and an in-memory file ([File]). *)
Record TFile := {
  tf_path : jsstring;
  tf_name : jsstring;
  tf_extension : jsstring
}.

Record File := {
  file_name : jsstring;
  file_type : jsstring;
  file_bytes : bytes
}.

(** The awaited calls a run has made so far, oldest first.  What the vault
    and the network answer may depend on them. *)
Inductive IoEvent :=
| ReadBinary (f : TFile)
| Upload (file : File)
| Download (url : jsstring).

Definition Trace := list IoEvent.

(** The files handed to the uploader, in order. *)
Fixpoint uploadsOf (io : Trace) : list File :=
  match io with
  | [] => []
  | Upload file :: io' => file :: uploadsOf io'
  | _ :: io' => uploadsOf io'
  end.

(** The variables of the loops. *)
Record LoopState := {
  io : Trace;
  successCount : nat;
  errorCount : nat;
  replacements : list (jsstring * jsstring)
}.

(** [errorCount++] after the awaited calls [io'] *)
Definition countError (st : LoopState) (io' : Trace) : LoopState :=
  {| io := io'; successCount := successCount st;
     errorCount := S (errorCount st); replacements := replacements st |}.

(** [replacements.push({originalText, newUrl}); successCount++] *)
Definition pushReplacement (st : LoopState) (io' : Trace)
  (originalText newUrl : jsstring) : LoopState :=
  {| io := io'; successCount := S (successCount st);
     errorCount := errorCount st;
     replacements := replacements st ++ [(originalText, newUrl)] |}.

Definition dquote : jsstring := [34%N].

(** [extensionMimeMap], as the list of its own entries. *)
Definition extensionMimeMap : list (jsstring * jsstring) :=
  [(lit "png", lit "image/png"); (lit "jpg", lit "image/jpeg");
   (lit "jpeg", lit "image/jpeg"); (lit "gif", lit "image/gif");
   (lit "webp", lit "image/webp"); (lit "svg", lit "image/svg+xml");
   (lit "bmp", lit "image/bmp"); (lit "tiff", lit "image/tiff");
   (lit "tif", lit "image/tiff"); (lit "avif", lit "image/avif");
   (lit "heic", lit "image/heic"); (lit "heif", lit "image/heif");
   (lit "mp4", lit "video/mp4"); (lit "mov", lit "video/quicktime");
   (lit "m4v", lit "video/x-m4v"); (lit "webm", lit "video/webm");
   (lit "ogg", lit "video/ogg"); (lit "ogv", lit "video/ogg");
   (lit "mkv", lit "video/x-matroska"); (lit "avi", lit "video/x-msvideo");
   (lit "mpg", lit "video/mpeg"); (lit "mpeg", lit "video/mpeg");
   (lit "mpe", lit "video/mpeg"); (lit "m2v", lit "video/mpeg");
   (lit "3gp", lit "video/3gpp"); (lit "3g2", lit "video/3gpp2")].

Fixpoint lookup (key : jsstring) (table : list (jsstring * jsstring))
  : option jsstring :=
  match table with
  | [] => None
  | (k, v) :: table' => if str_eqb k key then Some v else lookup key table'
  end.

(** The names an object literal inherits from [Object.prototype]. *)
Definition objectPrototypeKeys : list jsstring :=
  [lit "constructor"; lit "__defineGetter__"; lit "__defineSetter__";
   lit "hasOwnProperty"; lit "__lookupGetter__"; lit "__lookupSetter__";
   lit "isPrototypeOf"; lit "propertyIsEnumerable"; lit "toString";
   lit "valueOf"; lit "__proto__"; lit "toLocaleString"].

(** What [table[key] || dflt] evaluates to on an object literal of strings:
    a string, or the member of [Object.prototype] under an inherited name
    (a function, or the prototype itself under [__proto__]), which is
    truthy. *)
Inductive Value :=
| Text (s : jsstring)
| PrototypeMember (key : jsstring).

Definition memberOr (table : list (jsstring * jsstring)) (key dflt : jsstring)
  : Value :=
  match lookup key table with
  | Some (c :: v) => Text (c :: v)
  | Some [] => Text dflt
  | None =>
      if existsb (str_eqb key) objectPrototypeKeys
      then PrototypeMember key
      else Text dflt
  end.

(** The string a value is converted to: a native function prints as
    [function name() { [native code] }], the prototype as
    [[object Object]]. *)
Definition valueToString (v : Value) : jsstring :=
  match v with
  | Text s => s
  | PrototypeMember key =>
      if str_eqb key (lit "__proto__") then lit "[object Object]"
      else
        lit "function " ++
        (if str_eqb key (lit "constructor") then lit "Object" else key) ++
        lit "() { [native code] }"
  end.

(** The [type] of [new File(bits, name, { type })]: the empty string when
    the given type holds a character outside U+0020..U+007E, else the type
    in ASCII lower case. *)
Definition newFileType (type_ : jsstring) : jsstring :=
  if forallb (fun c => (32 <=? c)%N && (c <=? 126)%N) type_
  then map asciiLower type_
  else [].

(** The alternation of the pattern that strips an image extension from the
    alt text, in source order. *)
Definition imageExtensions : list jsstring :=
  [lit "png"; lit "jpg"; lit "jpeg"; lit "gif"; lit "svg"; lit "webp";
   lit "bmp"; lit "tiff"; lit "tif"].

(** That pattern (flag [i]) anchored at the head of [s]: a dot, one of the
    alternatives, then the end of the string. *)
Definition imageExtensionRegex (s : jsstring) : option (jsstring * unit) :=
  match stripPrefixCI (lit ".") s with
  | None => None
  | Some s1 =>
      if existsb (fun ext => match stripPrefixCI ext s1 with
                             | Some [] => true
                             | _ => false
                             end) imageExtensions
      then Some (s, tt)
      else None
  end.

(** [s.slice(a, -b)] *)
Definition sliceToEnd (s : jsstring) (a b : nat) : jsstring :=
  firstn (length s - b - a) (skipn a s).

(** [s.lastIndexOf(c)], scanning from index [i] with [found] the last index
    seen so far. *)
Fixpoint lastIndexOfFrom (c : char) (s : jsstring) (i : nat)
  (found : option nat) : option nat :=
  match s with
  | [] => found
  | d :: s' =>
      lastIndexOfFrom c s' (S i) (if char_eqb d c then Some i else found)
  end.

Definition lastIndexOf (s : jsstring) (c : char) : option nat :=
  lastIndexOfFrom c s 0 None.

(** The host: string built-ins, [path] of Node, the vault and the
    workspace, the plugin settings, the uploader and the downloader.  The
    notices the code shows are not modelled: they do not feed back into the
    result. *)
Module Host.
Record t := {
  toLowerCase : jsstring -> jsstring;
  decodeURIComponent : jsstring -> option jsstring;
  pathJoin : jsstring -> jsstring -> jsstring;
  pathNormalize : jsstring -> jsstring;
  normalizePath : jsstring -> jsstring;
  (* app.vault.config.attachmentFolderPath *)
  attachmentFolderPath : jsstring;
  (* app.workspace.getActiveFile()?.parent?.path; None when there is no
     active file or it has no parent *)
  activeFileParentPath : option jsstring;
  getAbstractFileByPath : jsstring -> option TFile;
  getFirstLinkpathDest : jsstring -> jsstring -> option TFile;
  getFiles : list TFile;
  readBinary : Trace -> TFile -> Result bytes;
  (* this.r2Uploader, None for null; upload resolves to the url or rejects *)
  r2Uploader : option (Trace -> File -> Result jsstring);
  (* downloadExternalImage resolves to a file (or to null) or rejects *)
  downloadExternalImage : Trace -> jsstring -> Result (option File);
  (* settings.downloadExternalImages, settings.useImageNameAsAltText *)
  downloadExternalImages : bool;
  useImageNameAsAltText : bool
}.
End Host.

Section Publish.

Variable host : Host.t.

Local Abbreviation toLowerCase := (Host.toLowerCase host).
Local Abbreviation decodeURIComponent := (Host.decodeURIComponent host).
Local Abbreviation pathJoin := (Host.pathJoin host).
Local Abbreviation pathNormalize := (Host.pathNormalize host).
Local Abbreviation normalizePath := (Host.normalizePath host).
Local Abbreviation attachmentFolderPath := (Host.attachmentFolderPath host).
Local Abbreviation activeFileParentPath := (Host.activeFileParentPath host).
Local Abbreviation getAbstractFileByPath := (Host.getAbstractFileByPath host).
Local Abbreviation getFirstLinkpathDest := (Host.getFirstLinkpathDest host).
Local Abbreviation getFiles := (Host.getFiles host).
Local Abbreviation readBinary := (Host.readBinary host).
Local Abbreviation r2Uploader := (Host.r2Uploader host).
Local Abbreviation downloadExternalImage := (Host.downloadExternalImage host).
Local Abbreviation downloadExternalImages := (Host.downloadExternalImages host).
Local Abbreviation useImageNameAsAltText := (Host.useImageNameAsAltText host).

(** [ImageTagProcessor.resolveImagePath(imageName, app)]: the resolved path
    and the name. *)
Definition resolveImagePath (imageName : jsstring)
  : Result (jsstring * jsstring) :=
  let '(pathName, imageName) :=
    match indexOf imageName (lit "/") with
    | None =>
        let pathName := pathJoin attachmentFolderPath imageName in
        (if startsWith attachmentFolderPath (lit ".")
         then lit "./" ++ pathName else pathName,
         imageName)
    | Some _ =>
        (imageName,
         substringFrom imageName
           (match lastIndexOf imageName (chr "/") with
            | Some i => i + 1
            | None => 0
            end))
    end in
  if startsWith pathName (lit "./") || startsWith pathName (lit "../") then
    match activeFileParentPath with
    | None => Throw (Error (lit "No active file found"))
    | Some parentPath =>
        Ok (pathNormalize (pathJoin parentPath pathName), imageName)
    end
  else Ok (pathName, imageName).

(** [mimeTypeFromExtension] *)
Definition mimeTypeFromExtension (extension : jsstring) : Value :=
  match extension with
  | [] => Text (lit "application/octet-stream")
  | _ =>
      let lower := toLowerCase extension in
      memberOr extensionMimeMap lower (lit "application/octet-stream")
  end.

(** [uploadImage(file)]: the url, or [null] when the uploader is not
    configured or the upload fails. *)
Definition uploadImage (io : Trace) (file : File) : Trace * option jsstring :=
  match r2Uploader with
  | None => (io, None)
  | Some uploader =>
      match uploader io file with
      | Ok url => (io ++ [Upload file], Some url)
      | Throw _ => (io ++ [Upload file], None)
      end
  end.

(** [if (url) {...} else { errorCount++ }] *)
Definition recordUpload (st : LoopState) (io' : Trace) (imageTag : ImageTag)
  (url : option jsstring) : LoopState :=
  match url with
  | Some (c :: u) => pushReplacement st io' (originalText imageTag) (c :: u)
  | _ => countError st io'
  end.

Variable fileContext : TFile.

(** The three ways a local file is looked for: the resolved path, the link
    resolution of the host, the file name anywhere in the vault. *)
Definition findLocalFile (imageTag : ImageTag) : Result (option TFile) :=
  resolved <- resolveImagePath (imagePath imageTag) ;;
  let normalizedPath := normalizePath (fst resolved) in
  let file := getAbstractFileByPath normalizedPath in
  let file :=
    match file with
    | Some f => Some f
    | None => getFirstLinkpathDest (imagePath imageTag) (tf_path fileContext)
    end in
  let file :=
    match file with
    | Some f => Some f
    | None =>
        match pop (split (chr "/") (imagePath imageTag)) with
        | Some imageName =>
            find (fun f => str_eqb (tf_name f) imageName) getFiles
        | None => None
        end
    end in
  Ok file.

(** [new File([blob], file.name, { type: mimeType })] *)
Definition fileObjOf (file : TFile) (fileContent : bytes) : File :=
  let extension := orElse (Some (toLowerCase (tf_extension file))) [] in
  let mimeType := mimeTypeFromExtension extension in
  {| file_name := tf_name file;
     file_type := newFileType (valueToString mimeType);
     file_bytes := fileContent |}.

(** One turn of the loop over [localImageTags]: the [try] block and its
    [catch]. *)
Definition localIteration (st : LoopState) (imageTag : ImageTag) : LoopState :=
  match findLocalFile imageTag with
  | Throw _ => countError st (io st)
  | Ok None => countError st (io st)
  | Ok (Some file) =>
      let io1 := io st ++ [ReadBinary file] in
      match readBinary (io st) file with
      | Throw _ => countError st io1
      | Ok fileContent =>
          let fileObj := fileObjOf file fileContent in
          let (io2, url) := uploadImage io1 fileObj in
          recordUpload st io2 imageTag url
      end
  end.

(** One turn of the loop over [externalImageTags]. *)
Definition externalIteration (st : LoopState) (imageTag : ImageTag)
  : LoopState :=
  let io1 := io st ++ [Download (imagePath imageTag)] in
  match downloadExternalImage (io st) (imagePath imageTag) with
  | Throw _ => countError st io1
  | Ok None => countError st io1
  | Ok (Some file) =>
      let (io2, url) := uploadImage io1 file in
      recordUpload st io2 imageTag url
  end.

(** The file name a replacement takes its alt text from. *)
Definition fileNameOf (originalText : jsstring) : jsstring :=
  if startsWith originalText (lit "![[") && endsWith originalText (lit "]]")
  then sliceToEnd originalText 3 2
  else
    match searchFrom mdImageRegex originalText 0 with
    | Some (_, _, (_, target)) => target
    | None => []
    end.

(** The tag a reference is rewritten to. *)
Definition newImageTagOf (originalText newUrl : jsstring) : jsstring :=
  let fileName := fileNameOf originalText in
  let altText :=
    match useImageNameAsAltText, fileName with
    | true, _ :: _ =>
        replaceAll
          (replaceAll (removeFirstMatch imageExtensionRegex fileName)
             (lit "-") (lit " "))
          (lit "_") (lit " ")
    | _, _ => []
    end in
  let isVideo :=
    isVideoAsset toLowerCase decodeURIComponent (Some fileName)
    || isVideoAsset toLowerCase decodeURIComponent (Some newUrl) in
  if isVideo
  then lit "<video controls src=" ++ dquote ++ newUrl ++ dquote ++
       lit "></video>"
  else lit "![" ++ altText ++ lit "](" ++ newUrl ++ lit ")".

(** One turn of the loop over [replacements]. *)
Definition applyReplacement (updatedContent : jsstring)
  (replacement : jsstring * jsstring) : jsstring :=
  replaceAll updatedContent (fst replacement)
    (newImageTagOf (fst replacement) (snd replacement)).

Definition localTagsOf (content : jsstring) : list ImageTag :=
  filter (fun tag => isLocalImage (imagePath tag)) (extractImageTags content).

Definition externalTagsOf (content : jsstring) : list ImageTag :=
  if downloadExternalImages
  then filter (fun tag => negb (isLocalImage (imagePath tag)))
         (extractImageTags content)
  else [].

(** [uploadLocalImagesInContent(content, fileContext)], started after the
    awaited calls [io0]: the awaited calls at its end and
    [(updatedContent, successCount, errorCount)]. *)
Definition uploadLocalImagesInContent (io0 : Trace) (content : jsstring)
  : Trace * (jsstring * nat * nat) :=
  let imageTags := extractImageTags content in
  match imageTags with
  | [] => (io0, (content, 0, 0))
  | _ :: _ =>
      let localImageTags := localTagsOf content in
      let externalImageTags := externalTagsOf content in
      if (length localImageTags =? 0) && (length externalImageTags =? 0)
      then (io0, (content, 0, 0))
      else
        let st0 := {| io := io0; successCount := 0; errorCount := 0;
                      replacements := [] |} in
        let st1 := fold_left localIteration localImageTags st0 in
        let st2 := fold_left externalIteration externalImageTags st1 in
        let updatedContent :=
          fold_left applyReplacement (replacements st2) content in
        (io st2, (updatedContent, successCount st2, errorCount st2))
  end.

(** *** What a run of a loop did, reference by reference

    [Steps step st tags outs st']: from [st], the turns of the loop for
    [tags] end in [st']; [outs] tells for each reference whether its turn
    pushed a replacement ([Some url]) or counted an error ([None]). *)
Inductive Steps (step : LoopState -> ImageTag -> LoopState)
  : LoopState -> list ImageTag -> list (option jsstring) -> LoopState -> Prop :=
| Steps_nil st : Steps step st [] [] st
| Steps_success st tag tags url outs st' io' :
    url <> [] ->
    step st tag = pushReplacement st io' (originalText tag) url ->
    Steps step (step st tag) tags outs st' ->
    Steps step st (tag :: tags) (Some url :: outs) st'
| Steps_failure st tag tags outs st' io' :
    step st tag = countError st io' ->
    Steps step (step st tag) tags outs st' ->
    Steps step st (tag :: tags) (None :: outs) st'.

(** The replacement plan of the references that succeeded. *)
Fixpoint planOf (tags : list ImageTag) (outs : list (option jsstring))
  : list (jsstring * jsstring) :=
  match tags, outs with
  | tag :: tags', Some url :: outs' =>
      (originalText tag, url) :: planOf tags' outs'
  | _ :: tags', None :: outs' => planOf tags' outs'
  | _, _ => []
  end.

Definition succeeded (outs : list (option jsstring)) : nat :=
  length (filter (fun o => match o with Some _ => true | None => false end) outs).

Definition failed (outs : list (option jsstring)) : nat :=
  length (filter (fun o => match o with Some _ => false | None => true end) outs).

Definition initialState (io0 : Trace) : LoopState :=
  {| io := io0; successCount := 0; errorCount := 0; replacements := [] |}.

Lemma recordUpload_cases st io' tag url :
  (exists u, u <> [] /\
     recordUpload st io' tag url = pushReplacement st io' (originalText tag) u) \/
  recordUpload st io' tag url = countError st io'.
Proof.
  destruct url as [[|c u]|]; simpl; auto.
  left. exists (c :: u). split; [discriminate|reflexivity].
Qed.

Lemma localIteration_cases st tag :
  (exists io' u, u <> [] /\
     localIteration st tag = pushReplacement st io' (originalText tag) u) \/
  (exists io', localIteration st tag = countError st io').
Proof.
  unfold localIteration.
  destruct (findLocalFile tag) as [[f|]|e]; eauto.
  destruct (readBinary (io st) f) as [b|e]; eauto.
  destruct (uploadImage (io st ++ [ReadBinary f]) (fileObjOf f b)) as [io2 url].
  destruct (recordUpload_cases st io2 tag url) as [(u & Hu & E)|E]; eauto.
Qed.

Lemma externalIteration_cases st tag :
  (exists io' u, u <> [] /\
     externalIteration st tag = pushReplacement st io' (originalText tag) u) \/
  (exists io', externalIteration st tag = countError st io').
Proof.
  unfold externalIteration.
  destruct (downloadExternalImage (io st) (imagePath tag)) as [[f|]|e]; eauto.
  destruct (uploadImage (io st ++ [Download (imagePath tag)]) f) as [io2 url].
  destruct (recordUpload_cases st io2 tag url) as [(u & Hu & E)|E]; eauto.
Qed.

(** A loop whose every turn pushes a replacement or counts an error goes
    through all its references. *)
Lemma Steps_fold step :
  (forall st tag,
     (exists io' u, u <> [] /\
        step st tag = pushReplacement st io' (originalText tag) u) \/
     (exists io', step st tag = countError st io')) ->
  forall tags st, exists outs, Steps step st tags outs (fold_left step tags st).
Proof.
  intros Hstep. induction tags as [|tag tags IH]; intros st; simpl.
  - exists []. constructor.
  - destruct (IH (step st tag)) as [outs Houts].
    destruct (Hstep st tag) as [(io' & u & Hu & E)|(io' & E)].
    + exists (Some u :: outs). econstructor; eauto.
    + exists (None :: outs). econstructor; eauto.
Qed.

Lemma Steps_length step st tags outs st' :
  Steps step st tags outs st' -> length outs = length tags.
Proof. induction 1; simpl; congruence. Qed.

Lemma Steps_state step st tags outs st' :
  Steps step st tags outs st' ->
  successCount st' = successCount st + succeeded outs /\
  errorCount st' = errorCount st + failed outs /\
  replacements st' = replacements st ++ planOf tags outs.
Proof.
  unfold succeeded, failed.
  induction 1 as [st|st tag tags url outs st' io' Hu E Hs IH
                    |st tag tags outs st' io' E Hs IH]; simpl.
  - rewrite app_nil_r. repeat split; lia.
  - rewrite E in IH. simpl in IH. destruct IH as (I1 & I2 & I3).
    rewrite I1, I2, I3, <- app_assoc. simpl. repeat split; lia.
  - rewrite E in IH. simpl in IH. destruct IH as (I1 & I2 & I3).
    rewrite I1, I2, I3. repeat split; lia.
Qed.

Lemma succeeded_app a b : succeeded (a ++ b) = succeeded a + succeeded b.
Proof. unfold succeeded. now rewrite filter_app, length_app. Qed.

Lemma failed_app a b : failed (a ++ b) = failed a + failed b.
Proof. unfold failed. now rewrite filter_app, length_app. Qed.

Lemma succeeded_failed outs : succeeded outs + failed outs = length outs.
Proof.
  unfold succeeded, failed.
  induction outs as [|[u|] outs IH]; simpl; lia.
Qed.

(** The result of the call, read off the two runs. *)
Lemma uploadLocalImagesInContent_runs io0 content :
  exists outsL outsE st1 st2,
    Steps localIteration (initialState io0) (localTagsOf content) outsL st1 /\
    Steps externalIteration st1 (externalTagsOf content) outsE st2 /\
    uploadLocalImagesInContent io0 content =
      (io st2,
       (fold_left applyReplacement
          (planOf (localTagsOf content) outsL ++
           planOf (externalTagsOf content) outsE) content,
        succeeded (outsL ++ outsE), failed (outsL ++ outsE))).
Proof.
  destruct (Steps_fold localIteration localIteration_cases
              (localTagsOf content) (initialState io0)) as [outsL HL].
  destruct (Steps_fold externalIteration externalIteration_cases
              (externalTagsOf content)
              (fold_left localIteration (localTagsOf content)
                 (initialState io0))) as [outsE HE].
  exists outsL, outsE. eexists. eexists.
  split; [exact HL|]. split; [exact HE|].
  destruct (Steps_state _ _ _ _ _ HL) as (L1 & L2 & L3).
  destruct (Steps_state _ _ _ _ _ HE) as (E1 & E2 & E3).
  rewrite succeeded_app, failed_app.
  simpl in L1, L2, L3.
  assert (Hfull :
    (let st2 := fold_left externalIteration (externalTagsOf content)
                  (fold_left localIteration (localTagsOf content)
                     (initialState io0)) in
     (io st2,
      (fold_left applyReplacement (replacements st2) content,
       successCount st2, errorCount st2)))
    = (io (fold_left externalIteration (externalTagsOf content)
             (fold_left localIteration (localTagsOf content)
                (initialState io0))),
       (fold_left applyReplacement
          (planOf (localTagsOf content) outsL ++
           planOf (externalTagsOf content) outsE) content,
        succeeded outsL + succeeded outsE, failed outsL + failed outsE))).
  { cbv zeta. rewrite E1, E2, E3, L1, L2, L3. reflexivity. }
  unfold uploadLocalImagesInContent.
  destruct (extractImageTags content) as [|t ts] eqn:Etags.
  - unfold localTagsOf, externalTagsOf in *. rewrite Etags in *.
    assert (Hext : (if downloadExternalImages
                    then filter (fun tag => negb (isLocalImage (imagePath tag)))
                           (@nil ImageTag)
                    else []) = []) by (destruct downloadExternalImages; reflexivity).
    rewrite Hext in *. simpl in *. exact Hfull.
  - destruct ((length (localTagsOf content) =? 0)
              && (length (externalTagsOf content) =? 0)) eqn:Eempty.
    + apply andb_true_iff in Eempty as [El Ee].
      apply Nat.eqb_eq in El, Ee.
      apply length_zero_iff_nil in El, Ee.
      rewrite El, Ee in *. simpl in *. exact Hfull.
    + exact Hfull.
Qed.

Lemma uploadImage_rejected io file uploader e :
  r2Uploader = Some uploader -> uploader io file = Throw e ->
  uploadImage io file = (io ++ [Upload file], None).
Proof. unfold uploadImage. now intros -> ->. Qed.

Lemma uploadImage_resolved io file uploader url :
  r2Uploader = Some uploader -> uploader io file = Ok url ->
  uploadImage io file = (io ++ [Upload file], Some url).
Proof. unfold uploadImage. now intros -> ->. Qed.

(** ** C4 *)

(** C4. For every document, the call returns a result
    [(updatedContent, successCount, errorCount)]: every local and every
    external reference gets its turn, each turn either pushes a replacement
    or counts an error, [successCount] and [errorCount] count the two kinds
    of turns, and the returned text is the input with the replacements of
    the references that succeeded applied.  A file not found after all three
    look-ups, a failure to resolve or to read, a failed upload and a failed
    download each count one error and leave the replacements as they
    were.  A local reference whose file is found, read and uploaded, and an
    external one whose file is downloaded and uploaded, each count one
    success and push the replacement of the text of the reference by the
    url of the upload, which the returned text has applied. *)
Theorem uploadLocalImagesInContent_partial_failure (io0 : Trace)
  (content : jsstring) :
  (exists outsL outsE st1 st2,
     Steps localIteration (initialState io0) (localTagsOf content) outsL st1 /\
     Steps externalIteration st1 (externalTagsOf content) outsE st2 /\
     uploadLocalImagesInContent io0 content =
       (io st2,
        (fold_left applyReplacement
           (planOf (localTagsOf content) outsL ++
            planOf (externalTagsOf content) outsE) content,
         succeeded (outsL ++ outsE), failed (outsL ++ outsE))) /\
     succeeded (outsL ++ outsE) + failed (outsL ++ outsE) =
       length (localTagsOf content) + length (externalTagsOf content)) /\
  (forall st tag,
     findLocalFile tag = Ok None ->
     localIteration st tag = countError st (io st)) /\
  (forall st tag e,
     findLocalFile tag = Throw e ->
     localIteration st tag = countError st (io st)) /\
  (forall st tag f e,
     findLocalFile tag = Ok (Some f) ->
     readBinary (io st) f = Throw e ->
     localIteration st tag = countError st (io st ++ [ReadBinary f])) /\
  (forall st tag f b uploader e,
     findLocalFile tag = Ok (Some f) ->
     readBinary (io st) f = Ok b ->
     r2Uploader = Some uploader ->
     uploader (io st ++ [ReadBinary f]) (fileObjOf f b) = Throw e ->
     localIteration st tag =
     countError st (io st ++ [ReadBinary f] ++ [Upload (fileObjOf f b)])) /\
  (forall st tag e,
     downloadExternalImage (io st) (imagePath tag) = Throw e ->
     externalIteration st tag =
     countError st (io st ++ [Download (imagePath tag)])) /\
  (forall st tag file uploader e,
     downloadExternalImage (io st) (imagePath tag) = Ok (Some file) ->
     r2Uploader = Some uploader ->
     uploader (io st ++ [Download (imagePath tag)]) file = Throw e ->
     externalIteration st tag =
     countError st (io st ++ [Download (imagePath tag)] ++ [Upload file])) /\
  (forall st tag f b uploader url,
     findLocalFile tag = Ok (Some f) ->
     readBinary (io st) f = Ok b ->
     r2Uploader = Some uploader ->
     uploader (io st ++ [ReadBinary f]) (fileObjOf f b) = Ok url ->
     url <> [] ->
     localIteration st tag =
     pushReplacement st (io st ++ [ReadBinary f] ++ [Upload (fileObjOf f b)])
       (originalText tag) url) /\
  (forall st tag file uploader url,
     downloadExternalImage (io st) (imagePath tag) = Ok (Some file) ->
     r2Uploader = Some uploader ->
     uploader (io st ++ [Download (imagePath tag)]) file = Ok url ->
     url <> [] ->
     externalIteration st tag =
     pushReplacement st (io st ++ [Download (imagePath tag)] ++ [Upload file])
       (originalText tag) url).
Proof.
  split.
  { destruct (uploadLocalImagesInContent_runs io0 content)
      as (outsL & outsE & st1 & st2 & HL & HE & Hres).
    exists outsL, outsE, st1, st2.
    split; [exact HL|]. split; [exact HE|]. split; [exact Hres|].
    rewrite succeeded_failed, length_app.
    now rewrite (Steps_length _ _ _ _ _ HL), (Steps_length _ _ _ _ _ HE). }
  split; [|split; [|split; [|split; [|split; [|split; [|split]]]]]].
  - intros st tag H. unfold localIteration. now rewrite H.
  - intros st tag e H. unfold localIteration. now rewrite H.
  - intros st tag f e H R. unfold localIteration. now rewrite H, R.
  - intros st tag f b uploader e H R U E. unfold localIteration.
    rewrite H, R, (uploadImage_rejected _ _ _ _ U E).
    simpl. now rewrite <- app_assoc.
  - intros st tag e D. unfold externalIteration. now rewrite D.
  - intros st tag file uploader e D U E. unfold externalIteration.
    rewrite D, (uploadImage_rejected _ _ _ _ U E).
    simpl. now rewrite <- app_assoc.
  - intros st tag f b uploader url H R U E Hu. unfold localIteration.
    rewrite H, R, (uploadImage_resolved _ _ _ _ U E).
    destruct url as [|c url]; [congruence|].
    simpl. now rewrite <- app_assoc.
  - intros st tag file uploader url D U E Hu. unfold externalIteration.
    rewrite D, (uploadImage_resolved _ _ _ _ U E).
    destruct url as [|c url]; [congruence|].
    simpl. now rewrite <- app_assoc.
Qed.

(** ** C3: the same image embedded twice *)

Lemma indexOfFrom_None_shift p s i j :
  indexOfFrom p s i = None -> indexOfFrom p s j = None.
Proof.
  revert i j; induction s as [|c s IH]; intros i j; simpl;
    destruct (stripPrefix p _); try discriminate; eauto.
Qed.



Lemma uploadsOf_app a b : uploadsOf (a ++ b) = uploadsOf a ++ uploadsOf b.
Proof.
  induction a as [|[f|file|url] a IH]; simpl; auto. now rewrite IH.
Qed.




End Publish.

(** ** A small vault

    One image, [attachments/a.png], an uploader that accepts every file and
    answers with its url under [https://cdn.x/], no download of external
    images. *)

Definition aPng : TFile :=
  {| tf_path := lit "attachments/a.png"; tf_name := lit "a.png";
     tf_extension := lit "png" |}.

Definition aPngBytes : bytes := [Byte.x89; Byte.x50; Byte.x4e; Byte.x47].

Definition note : TFile :=
  {| tf_path := lit "notes/today.md"; tf_name := lit "today.md";
     tf_extension := lit "md" |}.

Definition smallVault : Host.t :=
  {| Host.toLowerCase := asciiToLowerCase;
     Host.decodeURIComponent := plainDecode;
     Host.pathJoin := fun a b => a ++ lit "/" ++ b;
     Host.pathNormalize := fun p => p;
     Host.normalizePath := fun p => p;
     Host.attachmentFolderPath := lit "attachments";
     Host.activeFileParentPath := Some (lit "notes");
     Host.getAbstractFileByPath :=
       fun p => if str_eqb p (lit "attachments/a.png") then Some aPng else None;
     Host.getFirstLinkpathDest := fun _ _ => None;
     Host.getFiles := [aPng];
     Host.readBinary := fun _ _ => Ok aPngBytes;
     Host.r2Uploader :=
       Some (fun _ file => Ok (lit "https://cdn.x/" ++ file_name file));
     Host.downloadExternalImage :=
       fun _ _ => Throw (Error (lit "Network error"));
     Host.downloadExternalImages := false;
     Host.useImageNameAsAltText := false |}.



Lemma uploadLocalImagesInContent_partial_failure_witness :
  localIteration smallVault note (initialState [])
    (wikiTag 0 (lit "![[missing.png]]") (lit "missing.png"))
  = countError (initialState []) [] /\
  localIteration smallVault note (countError (initialState []) [])
    (wikiTag 17 (lit "![[a.png]]") (lit "a.png"))
  = pushReplacement (countError (initialState []) [])
      [ReadBinary aPng; Upload (fileObjOf smallVault aPng aPngBytes)]
      (lit "![[a.png]]") (lit "https://cdn.x/a.png") /\
  snd (uploadLocalImagesInContent smallVault note []
         (lit "![[missing.png]] ![[a.png]]"))
  = (lit "![[missing.png]] ![](https://cdn.x/a.png)", 1, 1).
Proof.
  destruct (uploadLocalImagesInContent_partial_failure smallVault note []
              (lit "![[missing.png]] ![[a.png]]"))
    as (_ & Hnotfound & _ & _ & _ & _ & _ & Huploaded & _).
  split; [apply Hnotfound; reflexivity|].
  split; [|vm_compute; reflexivity].
  apply (Huploaded (countError (initialState []) [])
           (wikiTag 17 (lit "![[a.png]]") (lit "a.png")) aPng aPngBytes
           (fun _ file => Ok (lit "https://cdn.x/" ++ file_name file))
           (lit "https://cdn.x/a.png"));
    try reflexivity. discriminate.
Defined.

(** * Further properties of the code *)

(** ** Extracted tags: bounds *)

Lemma extractImageTags_kinds content :
  Forall (fun t => IsBracketTag content t \/ IsWikiTag content t)
         (extractImageTags content).
Proof.
  destruct (extractImageTags_scans content) as (msA & msB & SA & SB & ->).
  apply Forall_app; split.
  - eapply Forall_impl; [|eapply md_tags_are_bracket_tags; exact SA].
    intros t H; now left.
  - eapply Forall_impl; [|eapply wiki_tags_are_wiki_tags; exact SB].
    intros t H; now right.
Qed.

Lemma skipn_app_bound (content w r : jsstring) j :
  skipn j content = w ++ r -> w <> [] -> j + length w <= length content.
Proof.
  intros H Hne. pose proof (f_equal (@length _) H) as L.
  rewrite length_skipn, length_app in L.
  destruct w; [congruence|]. simpl in L. simpl. lia.
Qed.

Lemma bracketLink_length alt target :
  length (bracketLink alt target) = 5 + length alt + length target.
Proof.
  unfold bracketLink. rewrite !length_app. simpl. lia.
Qed.

Lemma wikiLink_length target :
  length (wikiLink target) = 5 + length target.
Proof.
  unfold wikiLink. rewrite !length_app. simpl. lia.
Qed.

Lemma extracted_tag_bounds (content : jsstring) :
  Forall (fun t => start t + 6 <= end_ t /\ end_ t <= length content /\
                   imagePath t <> [])
         (extractImageTags content).
Proof.
  eapply Forall_impl; [|apply extractImageTags_kinds].
  intros t [((Ha & Hp & Hpp & rest & Hr) & Ho & He)
           |((Hp & Hpp & rest & Hr) & Ha & Ho & He)].
  - rewrite <- Ho in Hr.
    assert (Hne : originalText t <> []) by (rewrite Ho; discriminate).
    pose proof (skipn_app_bound _ _ _ _ Hr Hne) as Hb.
    rewrite He. rewrite Ho, bracketLink_length in *.
    destruct (imagePath t); [congruence|]. simpl in *.
    split; [lia|]. split; [lia|discriminate].
  - rewrite <- Ho in Hr.
    assert (Hne : originalText t <> []) by (rewrite Ho; discriminate).
    pose proof (skipn_app_bound _ _ _ _ Hr Hne) as Hb.
    rewrite He. rewrite Ho, wikiLink_length in *.
    destruct (imagePath t); [congruence|]. simpl in *.
    split; [lia|]. split; [lia|discriminate].
Qed.

(** X1.  Every tag spans at least six characters of the text and ends inside
    it, and its target is not empty. *)
Theorem extractImageTags_bounds (content : jsstring) :
  Forall (fun t => start t + 6 <= end_ t /\ end_ t <= length content /\
                   imagePath t <> [])
         (extractImageTags content).
Proof. exact (extracted_tag_bounds content). Qed.

(** ** replaceImageTag *)

Section ReplaceImageTag.

Variable toLowerCase : jsstring -> jsstring.
Variable decodeURIComponent : jsstring -> option jsstring.

(** [replaceImageTag(content, imageTag, newUrl)] *)
Definition replaceImageTag (content : jsstring) (imageTag : ImageTag)
  (newUrl : jsstring) : jsstring :=
  let isVideo :=
    isVideoAsset toLowerCase decodeURIComponent (Some (imagePath imageTag))
    || isVideoAsset toLowerCase decodeURIComponent (Some newUrl) in
  if isVideo then
    let newImageTag :=
      lit "<video controls src=" ++ dquote ++ newUrl ++ dquote ++
      lit "></video>" in
    substring content 0 (start imageTag) ++ newImageTag ++
    substringFrom content (end_ imageTag)
  else
    let newImageTag :=
      if startsWith (originalText imageTag) (lit "![[")
         && endsWith (originalText imageTag) (lit "]]")
      then lit "![](" ++ newUrl ++ lit ")"
      else lit "![" ++ altText imageTag ++ lit "](" ++ newUrl ++ lit ")" in
    substring content 0 (start imageTag) ++ newImageTag ++
    substringFrom content (end_ imageTag).

(** The tag that takes the place of the reference. *)
Definition newTagFor (imageTag : ImageTag) (newUrl : jsstring) : jsstring :=
  if isVideoAsset toLowerCase decodeURIComponent (Some (imagePath imageTag))
     || isVideoAsset toLowerCase decodeURIComponent (Some newUrl)
  then lit "<video controls src=" ++ dquote ++ newUrl ++ dquote ++
       lit "></video>"
  else bracketLink (altText imageTag) newUrl.

Lemma substring_0 (s : jsstring) n : substring s 0 n = firstn n s.
Proof.
  unfold substring. simpl. rewrite Nat.sub_0_r.
  destruct (Nat.le_gt_cases n (length s)).
  - now rewrite Nat.min_l by lia.
  - rewrite Nat.min_r by lia. now rewrite firstn_all, firstn_all2 by lia.
Qed.

Lemma endsWith_app (s p : jsstring) : endsWith (s ++ p) p = true.
Proof.
  unfold endsWith, startsWith. rewrite rev_app_distr.
  now rewrite stripPrefix_app.
Qed.

Lemma endsWith_last (s p : jsstring) c d :
  c <> d -> endsWith (s ++ [c]) (p ++ [d]) = false.
Proof.
  intros H. unfold endsWith, startsWith. rewrite !rev_app_distr. simpl.
  apply char_eqb_neq in H. rewrite N.eqb_sym in H.
  unfold char_eqb in *. now rewrite H.
Qed.

(** On a tag that [extractImageTags] returned, the text before [start] and
    the text from [end] on are kept, and between them stands the new tag:
    the video tag for a video, and otherwise the bracket link with the alt
    text of the tag (none for an embedded link) and the new url. *)
Lemma replaceImageTag_extracted content t newUrl :
  In t (extractImageTags content) ->
  replaceImageTag content t newUrl =
  firstn (start t) content ++ newTagFor t newUrl ++ skipn (end_ t) content.
Proof.
  intros Hin. unfold replaceImageTag, newTagFor, substringFrom.
  rewrite substring_0.
  destruct (isVideoAsset toLowerCase decodeURIComponent (Some (imagePath t))
            || isVideoAsset toLowerCase decodeURIComponent (Some newUrl));
    [reflexivity|].
  pose proof (extractImageTags_kinds content) as K.
  rewrite Forall_forall in K.
  destruct (K t Hin) as [(_ & Ho & _)|(_ & Ha & Ho & _)].
  - rewrite Ho. unfold bracketLink at 2.
    replace (lit "![" ++ altText t ++ lit "](" ++ imagePath t ++ lit ")")
      with ((lit "![" ++ altText t ++ lit "](" ++ imagePath t) ++ [chr ")"])
      by (now rewrite <- !app_assoc).
    change (lit "]]") with ([chr "]"] ++ [chr "]"]).
    rewrite endsWith_last by discriminate.
    now rewrite andb_false_r.
  - rewrite Ho, Ha. unfold wikiLink.
    assert (E1 : startsWith (lit "![[" ++ imagePath t ++ lit "]]")
                   (lit "![[") = true)
      by (unfold startsWith; now rewrite stripPrefix_app).
    assert (E2 : endsWith (lit "![[" ++ imagePath t ++ lit "]]")
                   (lit "]]") = true)
      by (rewrite app_assoc; apply endsWith_app).
    rewrite E1, E2. reflexivity.
Qed.

(** The text before the tag is kept: what lay before [start] in the input
    lies at the same offsets in the result. *)
Lemma replaceImageTag_before content t newUrl a b :
  In t (extractImageTags content) ->
  a <= b -> b <= start t ->
  substring (replaceImageTag content t newUrl) a b = substring content a b.
Proof.
  intros Hin Hab Hb. rewrite (replaceImageTag_extracted _ _ _ Hin).
  pose proof (extracted_tag_bounds content) as B.
  rewrite Forall_forall in B. destruct (B t Hin) as (B1 & B2 & _).
  assert (Hs : start t <= length content) by lia.
  unfold substring. rewrite !length_app, length_firstn.
  rewrite (Nat.min_l (start t)) by lia.
  rewrite !(Nat.min_l a), !(Nat.min_l b), !Nat.max_r by lia.
  rewrite skipn_app, firstn_app.
  rewrite !length_skipn, !length_firstn, (Nat.min_l (start t)) by lia.
  replace (a - start t) with 0 by lia.
  replace (b - a - (start t - a)) with 0 by lia.
  rewrite firstn_O, app_nil_r.
  rewrite <- (firstn_skipn (start t) content) at 2.
  rewrite skipn_app, firstn_app.
  rewrite !length_skipn, !length_firstn, (Nat.min_l (start t)) by lia.
  replace (a - start t) with 0 by lia.
  replace (b - a - (start t - a)) with 0 by lia.
  now rewrite firstn_O, app_nil_r.
Qed.

End ReplaceImageTag.

Lemma extracted_tag_located content t :
  In t (extractImageTags content) ->
  substring content (start t) (end_ t) = originalText t.
Proof.
  intros Hin. pose proof (extractImageTags_kinds content) as K.
  rewrite Forall_forall in K.
  destruct (K t Hin) as [((_ & _ & _ & rest & Hr) & Ho & He)
                        |((_ & _ & rest & Hr) & _ & Ho & He)];
    rewrite He; apply substring_of_skipn with (r := rest);
    rewrite Ho; (assumption || discriminate).
Qed.

Lemma extracted_tag_altText content t :
  In t (extractImageTags content) ->
  forallb (notChar (chr "]")) (altText t) = true.
Proof.
  intros Hin. pose proof (extractImageTags_kinds content) as K.
  rewrite Forall_forall in K.
  destruct (K t Hin) as [((Ha & _) & _)|(_ & Ha & _)]; [exact Ha|].
  now rewrite Ha.
Qed.

Lemma bracket_occurrence_covered content p alt target :
  BracketOccurs content p alt target ->
  exists t, In t (extractImageTags content) /\ start t <= p < end_ t.
Proof.
  intros (Ha & Hp & Hpp & rest & Hr).
  destruct (extractImageTags_scans content) as (msA & msB & SA & SB & ->).
  assert (Hm : mdImageRegex (skipn p content)
               = Some (bracketLink alt target, (alt, target))).
  { apply mdImageRegex_spec. repeat split; auto. now exists rest. }
  destruct (Scan_covers _ _ _ _ _ SA p _ _ (Nat.le_0_l p) Hm)
    as (j & w & g & Hin & Hr').
  exists (tagOfMd (j, w, g)). split; [|exact Hr'].
  apply in_or_app. left. apply in_map_iff. now exists (j, w, g).
Qed.

(** X2.  Round trip.  When a reference that [extractImageTags] returned is
    replaced (no video involved) by a non-empty url without ")", the
    bracket-link pattern matches in the new text at the offset of the
    reference, with the alt text of the reference and the new url as
    target, and extraction on the new text returns a tag that covers that
    offset. *)
Theorem replaceImageTag_round_trip
  (toLowerCase : jsstring -> jsstring)
  (decodeURIComponent : jsstring -> option jsstring)
  (content : jsstring) (t : ImageTag) (newUrl : jsstring) :
  In t (extractImageTags content) ->
  isVideoAsset toLowerCase decodeURIComponent (Some (imagePath t)) = false ->
  isVideoAsset toLowerCase decodeURIComponent (Some newUrl) = false ->
  newUrl <> [] ->
  forallb (notChar (chr ")")) newUrl = true ->
  let updated :=
    replaceImageTag toLowerCase decodeURIComponent content t newUrl in
  BracketOccurs updated (start t) (altText t) newUrl /\
  exists t', In t' (extractImageTags updated) /\
             start t' <= start t < end_ t'.
Proof.
  intros Hin Hv1 Hv2 Hne Hu updated.
  assert (Hocc : BracketOccurs updated (start t) (altText t) newUrl).
  { unfold updated. rewrite (replaceImageTag_extracted _ _ _ _ _ Hin).
    unfold newTagFor. rewrite Hv1, Hv2. cbn [orb].
    split; [eapply extracted_tag_altText; eassumption|].
    split; [exact Hne|]. split; [exact Hu|].
    exists (skipn (end_ t) content).
    pose proof (extracted_tag_bounds content) as B.
    rewrite Forall_forall in B. destruct (B t Hin) as (B1 & B2 & _).
    rewrite skipn_app, length_firstn, Nat.min_l by lia.
    rewrite Nat.sub_diag, skipn_O, skipn_all2
      by (rewrite length_firstn; lia).
    reflexivity. }
  split; [exact Hocc|]. eapply bracket_occurrence_covered; exact Hocc.
Qed.

(** X3.  Replacing a reference leaves the references before it where they were:
    for two tags of the same extraction, the offsets of the one that ends
    before the replaced one starts still locate its text in the result. *)
Theorem replaceImageTag_keeps_earlier_tags
  (toLowerCase : jsstring -> jsstring)
  (decodeURIComponent : jsstring -> option jsstring)
  (content : jsstring) (t u : ImageTag) (newUrl : jsstring) :
  In t (extractImageTags content) ->
  In u (extractImageTags content) ->
  end_ u <= start t ->
  substring (replaceImageTag toLowerCase decodeURIComponent content t newUrl)
    (start u) (end_ u)
  = originalText u.
Proof.
  intros Ht Hu Hut.
  pose proof (extracted_tag_bounds content) as B.
  rewrite Forall_forall in B. destruct (B u Hu) as (B1 & _).
  rewrite replaceImageTag_before by (assumption || lia).
  now apply extracted_tag_located.
Qed.

Lemma replaceImageTag_round_trip_witness :
  BracketOccurs
    (replaceImageTag asciiToLowerCase plainDecode
       (lit "![a](x.png) ![[y.png]]")
       (wikiTag 12 (lit "![[y.png]]") (lit "y.png"))
       (lit "https://cdn.x/y.png"))
    12 [] (lit "https://cdn.x/y.png").
Proof.
  refine (proj1 (replaceImageTag_round_trip asciiToLowerCase plainDecode
            (lit "![a](x.png) ![[y.png]]")
            (wikiTag 12 (lit "![[y.png]]") (lit "y.png"))
            (lit "https://cdn.x/y.png") _ _ _ _ _));
    try reflexivity; try discriminate.
  vm_compute. right. now left.
Defined.

Lemma replaceImageTag_keeps_earlier_tags_witness :
  substring
    (replaceImageTag asciiToLowerCase plainDecode
       (lit "![a](x.png) ![[y.png]]")
       (wikiTag 12 (lit "![[y.png]]") (lit "y.png"))
       (lit "https://cdn.x/y.png"))
    0 11
  = lit "![a](x.png)".
Proof.
  refine (replaceImageTag_keeps_earlier_tags asciiToLowerCase plainDecode
            (lit "![a](x.png) ![[y.png]]")
            (wikiTag 12 (lit "![[y.png]]") (lit "y.png"))
            (mdTag 0 (lit "![a](x.png)") (lit "a", lit "x.png"))
            (lit "https://cdn.x/y.png") _ _ _).
  - vm_compute. right. now left.
  - vm_compute. now left.
  - vm_compute. lia.
Defined.

(** ** resolveImagePath *)

Lemma indexOfFrom_char_None c s i :
  indexOfFrom [c] s i = None -> forallb (notChar c) s = true.
Proof.
  revert i; induction s as [|d s IH]; intros i H; [reflexivity|].
  simpl in H. cbn [forallb].
  destruct (char_eqb c d) eqn:E; [discriminate|].
  apply IH in H. rewrite H, andb_true_r. unfold notChar.
  apply negb_true_iff. apply char_eqb_neq in E. apply char_eqb_neq.
  congruence.
Qed.

(** After the last occurrence of a character there is none. *)
Lemma lastIndexOfFrom_spec c s i found :
  (lastIndexOfFrom c s i found = found /\ forallb (notChar c) s = true) \/
  (exists k, lastIndexOfFrom c s i found = Some (i + k) /\
             nth_error s k = Some c /\
             forallb (notChar c) (skipn (S k) s) = true).
Proof.
  revert i found; induction s as [|d s IH]; intros i found; simpl.
  - now left.
  - destruct (IH (S i) (if char_eqb d c then Some i else found))
      as [(E & Hn)|(k & E & Hk & Hn)].
    + rewrite E. destruct (char_eqb d c) eqn:Ed.
      * right. exists 0. rewrite Nat.add_0_r. simpl.
        apply char_eqb_eq in Ed. subst d. auto.
      * left. split; [reflexivity|]. unfold notChar at 1. rewrite Ed.
        exact Hn.
    + right. exists (S k). rewrite E. split; [f_equal; lia|].
      split; [exact Hk|exact Hn].
Qed.

Lemma firstn_S_nth_error (s : jsstring) k c :
  nth_error s k = Some c -> firstn (S k) s = firstn k s ++ [c].
Proof.
  revert k; induction s as [|d s IH]; intros [|k] H; simpl in *;
    try discriminate.
  - now inversion H.
  - f_equal. now apply IH.
Qed.

(** X4.  [resolveImagePath] throws only for want of an active file, and the
    name it returns is the part of the reference after its last "/": a
    suffix of the reference that holds no "/". *)
Theorem resolveImagePath_name (host : Host.t) (imageName : jsstring) :
  (forall e, resolveImagePath host imageName = Throw e ->
     Host.activeFileParentPath host = None /\
     e = Error (lit "No active file found")) /\
  (forall resolvedPath name,
     resolveImagePath host imageName = Ok (resolvedPath, name) ->
     forallb (notChar (chr "/")) name = true /\
     exists before, imageName = before ++ name /\
       (before = [] \/ exists d, before = d ++ lit "/")).
Proof.
  unfold resolveImagePath.
  destruct (indexOf imageName (lit "/")) as [i|] eqn:Ei.
  - set (name := substringFrom imageName
                   match lastIndexOf imageName (chr "/") with
                   | Some i0 => i0 + 1
                   | None => 0
                   end).
    assert (Hname : forallb (notChar (chr "/")) name = true /\
                    exists before, imageName = before ++ name /\
                      (before = [] \/ exists d, before = d ++ lit "/")).
    { unfold name, substringFrom, lastIndexOf.
      destruct (lastIndexOfFrom_spec (chr "/") imageName 0 None)
        as [(E & Hn)|(k & E & Hk & Hn)]; rewrite E.
      - split; [exact Hn|]. exists []. split; [reflexivity|now left].
      - simpl. rewrite Nat.add_1_r. split; [exact Hn|].
        exists (firstn (S k) imageName).
        split; [now rewrite firstn_skipn|]. right.
        exists (firstn k imageName). now apply firstn_S_nth_error. }
    destruct (startsWith imageName (lit "./")
              || startsWith imageName (lit "../")).
    + destruct (Host.activeFileParentPath host) as [p|].
      * split; [intros e H; discriminate|].
        intros rp n H. inversion H; subst. exact Hname.
      * split; [intros e H; inversion H; auto|intros rp n H; discriminate].
    + split; [intros e H; discriminate|].
      intros rp n H. inversion H; subst. exact Hname.
  - assert (Hname : forallb (notChar (chr "/")) imageName = true /\
                    exists before, imageName = before ++ imageName /\
                      (before = [] \/ exists d, before = d ++ lit "/")).
    { split; [eapply indexOfFrom_char_None; exact Ei|].
      exists []. split; [reflexivity|now left]. }
    match goal with
    | |- context [if ?c then _ else _] => destruct c
    end.
    + destruct (Host.activeFileParentPath host) as [p|].
      * split; [intros e H; discriminate|].
        intros rp n H. inversion H; subst. exact Hname.
      * split; [intros e H; inversion H; auto|intros rp n H; discriminate].
    + split; [intros e H; discriminate|].
      intros rp n H. inversion H; subst. exact Hname.
Qed.

Lemma resolveImagePath_name_witness :
  forallb (notChar (chr "/")) (lit "pic.png") = true /\
  exists before, lit "img/sub/pic.png" = before ++ lit "pic.png" /\
    (before = [] \/ exists d, before = d ++ lit "/").
Proof.
  apply (proj2 (resolveImagePath_name smallVault (lit "img/sub/pic.png"))
           (lit "img/sub/pic.png") (lit "pic.png")).
  reflexivity.
Defined.

(** ** The placeholder of a paste in progress *)

Definition digit36 (n : N) : char :=
  if (n <? 10)%N then (48 + n)%N else (87 + n)%N.

(** [n.toString(36)] of a natural number. *)
Fixpoint toString36Fuel (fuel : nat) (n : N) : jsstring :=
  match fuel with
  | O => []
  | S fuel' =>
      if (n <? 36)%N then [digit36 n]
      else toString36Fuel fuel' (n / 36) ++ [digit36 (n mod 36)]
  end.

Definition toString36 (n : N) : jsstring :=
  toString36Fuel (S (N.to_nat (N.log2 n))) n.

(** [generatePseudoRandomId(generatedIdLength)]; [randomInt i] is the value
    of [(Math.random() * 36) | 0] at the [i]-th draw. *)
Definition generatePseudoRandomId (randomInt : nat -> N)
  (generatedIdLength : nat) : jsstring :=
  flat_map (fun i => toString36 (randomInt i)) (seq 0 generatedIdLength).

(** [progressTextFor(id)] *)
Definition progressTextFor (id : jsstring) : jsstring :=
  lit "![Uploading file..." ++ id ++ lit "]()".

Definition isLowerAlnum (c : char) : bool := isDigit c || isAsciiLower c.

Lemma digit36_alnum n : (n < 36)%N -> isLowerAlnum (digit36 n) = true.
Proof.
  intros H. unfold isLowerAlnum, isDigit, isAsciiLower, digit36.
  destruct (n <? 10)%N eqn:E.
  - apply N.ltb_lt in E. apply orb_true_iff. left.
    apply andb_true_iff. split; apply N.leb_le; lia.
  - apply N.ltb_ge in E. apply orb_true_iff. right.
    apply andb_true_iff. split; apply N.leb_le; lia.
Qed.

Lemma toString36_small n : (n < 36)%N -> toString36 n = [digit36 n].
Proof.
  intros H. unfold toString36. simpl.
  apply N.ltb_lt in H. now rewrite H.
Qed.

Lemma generatePseudoRandomId_alnum randomInt n :
  (forall i, (randomInt i < 36)%N) ->
  length (generatePseudoRandomId randomInt n) = n /\
  forallb isLowerAlnum (generatePseudoRandomId randomInt n) = true.
Proof.
  intros H. unfold generatePseudoRandomId.
  generalize 0 as i. induction n as [|n IH]; intros i; simpl; [auto|].
  destruct (IH (S i)) as (L & A).
  rewrite (toString36_small _ (H i)). simpl.
  rewrite L, A, (digit36_alnum _ (H i)). auto.
Qed.

Lemma no_match_without_bang s :
  match s with [] => True | c :: _ => c <> chr "!" end ->
  mdImageRegex s = None /\ wikiImageRegex s = None.
Proof.
  destruct s as [|c s]; intros H; [split; reflexivity|].
  unfold mdImageRegex, wikiImageRegex.
  assert (E : char_eqb (chr "!") c = false).
  { apply char_eqb_neq. congruence. }
  cbn [lit list_ascii_of_string map stripPrefix]. fold (chr "!").
  now rewrite E.
Qed.

Lemma alnum_not c d :
  isLowerAlnum d = false -> isLowerAlnum c = true -> notChar d c = true.
Proof.
  intros Hd Hc. unfold notChar. apply negb_true_iff, char_eqb_neq.
  congruence.
Qed.

(** No pattern matches at an offset inside the placeholder of an identifier
    made of digits and lower-case letters. *)
Lemma progressText_no_match id rest k :
  forallb isLowerAlnum id = true ->
  k < length (progressTextFor id) ->
  mdImageRegex (skipn k (progressTextFor id ++ rest)) = None /\
  wikiImageRegex (skipn k (progressTextFor id ++ rest)) = None.
Proof.
  intros Hid Hk. destruct k as [|k].
  - cbn [skipn]. split.
    + unfold mdImageRegex, progressTextFor.
      change (lit "![Uploading file...")
        with (lit "![" ++ lit "Uploading file...").
      rewrite <- !app_assoc, stripPrefix_app.
      rewrite (app_assoc (lit "Uploading file...") id).
      rewrite span_unique.
      * change (lit "]()") with (lit "](" ++ lit ")").
        rewrite <- app_assoc, stripPrefix_app. reflexivity.
      * rewrite forallb_app. apply andb_true_iff. split; [reflexivity|].
        rewrite forallb_forall in *. intros c Hc.
        apply alnum_not; [reflexivity|auto].
      * reflexivity.
    + reflexivity.
  - apply no_match_without_bang.
    unfold progressTextFor in *.
    change (lit "![Uploading file...")
      with (chr "!" :: lit "[Uploading file...") in *.
    cbn [app skipn]. rewrite <- !app_assoc.
    set (tail := lit "[Uploading file..." ++ id ++ lit "]()") in *.
    assert (Ht : forallb (notChar (chr "!")) tail = true).
    { unfold tail. rewrite !forallb_app.
      apply andb_true_iff. split; [reflexivity|].
      apply andb_true_iff. split; [|reflexivity].
      rewrite forallb_forall in *. intros c Hc.
      apply alnum_not; [reflexivity|auto]. }
    replace (lit "[Uploading file..." ++ id ++ lit "]()" ++ rest)
      with (tail ++ rest) by (unfold tail; now rewrite <- !app_assoc).
    assert (Hk' : k < length tail).
    { cbn [app length] in Hk.
      replace (lit "[Uploading file..." ++ id ++ lit "]()") with tail in Hk
        by reflexivity. lia. }
    rewrite skipn_app.
    destruct (skipn k tail) as [|c s] eqn:E.
    + assert (L : length (skipn k tail) = 0) by (now rewrite E).
      rewrite length_skipn in L. lia.
    + cbn [app].
      assert (Hin : In c tail).
      { apply in_skipn_in with (n := k). rewrite E. now left. }
      rewrite forallb_forall in Ht. specialize (Ht c Hin).
      unfold notChar in Ht. apply negb_true_iff, char_eqb_neq in Ht.
      exact Ht.
Qed.

(** X5.  A document is published while a paste is still being uploaded: no
    reference that [extractImageTags] returns starts inside the progress
    placeholder of the paste, whatever surrounds it; and the identifier of
    the placeholder has the length asked for. *)
Theorem progress_placeholder_not_extracted
  (randomInt : nat -> N) (generatedIdLength : nat) (before rest : jsstring) :
  (forall i, (randomInt i < 36)%N) ->
  let id := generatePseudoRandomId randomInt generatedIdLength in
  let placeholder := progressTextFor id in
  length id = generatedIdLength /\
  Forall (fun t => ~ (length before <= start t
                      < length before + length placeholder))
         (extractImageTags (before ++ placeholder ++ rest)).
Proof.
  intros Hr id placeholder.
  destruct (generatePseudoRandomId_alnum randomInt generatedIdLength Hr)
    as (Hlen & Hid).
  split; [exact Hlen|].
  eapply Forall_impl; [|apply extractImageTags_kinds].
  intros t Hkind (Hlo & Hhi).
  assert (Hsk : skipn (start t) (before ++ placeholder ++ rest)
                = skipn (start t - length before) (placeholder ++ rest)).
  { rewrite skipn_app, skipn_all2 by lia. reflexivity. }
  destruct (progressText_no_match id rest (start t - length before) Hid)
    as (Hmd & Hwiki); [fold placeholder; lia|].
  fold placeholder in Hmd, Hwiki. rewrite <- Hsk in Hmd, Hwiki.
  destruct Hkind as [((Ha & Hp & Hpp & r & Hrr) & Ho & He)
                    |((Hp & Hpp & r & Hrr) & Ha & Ho & He)].
  - assert (Hm : mdImageRegex (skipn (start t) (before ++ placeholder ++ rest))
                 = Some (bracketLink (altText t) (imagePath t),
                         (altText t, imagePath t))).
    { apply mdImageRegex_spec. repeat split; auto. now exists r. }
    congruence.
  - assert (Hm : wikiImageRegex
                   (skipn (start t) (before ++ placeholder ++ rest))
                 = Some (wikiLink (imagePath t), imagePath t)).
    { apply wikiImageRegex_spec. repeat split; auto. now exists r. }
    congruence.
Qed.

Lemma progress_placeholder_not_extracted_witness :
  Forall (fun t => ~ (5 <= start t < 5 + 27))
    (extractImageTags
       (lit "text " ++ lit "![Uploading file...00000]()" ++ lit " ![[a.png]]")).
Proof.
  exact (proj2 (progress_placeholder_not_extracted (fun _ => 0%N) 5
                  (lit "text ") (lit " ![[a.png]]")
                  (fun _ => eq_refl))).
Defined.

(** ** generateRandomString *)

Definition isAlnum (c : char) : bool :=
  isDigit c || isAsciiUpper c || isAsciiLower c.

Lemma charAt_characters i :
  i < 62 ->
  exists c, charAt characters i = [c] /\ isAlnum c = true.
Proof.
  intros H. unfold charAt.
  destruct (nth_error characters i) as [c|] eqn:E.
  - exists c. split; [reflexivity|].
    apply nth_error_In in E.
    assert (A : forallb isAlnum characters = true) by reflexivity.
    rewrite forallb_forall in A. now apply A.
  - apply nth_error_None in E. change (length characters) with 62 in E. lia.
Qed.

(** X6.  With every draw inside the alphabet, as [Math.random() < 1] makes it,
    the random string has exactly the length asked for and holds letters
    and digits only. *)
Theorem generateRandomString_alnum (randomIndex : nat -> nat) (length_ : nat) :
  (forall i, randomIndex i < 62) ->
  length (generateRandomString randomIndex length_) = length_ /\
  forallb isAlnum (generateRandomString randomIndex length_) = true.
Proof.
  intros H. unfold generateRandomString. generalize 0 as i.
  induction length_ as [|n IH]; intros i; simpl; [auto|].
  destruct (charAt_characters (randomIndex i) (H i)) as (c & -> & Hc).
  destruct (IH (S i)) as (L & A). simpl. rewrite L, Hc, A. auto.
Qed.

Lemma generateRandomString_alnum_witness :
  length (generateRandomString (fun i => Nat.min (7 * i) 61) 20) = 20 /\
  forallb isAlnum (generateRandomString (fun i => Nat.min (7 * i) 61) 20)
  = true.
Proof.
  apply (generateRandomString_alnum (fun i => Nat.min (7 * i) 61) 20).
  intros i. lia.
Defined.

(** ** The timestamp of generateUniqueFileName *)

Lemma below_forallb (P : N -> bool) (bound : N) :
  forallb P (map N.of_nat (seq 0 (N.to_nat bound))) = true ->
  forall n, (n < bound)%N -> P n = true.
Proof.
  intros H n Hn. rewrite forallb_forall in H. apply H.
  apply in_map_iff. exists (N.to_nat n). split; [apply N2Nat.id|].
  apply in_seq. lia.
Qed.

Lemma two_digits n :
  (n < 100)%N ->
  length (padStart0 (toString n) 2) = 2 /\
  forallb isDigit (padStart0 (toString n) 2) = true.
Proof.
  intros H. split; [|apply padStart0_digits, toString_digits].
  apply Nat.eqb_eq.
  apply (below_forallb
           (fun n => length (padStart0 (toString n) 2) =? 2) 100);
    [vm_compute; reflexivity|exact H].
Qed.

Lemma three_digits n :
  (n < 1000)%N ->
  length (padStart0 (toString n) 3) = 3 /\
  forallb isDigit (padStart0 (toString n) 3) = true.
Proof.
  intros H. split; [|apply padStart0_digits, toString_digits].
  apply Nat.eqb_eq.
  apply (below_forallb
           (fun n => length (padStart0 (toString n) 3) =? 3) 1000);
    [vm_compute; reflexivity|exact H].
Qed.

Lemma four_digits n :
  (1000 <= n < 10000)%N ->
  length (toString n) = 4 /\ forallb isDigit (toString n) = true.
Proof.
  intros H. split; [|apply toString_digits].
  assert (G : ((n <? 1000)%N || (length (toString n) =? 4)) = true).
  { apply (below_forallb
             (fun n => (n <? 1000)%N || (length (toString n) =? 4)) 10000);
      [vm_compute; reflexivity|lia]. }
  apply orb_true_iff in G as [G|G].
  - apply N.ltb_lt in G. lia.
  - now apply Nat.eqb_eq.
Qed.

(** The fields of a date in local time, the year on four digits. *)
Definition validDate (d : DateTime) : Prop :=
  (1000 <= getFullYear d < 10000)%N /\ (getMonth d < 12)%N /\
  (1 <= getDate d <= 31)%N /\ (getHours d < 24)%N /\
  (getMinutes d < 60)%N /\ (getSeconds d < 60)%N /\
  (getMilliseconds d < 1000)%N.

(** X7.  For a date with a four-digit year the timestamp is seventeen digits,
    YYYYMMDDHHmmssSSS, every field zero-padded to its width. *)
Theorem timestampOf_seventeen_digits (now : DateTime) :
  validDate now ->
  length (timestampOf now) = 17 /\ forallb isDigit (timestampOf now) = true.
Proof.
  intros (Hy & Hmo & Hd & Hh & Hmi & Hs & Hms).
  destruct (four_digits (getFullYear now) Hy) as (L1 & D1).
  destruct (two_digits (getMonth now + 1)) as (L2 & D2); [lia|].
  destruct (two_digits (getDate now)) as (L3 & D3); [lia|].
  destruct (two_digits (getHours now)) as (L4 & D4); [lia|].
  destruct (two_digits (getMinutes now)) as (L5 & D5); [lia|].
  destruct (two_digits (getSeconds now)) as (L6 & D6); [lia|].
  destruct (three_digits (getMilliseconds now) Hms) as (L7 & D7).
  unfold timestampOf. rewrite !length_app, !forallb_app.
  rewrite L1, L2, L3, L4, L5, L6, L7, D1, D2, D3, D4, D5, D6, D7.
  split; reflexivity.
Qed.

Lemma timestampOf_seventeen_digits_witness :
  length (timestampOf sampleDate) = 17 /\
  forallb isDigit (timestampOf sampleDate) = true.
Proof.
  apply (timestampOf_seventeen_digits sampleDate).
  unfold validDate, sampleDate; simpl. lia.
Defined.

(** ** generateUniqueFileName on a name with an extension *)

Lemma split_nonempty sep s : split sep s <> [].
Proof.
  induction s as [|c s IH]; simpl; [discriminate|].
  destruct (char_eqb c sep); [discriminate|].
  destruct (split sep s); [congruence|discriminate].
Qed.

Lemma pop_cons x (xs : list jsstring) :
  xs <> [] -> pop (x :: xs) = pop xs.
Proof.
  intros H. unfold pop. simpl.
  destruct (rev xs) as [|y ys] eqn:E.
  - apply (f_equal (@rev _)) in E. rewrite rev_involutive in E.
    simpl in E. congruence.
  - reflexivity.
Qed.

Lemma split_two sep a b :
  exists x y l, split sep (a ++ sep :: b) = x :: y :: l.
Proof.
  induction a as [|c a IH]; simpl.
  - rewrite char_eqb_refl.
    destruct (split sep b) as [|y l] eqn:E;
      [now apply split_nonempty in E|]. now exists [], y, l.
  - destruct IH as (x & y & l & ->).
    destruct (char_eqb c sep); eauto.
Qed.

(** What [split(sep).pop()] gives is what follows the last separator. *)
Lemma pop_split_after sep a b :
  pop (split sep (a ++ sep :: b)) = pop (split sep b).
Proof.
  induction a as [|c a IH]; simpl.
  - rewrite char_eqb_refl. apply pop_cons, split_nonempty.
  - destruct (split_two sep a b) as (x & y & l & E).
    rewrite E in *. destruct (char_eqb c sep).
    + rewrite pop_cons by discriminate. exact IH.
    + rewrite pop_cons by discriminate.
      rewrite pop_cons in IH by discriminate. exact IH.
Qed.

Lemma span_stops_at p (x y : jsstring) c :
  p c = false -> snd (span p (x ++ c :: y)) <> [].
Proof.
  intros Hc E.
  destruct (span p (x ++ c :: y)) as [a b] eqn:S. simpl in E. subst b.
  pose proof (span_app _ _ _ _ S) as Ha. rewrite app_nil_r in Ha.
  pose proof (span_all _ _ _ _ S) as Hall. rewrite <- Ha in Hall.
  rewrite forallb_app in Hall. simpl in Hall. rewrite Hc in Hall.
  rewrite andb_false_r in Hall. discriminate.
Qed.

Definition notSlashNotDot (c : char) : bool :=
  notChar (chr "/") c && notChar (chr ".") c.

Lemma extensionRegex_before_last_dot (d : char) (b ext : jsstring) :
  extensionRegex ((d :: b) ++ chr "." :: ext) = None.
Proof.
  unfold extensionRegex. cbn [app lit list_ascii_of_string map stripPrefix].
  fold (chr "."). destruct (char_eqb (chr ".") d); [|reflexivity].
  pose proof (span_stops_at notSlashNotDot b ext (chr ".") eq_refl) as H.
  fold notSlashNotDot.
  destruct (span notSlashNotDot (b ++ chr "." :: ext)) as [a r].
  simpl in H. destruct a; [reflexivity|]. destruct r; [congruence|reflexivity].
Qed.

Lemma extensionRegex_at_last_dot (ext : jsstring) :
  ext <> [] -> forallb notSlashNotDot ext = true ->
  extensionRegex (chr "." :: ext) = Some (chr "." :: ext, tt).
Proof.
  intros Hne Hext. unfold extensionRegex.
  cbn [lit list_ascii_of_string map stripPrefix]. fold (chr ".").
  rewrite char_eqb_refl. fold notSlashNotDot.
  rewrite <- (app_nil_r ext) at 1.
  rewrite (span_unique notSlashNotDot ext [] Hext I).
  destruct ext; [congruence|reflexivity].
Qed.

Lemma extension_parts (base ext : jsstring) :
  ext <> [] -> forallb notSlashNotDot ext = true ->
  extensionOf (base ++ lit "." ++ ext) = ext /\
  removeFirstMatch extensionRegex (base ++ lit "." ++ ext) = base.
Proof.
  intros Hne Hext. change (lit "." ++ ext) with (chr "." :: ext). split.
  - unfold extensionOf. rewrite pop_split_after.
    rewrite split_no_sep.
    + destruct ext; [congruence|reflexivity].
    + rewrite forallb_forall in *. intros c Hc. specialize (Hext c Hc).
      unfold notSlashNotDot in Hext. now apply andb_true_iff in Hext.
  - unfold removeFirstMatch.
    rewrite (searchFrom_first _ extensionRegex (base ++ chr "." :: ext) 0
               (length base) (chr "." :: ext) tt).
    + rewrite Nat.add_0_l, firstn_app, Nat.sub_diag, firstn_all, firstn_O.
      rewrite skipn_all2 by (rewrite length_app; lia).
      now rewrite !app_nil_r.
    + intros k Hk. rewrite skipn_app.
      replace (k - length base) with 0 by lia. rewrite skipn_O.
      destruct (skipn k base) as [|d b] eqn:E.
      * assert (L : length (skipn k base) = 0) by (now rewrite E).
        rewrite length_skipn in L. lia.
      * apply extensionRegex_before_last_dot.
    + rewrite skipn_app, Nat.sub_diag, skipn_all, skipn_O.
      now apply extensionRegex_at_last_dot.
Qed.

(** X8.  A name with an extension (the text after its last dot, without "/")
    that is not a generic name keeps both parts: the generated name is the
    part before the last dot, a space, the timestamp, a dot and the
    extension. *)
Theorem generateUniqueFileName_keeps_parts
  (toLowerCase : jsstring -> jsstring) (now : DateTime)
  (base ext : jsstring) :
  ext <> [] -> forallb notSlashNotDot ext = true ->
  includes (toLowerCase (base ++ lit "." ++ ext)) (lit "image") = false ->
  generateUniqueFileName toLowerCase now (base ++ lit "." ++ ext)
  = base ++ lit " " ++ timestampOf now ++ lit "." ++ ext.
Proof.
  intros Hne Hext Hgeneric. unfold generateUniqueFileName.
  destruct (extension_parts base ext Hne Hext) as (E1 & E2).
  rewrite E1, E2, Hgeneric.
  destruct (str_eqb (base ++ lit "." ++ ext) (lit "blob")) eqn:Eb;
    [|reflexivity].
  exfalso. apply str_eqb_eq in Eb.
  assert (Hin : In (chr ".") (lit "blob")).
  { rewrite <- Eb. apply in_or_app. right. now left. }
  vm_compute in Hin. repeat (destruct Hin as [Hin|Hin]; [discriminate|]).
  exact Hin.
Qed.

Lemma generateUniqueFileName_keeps_parts_witness :
  generateUniqueFileName asciiToLowerCase sampleDate
    (lit "holiday.2023" ++ lit "." ++ lit "JPG")
  = lit "holiday.2023" ++ lit " " ++ timestampOf sampleDate ++ lit "." ++
    lit "JPG".
Proof.
  apply (generateUniqueFileName_keeps_parts asciiToLowerCase sampleDate
           (lit "holiday.2023") (lit "JPG"));
    [discriminate|reflexivity|reflexivity].
Defined.

(** ** The hexadecimal form of a digest *)

Definition isHexDigit (c : char) : bool :=
  isDigit c || ((97 <=? c)%N && (c <=? 102)%N).

Definition hexValue (c : char) : N :=
  if isDigit c then (c - 48)%N else (c - 87)%N.

(** Reading the two-digit groups of a hexadecimal text back. *)
Fixpoint unhex (s : jsstring) : list N :=
  match s with
  | c1 :: c2 :: s' => (16 * hexValue c1 + hexValue c2)%N :: unhex s'
  | _ => []
  end.

Lemma hexByte_digits b :
  exists c1 c2, hexByte b = [c1; c2] /\
    isHexDigit c1 = true /\ isHexDigit c2 = true /\
    (16 * hexValue c1 + hexValue c2)%N = Byte.to_N b.
Proof.
  destruct b; do 2 eexists; (split; [reflexivity|]); repeat split.
Qed.

Lemma unhex_hex bs : unhex (hex bs) = map Byte.to_N bs.
Proof.
  induction bs as [|b bs IH]; [reflexivity|].
  unfold hex in *. cbn [flat_map map].
  destruct (hexByte_digits b) as (c1 & c2 & -> & _ & _ & V).
  cbn [app unhex]. now rewrite V, IH.
Qed.

(** X9.  [sha256] and [hmacSha256] return two lower-case hexadecimal digits for
    every byte of the digest, and the text determines the bytes: reading
    the digits back two by two gives the bytes again. *)
Theorem hex_faithful (bs : bytes) :
  length (hex bs) = 2 * length bs /\
  forallb isHexDigit (hex bs) = true /\
  unhex (hex bs) = map Byte.to_N bs.
Proof.
  split; [|split; [|apply unhex_hex]].
  - induction bs as [|b l IH]; [reflexivity|].
    unfold hex in *. simpl. rewrite length_app, IH.
    destruct (hexByte_digits b) as (c1 & c2 & -> & _). simpl. lia.
  - induction bs as [|b l IH]; [reflexivity|].
    unfold hex in *. simpl. rewrite forallb_app, IH.
    destruct (hexByte_digits b) as (c1 & c2 & -> & H1 & H2 & _).
    simpl. now rewrite H1, H2.
Qed.

(** ** The dates of a signed request *)

Lemma digit_not c d : isDigit c = true -> isDigit d = false -> char_eqb c d = false.
Proof.
  intros Hc Hd. apply char_eqb_neq. congruence.
Qed.

Lemma removeSeparators_digit c s :
  isDigit c = true -> removeSeparators (c :: s) = c :: removeSeparators s.
Proof.
  intros H. cbn [removeSeparators].
  rewrite (digit_not c (chr ":") H eq_refl), (digit_not c (chr "-") H eq_refl),
    (digit_not c (chr ".") H eq_refl).
  reflexivity.
Qed.

Lemma removeSeparators_digits ds s :
  forallb isDigit ds = true ->
  removeSeparators (ds ++ s) = ds ++ removeSeparators s.
Proof.
  induction ds as [|c ds IH]; intros H; [reflexivity|].
  simpl in H. apply andb_true_iff in H as [Hc Hds].
  cbn [app]. rewrite (removeSeparators_digit _ _ Hc). now rewrite IH.
Qed.

Lemma removeDashes_digits ds :
  forallb isDigit ds = true -> removeDashes ds = ds.
Proof.
  induction ds as [|c ds IH]; intros H; [reflexivity|].
  simpl in H. apply andb_true_iff in H as [Hc Hds].
  unfold removeDashes in *. cbn [filter]. unfold notChar at 1.
  rewrite (digit_not c (chr "-") Hc eq_refl). cbn [negb]. now rewrite IH.
Qed.

Lemma removeDashes_app a b :
  removeDashes (a ++ b) = removeDashes a ++ removeDashes b.
Proof. apply filter_app. Qed.

(** The text of [toISOString] for a year on four digits. *)
Definition isoString (year month day hours minutes seconds millis : jsstring)
  : jsstring :=
  year ++ lit "-" ++ month ++ lit "-" ++ day ++ lit "T" ++
  hours ++ lit ":" ++ minutes ++ lit ":" ++ seconds ++ lit "." ++
  millis ++ lit "Z".

Definition digitsOfWidth (n : nat) (s : jsstring) : Prop :=
  length s = n /\ forallb isDigit s = true.

(** X10.  From the ISO text YYYY-MM-DDTHH:mm:ss.sssZ the signer takes the date
    stamp YYYYMMDD and the time stamp YYYYMMDDTHHmmssZ, without the
    milliseconds; the date stamp of the credential scope is the first eight
    characters of the time stamp. *)
Theorem signer_dates (year month day hours minutes seconds millis : jsstring) :
  digitsOfWidth 4 year -> digitsOfWidth 2 month -> digitsOfWidth 2 day ->
  digitsOfWidth 2 hours -> digitsOfWidth 2 minutes ->
  digitsOfWidth 2 seconds -> digitsOfWidth 3 millis ->
  let iso := isoString year month day hours minutes seconds millis in
  dateStampOf iso = year ++ month ++ day /\
  amzDateOf iso =
    year ++ month ++ day ++ lit "T" ++ hours ++ minutes ++ seconds ++ lit "Z" /\
  firstn 8 (amzDateOf iso) = dateStampOf iso.
Proof.
  intros (Ly & Dy) (Lmo & Dmo) (Ld & Dd) (Lh & Dh) (Lmi & Dmi) (Ls & Ds)
    (Lms & Dms) iso.
  assert (E1 : dateStampOf iso = year ++ month ++ day).
  { unfold dateStampOf, iso, isoString.
    replace (year ++ lit "-" ++ month ++ lit "-" ++ day ++ lit "T" ++
             hours ++ lit ":" ++ minutes ++ lit ":" ++ seconds ++ lit "." ++
             millis ++ lit "Z")
      with ((year ++ lit "-" ++ month ++ lit "-" ++ day) ++ lit "T" ++
            hours ++ lit ":" ++ minutes ++ lit ":" ++ seconds ++ lit "." ++
            millis ++ lit "Z")
      by (now rewrite <- !app_assoc).
    assert (L10 : length (year ++ lit "-" ++ month ++ lit "-" ++ day) = 10)
      by (rewrite !length_app, Ly, Lmo, Ld; reflexivity).
    rewrite firstn_app, L10. cbn [Nat.sub].
    rewrite firstn_O, app_nil_r, firstn_all2 by lia.
    rewrite !removeDashes_app.
    rewrite (removeDashes_digits year Dy), (removeDashes_digits month Dmo),
      (removeDashes_digits day Dd).
    reflexivity. }
  assert (E2 : amzDateOf iso =
               year ++ month ++ day ++ lit "T" ++ hours ++ minutes ++
               seconds ++ lit "Z").
  { unfold amzDateOf, iso, isoString.
    rewrite (removeSeparators_digits year) by assumption.
    cbn [lit list_ascii_of_string map app]. cbn [removeSeparators].
    change (char_eqb (N_of_ascii "-") (chr ":") || char_eqb (N_of_ascii "-") (chr "-"))
      with true. cbv iota.
    rewrite (removeSeparators_digits month) by assumption.
    cbn [app removeSeparators].
    change (char_eqb (N_of_ascii "-") (chr ":") || char_eqb (N_of_ascii "-") (chr "-"))
      with true. cbv iota.
    rewrite (removeSeparators_digits day) by assumption.
    cbn [app removeSeparators].
    change (char_eqb (N_of_ascii "T") (chr ":") || char_eqb (N_of_ascii "T") (chr "-"))
      with false. cbv iota.
    change (char_eqb (N_of_ascii "T") (chr ".")) with false. cbv iota.
    rewrite (removeSeparators_digits hours) by assumption.
    cbn [app removeSeparators].
    change (char_eqb (N_of_ascii ":") (chr ":") || char_eqb (N_of_ascii ":") (chr "-"))
      with true. cbv iota.
    rewrite (removeSeparators_digits minutes) by assumption.
    cbn [app removeSeparators].
    change (char_eqb (N_of_ascii ":") (chr ":") || char_eqb (N_of_ascii ":") (chr "-"))
      with true. cbv iota.
    rewrite (removeSeparators_digits seconds) by assumption.
    destruct millis as [|m1 [|m2 [|m3 [|m4 ms]]]]; try discriminate.
    simpl in Dms. rewrite !andb_true_iff in Dms.
    destruct Dms as (M1 & M2 & M3 & _).
    cbn [app removeSeparators].
    change (char_eqb (N_of_ascii ".") (chr ":") || char_eqb (N_of_ascii ".") (chr "-"))
      with false. cbv iota.
    change (char_eqb (N_of_ascii ".") (chr ".")) with true. cbv iota.
    rewrite M1, M2, M3. cbn [andb].
    cbn [removeSeparators].
    change (char_eqb (N_of_ascii "Z") (chr ":") || char_eqb (N_of_ascii "Z") (chr "-"))
      with false. cbv iota.
    change (char_eqb (N_of_ascii "Z") (chr ".")) with false. cbv iota.
    reflexivity. }
  split; [exact E1|]. split; [exact E2|].
  rewrite E1, E2.
  replace (year ++ month ++ day ++ lit "T" ++ hours ++ minutes ++ seconds ++
           lit "Z")
    with ((year ++ month ++ day) ++ lit "T" ++ hours ++ minutes ++ seconds ++
          lit "Z") by (now rewrite <- !app_assoc).
  assert (L8 : length (year ++ month ++ day) = 8)
    by (rewrite !length_app, Ly, Lmo, Ld; reflexivity).
  rewrite firstn_app, L8. cbn [Nat.sub].
  rewrite firstn_O, app_nil_r.
  apply firstn_all2. lia.
Qed.

Lemma signer_dates_witness :
  dateStampOf (lit "2024-01-02T03:04:05.006Z") = lit "20240102" /\
  amzDateOf (lit "2024-01-02T03:04:05.006Z") = lit "20240102T030405Z" /\
  firstn 8 (amzDateOf (lit "2024-01-02T03:04:05.006Z"))
  = dateStampOf (lit "2024-01-02T03:04:05.006Z").
Proof.
  apply (signer_dates (lit "2024") (lit "01") (lit "02") (lit "03")
           (lit "04") (lit "05") (lit "006")); split; reflexivity.
Defined.

(** ** The storage key *)

(** [path.replace(/^\/+/, '')] *)
Definition removeLeadingSlashes (path : jsstring) : jsstring :=
  dropWhile (fun c => char_eqb c (chr "/")) path.

(** X11.  The key that the uploaders use is the generated name without its
    leading slashes: it never starts with "/" and nothing else is taken
    away. *)
Theorem removeLeadingSlashes_key (path : jsstring) :
  startsWith (removeLeadingSlashes path) (lit "/") = false /\
  exists k, path = repeat (chr "/") k ++ removeLeadingSlashes path.
Proof.
  unfold removeLeadingSlashes. induction path as [|c p (IH1 & k & IH2)].
  - split; [reflexivity|]. now exists 0.
  - cbn [dropWhile]. destruct (char_eqb c (chr "/")) eqn:E.
    + split; [exact IH1|]. exists (S k). apply char_eqb_eq in E. subst c.
      simpl. now f_equal.
    + split.
      * unfold startsWith. cbn [lit list_ascii_of_string map stripPrefix].
        fold (chr "/"). unfold char_eqb in *. rewrite N.eqb_sym, E.
        reflexivity.
      * now exists 0.
Qed.

(** ** The fetch based uploader: upload *)

Record FetchRequest := {
  fr_url : jsstring;
  fr_method : jsstring;
  fr_body : bytes;
  fr_headers : list (jsstring * jsstring)
}.

Record Response := {
  resp_ok : bool;
  resp_status : N;
  resp_statusText : jsstring
}.

Section FetchUploader.

Variable sha256Digest : bytes -> bytes.
Variable hmacSign : bytes -> bytes -> bytes.
Variable encode : jsstring -> bytes.
Variable toLowerCase : jsstring -> jsstring.
Variable randomIndex : nat -> nat.
(** The message of the [TypeError] that [importKey] rejects with. *)
Variable typeErrorMessage : jsstring.
(** [FileReader.readAsArrayBuffer] *)
Variable readFileAsArrayBuffer : File -> Result bytes.
(** [fetch], answering after the requests made so far. *)
Variable fetch : list FetchRequest -> FetchRequest -> Result Response.

Variable this : R2Setting.

(** [error.message] *)
Definition messageOf (e : JsError) : jsstring :=
  match e with
  | TypeError => typeErrorMessage
  | Error message => message
  end.

(** The [try] block of [upload]; [date] and [now] are the dates
    [generateName] takes, [iso] the one [createSignedRequest] takes. *)
Definition uploadAttempt (requests : list FetchRequest)
  (date now : DateTime) (iso : jsstring) (image : File)
  : list FetchRequest * Result jsstring :=
  match readFileAsArrayBuffer image with
  | Throw e => (requests, Throw e)
  | Ok arrayBuffer =>
      let path_ :=
        generateName toLowerCase randomIndex date now (Some (path this))
          (file_name image) in
      let cleanPath := removeLeadingSlashes path_ in
      match createSignedRequest sha256Digest hmacSign encode this iso
              (lit "PUT") cleanPath (file_type image) arrayBuffer with
      | Throw e => (requests, Throw e)
      | Ok signedHeaders_ =>
          let url :=
            endpoint this ++ lit "/" ++ bucketName this ++ lit "/" ++
            cleanPath in
          let request :=
            {| fr_url := url; fr_method := lit "PUT";
               fr_body := arrayBuffer; fr_headers := signedHeaders_ |} in
          match fetch requests request with
          | Throw e => (requests ++ [request], Throw e)
          | Ok response =>
              if negb (resp_ok response)
              then (requests ++ [request],
                    Throw (Error (lit "Upload failed: " ++
                                  toString (resp_status response) ++
                                  lit " " ++ resp_statusText response)))
              else
                let publicUrl :=
                  endpoint this ++ lit "/" ++ bucketName this ++ lit "/" ++
                  cleanPath in
                (requests ++ [request],
                 Ok (customizeDomainName publicUrl (customDomainName this)))
          end
      end
  end.

(** [upload(image)]: whatever the [try] block throws is thrown again as an
    [Error] that names the upload. *)
Definition fetchUpload (requests : list FetchRequest)
  (date now : DateTime) (iso : jsstring) (image : File)
  : list FetchRequest * Result jsstring :=
  match uploadAttempt requests date now iso image with
  | (requests', Throw e) =>
      (requests', Throw (Error (lit "R2 upload failed: " ++ messageOf e)))
  | done => done
  end.

Lemma createSignedRequest_TypeError iso method key contentType body :
  createSignedRequest sha256Digest hmacSign encode this iso method key
    contentType body = Throw TypeError.
Proof.
  unfold createSignedRequest. now rewrite getSignatureKey_TypeError.
Qed.

(** X12.  The fetch based uploader never sends a request and never resolves:
    every call rejects with an "R2 upload failed: ..." error, either for the
    file that cannot be read or for the signature that cannot be computed,
    and the requests made are the ones made before the call. *)
Theorem fetchUpload_always_rejects (requests : list FetchRequest)
  (date now : DateTime) (iso : jsstring) (image : File) :
  exists message,
    fetchUpload requests date now iso image =
    (requests, Throw (Error (lit "R2 upload failed: " ++ message))) /\
    (message = typeErrorMessage \/
     exists e, readFileAsArrayBuffer image = Throw e /\ message = messageOf e).
Proof.
  unfold fetchUpload, uploadAttempt.
  destruct (readFileAsArrayBuffer image) as [arrayBuffer|e] eqn:R.
  - rewrite createSignedRequest_TypeError.
    exists typeErrorMessage. split; [reflexivity|now left].
  - exists (messageOf e). split; [reflexivity|]. right. now exists e.
Qed.

End FetchUploader.

(** ** The SDK based uploader (src/uploader/r2Uploader.ts) *)

(** [s.split(sep)] for a separator that is not empty: [cur] is the piece
    being read, [skip] the number of characters of the separator just found
    that are still to pass. *)
Fixpoint splitGo (sep s cur : jsstring) (skip : nat) : list jsstring :=
  match skip with
  | S k =>
      match s with
      | [] => [cur]
      | _ :: s' => splitGo sep s' cur k
      end
  | O =>
      match s with
      | [] => [cur]
      | c :: s' =>
          match stripPrefix sep s with
          | Some _ => cur :: splitGo sep s' [] (length sep - 1)
          | None => splitGo sep s' (cur ++ [c]) 0
          end
      end
  end.

(** [s.split(sep)] for a string separator; the empty separator splits
    between all characters. *)
Definition splitOn (sep s : jsstring) : list jsstring :=
  match sep with
  | [] => map (fun c => [c]) s
  | _ :: _ => splitGo sep s [] 0
  end.

(** What the SDK is asked to store. *)
Record PutParams := {
  Bucket : jsstring;
  Key : jsstring;
  Body : bytes;
  ContentType : jsstring
}.

Section SdkUploader.

Variable toLowerCase : jsstring -> jsstring.
Variable randomIndex : nat -> nat.
Variable readFileAsArrayBuffer : File -> Result bytes.
(** [this.r2.upload(params, callback)]: the callback gets an error, or the
    [Location] of the stored object. *)
Variable s3Upload : PutParams -> Result jsstring.

Variable bucket : jsstring.
Variable pathTemplate : jsstring.
Variable customDomain : jsstring.

Definition paramsOf (date now : DateTime) (image : File) (body : bytes)
  : PutParams :=
  let path_ :=
    generateName toLowerCase randomIndex date now (Some pathTemplate)
      (file_name image) in
  {| Bucket := bucket;
     Key := removeLeadingSlashes path_;
     Body := body;
     ContentType :=
       lit "image/" ++
       match pop (split (chr ".") (file_name image)) with
       | Some extension => extension
       | None => lit "undefined"
       end |}.

(** What the callback resolves the promise to. *)
Definition urlOfLocation (location : jsstring) : jsstring :=
  let dst := pop (splitOn (lit "/" ++ bucket ++ lit "/") location) in
  customizeDomainName (match dst with Some d => d | None => [] end)
    customDomain.

(** [upload(image, fullPath)] *)
Definition sdkUpload (date now : DateTime) (image : File) : Result jsstring :=
  arrayBuffer <- readFileAsArrayBuffer image ;;
  location <- s3Upload (paramsOf date now image arrayBuffer) ;;
  Ok (urlOfLocation location).

End SdkUploader.

Lemma splitGo_skip sep q s cur :
  splitGo sep (q ++ s) cur (length q) = splitGo sep s cur 0.
Proof.
  induction q as [|c q IH]; [reflexivity|]. simpl. exact IH.
Qed.

Lemma splitGo_absent sep s cur :
  (forall k, stripPrefix sep (skipn k s) = None) ->
  splitGo sep s cur 0 = [cur ++ s].
Proof.
  revert cur; induction s as [|c s IH]; intros cur H.
  - simpl. now rewrite app_nil_r.
  - cbn [splitGo]. rewrite (H 0 : stripPrefix sep (c :: s) = None).
    rewrite IH.
    + now rewrite <- app_assoc.
    + intros k. exact (H (S k)).
Qed.

Lemma splitGo_match sep c s cur r :
  stripPrefix sep (c :: s) = Some r ->
  splitGo sep (c :: s) cur 0 = cur :: splitGo sep s [] (length sep - 1).
Proof. intros H. cbn [splitGo]. now rewrite H. Qed.

Lemma splitGo_no_match sep c s cur :
  stripPrefix sep (c :: s) = None ->
  splitGo sep (c :: s) cur 0 = splitGo sep s (cur ++ [c]) 0.
Proof. intros H. cbn [splitGo]. now rewrite H. Qed.

(** The last piece of a split is what follows the separator, when the
    separator is first found there and does not occur after it. *)
Lemma pop_splitOn sep before after :
  sep <> [] ->
  (forall k, k < length before ->
     stripPrefix sep (skipn k (before ++ sep ++ after)) = None) ->
  (forall k, stripPrefix sep (skipn k after) = None) ->
  pop (splitOn sep (before ++ sep ++ after)) = Some after.
Proof.
  intros Hsep Hb Ha.
  assert (G : forall cur,
            pop (splitGo sep (before ++ sep ++ after) cur 0) = Some after).
  { induction before as [|d b IH]; intros cur.
    - destruct sep as [|c q]; [congruence|].
      cbn [app].
      rewrite (splitGo_match (c :: q) c (q ++ after) cur after)
        by (apply (stripPrefix_app (c :: q) after)).
      cbn [length Nat.sub]. rewrite Nat.sub_0_r.
      rewrite splitGo_skip, (splitGo_absent _ _ _ Ha). reflexivity.
    - cbn [app].
      rewrite splitGo_no_match by (exact (Hb 0 (Nat.lt_0_succ _))).
      apply IH. intros k Hk. apply (Hb (S k)). simpl. lia. }
  unfold splitOn. destruct sep as [|c q]; [congruence|]. apply G.
Qed.

Lemma customizeDomainName_relative url customDomainName :
  isBlank (replaceAll customDomainName (lit "https://") []) = false ->
  (forall k scheme host rest, ~ SchemeHostAt (skipn k url) scheme host rest) ->
  customizeDomainName url customDomainName =
  lit "https://" ++ replaceAll customDomainName (lit "https://") [] ++
  lit "/" ++ url.
Proof.
  intros Hb Hnone. rewrite (customizeDomainName_used _ _ Hb). cbv zeta.
  destruct (searchFrom schemeHostRegex url 0) as [[[i w] h]|] eqn:E;
    [|reflexivity].
  exfalso.
  destruct (searchFrom_found _ _ _ _ _ _ _ E) as [k Hk].
  apply schemeHostRegex_spec in Hk as (scheme & rest & Hat & _).
  exact (Hnone k scheme h rest Hat).
Qed.

(** X13.  The url that ends up in the note.  When the store answers with the
    path-style location [.../{bucket}/{key}] (the separator "/{bucket}/"
    first found there, and not in the key), the upload resolves to
    [customizeDomainName(key, customDomain)]: to the bare key when no custom
    domain is set, and to "https://" + custom domain + "/" + key when one
    is set and the key holds no scheme and host of its own. *)
Theorem sdkUpload_public_url
  (toLowerCase : jsstring -> jsstring) (randomIndex : nat -> nat)
  (readFileAsArrayBuffer : File -> Result bytes)
  (s3Upload : PutParams -> Result jsstring)
  (bucket pathTemplate customDomain : jsstring)
  (date now : DateTime) (image : File) (body : bytes)
  (base key : jsstring) :
  let sep := lit "/" ++ bucket ++ lit "/" in
  let custom := replaceAll customDomain (lit "https://") [] in
  readFileAsArrayBuffer image = Ok body ->
  s3Upload (paramsOf toLowerCase randomIndex bucket pathTemplate date now
              image body)
  = Ok (base ++ sep ++ key) ->
  (forall k, k < length base ->
     stripPrefix sep (skipn k (base ++ sep ++ key)) = None) ->
  (forall k, stripPrefix sep (skipn k key) = None) ->
  let result :=
    sdkUpload toLowerCase randomIndex readFileAsArrayBuffer s3Upload bucket
      pathTemplate customDomain date now image in
  result = Ok (customizeDomainName key customDomain) /\
  (isBlank custom = true -> result = Ok key) /\
  (isBlank custom = false ->
   (forall k scheme host rest, ~ SchemeHostAt (skipn k key) scheme host rest) ->
   result = Ok (lit "https://" ++ custom ++ lit "/" ++ key)).
Proof.
  intros sep custom Hread Hput Hbefore Hkey result.
  assert (E : result = Ok (customizeDomainName key customDomain)).
  { unfold result, sdkUpload. rewrite Hread. cbn [bind]. rewrite Hput.
    cbn [bind]. unfold urlOfLocation. fold sep.
    rewrite pop_splitOn; auto.
    unfold sep. destruct bucket; discriminate. }
  split; [exact E|]. split.
  - intros Hb. rewrite E. now rewrite customizeDomainName_blank.
  - intros Hb Hnone. rewrite E.
    now rewrite customizeDomainName_relative.
Qed.

Lemma no_occurrence_check sep s :
  sep <> [] ->
  forallb (fun k => match stripPrefix sep (skipn k s) with
                    | None => true
                    | Some _ => false
                    end) (seq 0 (length s)) = true ->
  forall k, stripPrefix sep (skipn k s) = None.
Proof.
  intros Hsep H k. destruct (Nat.lt_ge_cases k (length s)) as [L|L].
  - rewrite forallb_forall in H. specialize (H k).
    destruct (stripPrefix sep (skipn k s)); [|reflexivity].
    assert (false = true) by (apply H, in_seq; lia). discriminate.
  - rewrite skipn_all2 by lia. destruct sep; [congruence|reflexivity].
Qed.

Lemma no_occurrence_before sep s n :
  forallb (fun k => match stripPrefix sep (skipn k s) with
                    | None => true
                    | Some _ => false
                    end) (seq 0 n) = true ->
  forall k, k < n -> stripPrefix sep (skipn k s) = None.
Proof.
  intros H k Hk. rewrite forallb_forall in H. specialize (H k).
  destruct (stripPrefix sep (skipn k s)); [|reflexivity].
  assert (false = true) by (apply H, in_seq; lia). discriminate.
Qed.

Lemma schemeHostRegex_nonempty s w g :
  schemeHostRegex s = Some (w, g) -> w <> [].
Proof.
  intros H. apply schemeHostRegex_spec in H as (scheme & rest & (Hs & _) & ->).
  destruct Hs as [->| ->]; discriminate.
Qed.

Lemma schemeHostRegex_prefix s w g :
  schemeHostRegex s = Some (w, g) -> exists r, s = w ++ r.
Proof.
  intros H.
  apply schemeHostRegex_spec in H
    as (scheme & rest & (_ & _ & _ & _ & ->) & ->).
  exists rest. now rewrite <- !app_assoc.
Qed.

Lemma no_scheme_host_check url :
  searchFrom schemeHostRegex url 0 = None ->
  forall k scheme host rest, ~ SchemeHostAt (skipn k url) scheme host rest.
Proof.
  intros H k scheme host rest Hat.
  pose proof (searchFrom_None _ schemeHostRegex schemeHostRegex_nonempty
                schemeHostRegex_prefix url 0 H k) as Hn.
  assert (Hm : schemeHostRegex (skipn k url)
               = Some (scheme ++ lit "://" ++ host, host))
    by (apply schemeHostRegex_spec; now exists scheme, rest).
  congruence.
Qed.

Lemma sdkUpload_public_url_witness :
  sdkUpload asciiToLowerCase (fun i => i) (fun _ => Ok aPngBytes)
    (fun _ => Ok (lit "https://acct.r2.cloudflarestorage.com/media/2024/pic.png"))
    (lit "media") (lit "/{year}/{filename}") (lit "cdn.example.com")
    sampleDate sampleDate
    {| file_name := lit "pic.png"; file_type := lit "image/png";
       file_bytes := aPngBytes |}
  = Ok (lit "https://cdn.example.com/2024/pic.png").
Proof.
  refine (proj2 (proj2
    (sdkUpload_public_url asciiToLowerCase (fun i => i)
       (fun _ => Ok aPngBytes)
       (fun _ => Ok (lit "https://acct.r2.cloudflarestorage.com/media/2024/pic.png"))
       (lit "media") (lit "/{year}/{filename}") (lit "cdn.example.com")
       sampleDate sampleDate
       {| file_name := lit "pic.png"; file_type := lit "image/png";
          file_bytes := aPngBytes |}
       aPngBytes
       (lit "https://acct.r2.cloudflarestorage.com") (lit "2024/pic.png")
       eq_refl eq_refl _ _)) eq_refl _).
  - apply no_occurrence_before. vm_compute. reflexivity.
  - apply no_occurrence_check; [discriminate|]. vm_compute. reflexivity.
  - apply no_scheme_host_check. vm_compute. reflexivity.
Defined.

(** ** The publish orchestrator: what a run never does *)







(** *** Uploads and references *)

Lemma uploadImage_uploads host io file :
  let r := uploadImage host io file in
  (fst r = io /\ snd r = None) \/
  (fst r = io ++ [Upload file]).
Proof.
  unfold uploadImage. destruct (Host.r2Uploader host) as [up|]; [|now left].
  destruct (up io file); right; reflexivity.
Qed.

(** What a turn of a loop does to the uploads and to the count of
    successes: at most one upload more, and a success only with it. *)
Definition OneTurn (st st' : LoopState) : Prop :=
  exists more,
    uploadsOf (io st') = uploadsOf (io st) ++ more /\
    length more <= 1 /\
    successCount st <= successCount st' /\
    successCount st' <= successCount st + length more.

Lemma recordUpload_turn st io' tag url more :
  uploadsOf io' = uploadsOf (io st) ++ more -> length more <= 1 ->
  (more = [] -> url = None) ->
  OneTurn st (recordUpload st io' tag url).
Proof.
  intros Hu Hl Hn. exists more. split.
  - destruct url as [[|c u]|]; exact Hu.
  - split; [exact Hl|].
    destruct url as [[|c u]|]; simpl; try lia.
    destruct more; [specialize (Hn eq_refl); discriminate|simpl; lia].
Qed.

Lemma countError_turn st io' :
  uploadsOf io' = uploadsOf (io st) -> OneTurn st (countError st io').
Proof.
  intros H. exists []. rewrite app_nil_r. simpl.
  split; [exact H|]. split; [lia|]. split; lia.
Qed.

Lemma uploadImage_turn host st io1 tag file :
  uploadsOf io1 = uploadsOf (io st) ->
  OneTurn st (let (io2, url) := uploadImage host io1 file in
              recordUpload st io2 tag url).
Proof.
  intros H1.
  destruct (uploadImage_uploads host io1 file) as [(E1 & E2)|E1];
    destruct (uploadImage host io1 file) as [io2 url]; simpl in *; subst.
  - apply (recordUpload_turn _ _ _ _ []); simpl; auto.
    now rewrite app_nil_r.
  - apply (recordUpload_turn _ _ _ _ [file]); simpl; auto.
    + now rewrite uploadsOf_app, H1.
    + discriminate.
Qed.

Lemma localIteration_turn host fileContext st tag :
  OneTurn st (localIteration host fileContext st tag).
Proof.
  unfold localIteration.
  destruct (findLocalFile host fileContext tag) as [[f|]|e];
    try (apply countError_turn; reflexivity).
  destruct (Host.readBinary host (io st) f) as [b|e].
  - apply uploadImage_turn. rewrite uploadsOf_app. simpl.
    now rewrite app_nil_r.
  - apply countError_turn. rewrite uploadsOf_app. simpl.
    now rewrite app_nil_r.
Qed.

Lemma externalIteration_turn host st tag :
  OneTurn st (externalIteration host st tag).
Proof.
  unfold externalIteration.
  assert (H1 : uploadsOf (io st ++ [Download (imagePath tag)])
               = uploadsOf (io st))
    by (rewrite uploadsOf_app; simpl; now rewrite app_nil_r).
  destruct (Host.downloadExternalImage host (io st) (imagePath tag))
    as [[f|]|e]; try (apply countError_turn; exact H1).
  apply uploadImage_turn. exact H1.
Qed.

Lemma fold_turns (step : LoopState -> ImageTag -> LoopState) :
  (forall st tag, OneTurn st (step st tag)) ->
  forall tags st,
    exists more,
      uploadsOf (io (fold_left step tags st)) = uploadsOf (io st) ++ more /\
      length more <= length tags /\
      successCount st <= successCount (fold_left step tags st) /\
      successCount (fold_left step tags st) <= successCount st + length more.
Proof.
  intros Hstep. induction tags as [|tag tags IH]; intros st; simpl.
  - exists []. rewrite app_nil_r. simpl. repeat split; lia.
  - destruct (Hstep st tag) as (m1 & U1 & L1 & S1 & S1').
    destruct (IH (step st tag)) as (m2 & U2 & L2 & S2 & S2').
    exists (m1 ++ m2). rewrite U2, U1, <- app_assoc, length_app.
    repeat split; lia.
Qed.

(** X15.  A run uploads at most once per reference that it processes, keeps the
    uploads made before it, and counts no success without an upload. *)
Theorem uploadLocalImagesInContent_uploads
  (host : Host.t) (fileContext : TFile) (io0 : Trace) (content : jsstring) :
  let result := uploadLocalImagesInContent host fileContext io0 content in
  exists more,
    uploadsOf (fst result) = uploadsOf io0 ++ more /\
    length more <=
      length (localTagsOf content) + length (externalTagsOf host content) /\
    snd (fst (snd result)) <= length more.
Proof.
  cbv zeta. unfold uploadLocalImagesInContent.
  assert (Hnone : exists more : list File,
            uploadsOf io0 = uploadsOf io0 ++ more /\
            length more <= length (localTagsOf content)
                           + length (externalTagsOf host content) /\
            0 <= length more).
  { exists []. rewrite app_nil_r. simpl. repeat split; lia. }
  destruct (extractImageTags content) as [|t ts] eqn:Etags; [exact Hnone|].
  destruct ((length (localTagsOf content) =? 0)
            && (length (externalTagsOf host content) =? 0));
    [exact Hnone|].
  cbn [fst snd].
  set (st0 := {| io := io0; successCount := 0; errorCount := 0;
                 replacements := [] |}).
  destruct (fold_turns (localIteration host fileContext)
              (localIteration_turn host fileContext)
              (localTagsOf content) st0) as (m1 & U1 & L1 & S1 & S1').
  destruct (fold_turns (externalIteration host)
              (externalIteration_turn host)
              (externalTagsOf host content)
              (fold_left (localIteration host fileContext)
                 (localTagsOf content) st0)) as (m2 & U2 & L2 & S2 & S2').
  exists (m1 ++ m2). rewrite U2, U1, <- app_assoc, length_app.
  simpl in *. repeat split; lia.
Qed.

Lemma unconfigured_run
  (host : Host.t) (fileContext : TFile) (io0 : Trace) (content : jsstring) :
  Host.r2Uploader host = None ->
  uploadsOf (fst (uploadLocalImagesInContent host fileContext io0 content))
  = uploadsOf io0 /\
  snd (uploadLocalImagesInContent host fileContext io0 content) =
    (content, 0,
     length (localTagsOf content) + length (externalTagsOf host content)).
Proof.
  intros Hnone.
  assert (Hup : forall io1 file, uploadImage host io1 file = (io1, None)).
  { intros io1 file. unfold uploadImage. now rewrite Hnone. }
  assert (HL : forall st tag, exists io',
            localIteration host fileContext st tag = countError st io' /\
            uploadsOf io' = uploadsOf (io st)).
  { intros st tag. unfold localIteration.
    destruct (findLocalFile host fileContext tag) as [[f|]|e]; eauto.
    assert (H1 : uploadsOf (io st ++ [ReadBinary f]) = uploadsOf (io st))
      by (rewrite uploadsOf_app; simpl; now rewrite app_nil_r).
    destruct (Host.readBinary host (io st) f) as [b|e]; eauto.
    rewrite Hup. eexists. split; [reflexivity|exact H1]. }
  assert (HE : forall st tag, exists io',
            externalIteration host st tag = countError st io' /\
            uploadsOf io' = uploadsOf (io st)).
  { intros st tag. unfold externalIteration.
    assert (H1 : uploadsOf (io st ++ [Download (imagePath tag)])
                 = uploadsOf (io st))
      by (rewrite uploadsOf_app; simpl; now rewrite app_nil_r).
    destruct (Host.downloadExternalImage host (io st) (imagePath tag))
      as [[f|]|e]; eauto.
    rewrite Hup. eexists. split; [reflexivity|exact H1]. }
  assert (Hfold : forall (step : LoopState -> ImageTag -> LoopState),
            (forall st tag, exists io',
               step st tag = countError st io' /\
               uploadsOf io' = uploadsOf (io st)) ->
            forall tags st,
              uploadsOf (io (fold_left step tags st)) = uploadsOf (io st) /\
              successCount (fold_left step tags st) = successCount st /\
              errorCount (fold_left step tags st)
              = errorCount st + length tags /\
              replacements (fold_left step tags st) = replacements st).
  { intros step Hstep. induction tags as [|tag tags IH]; intros st; simpl.
    - repeat split; lia.
    - destruct (Hstep st tag) as (io' & E & U).
      destruct (IH (step st tag)) as (I1 & I2 & I3 & I4).
      rewrite I1, I2, I3, I4, E. simpl. repeat split; auto; lia. }
  unfold uploadLocalImagesInContent.
  destruct (extractImageTags content) as [|t ts] eqn:Etags.
  - unfold localTagsOf, externalTagsOf. rewrite Etags.
    destruct (Host.downloadExternalImages host); auto.
  - destruct ((length (localTagsOf content) =? 0)
              && (length (externalTagsOf host content) =? 0)) eqn:Eempty.
    + apply andb_true_iff in Eempty as [El Ee].
      apply Nat.eqb_eq in El, Ee. rewrite El, Ee. auto.
    + cbn [fst snd].
      set (st0 := {| io := io0; successCount := 0; errorCount := 0;
                     replacements := [] |}).
      destruct (Hfold _ HL (localTagsOf content) st0) as (L1 & L2 & L3 & L4).
      destruct (Hfold _ HE (externalTagsOf host content)
                  (fold_left (localIteration host fileContext)
                     (localTagsOf content) st0)) as (E1 & E2 & E3 & E4).
      rewrite E1, E2, E3, E4, L1, L2, L3, L4. simpl. auto.
Qed.

(** X16.  With no uploader configured every reference is counted as an error:
    no upload is made, no reference succeeds, the text is unchanged, and
    [errorCount] is the number of references. *)
Theorem uploadLocalImagesInContent_unconfigured
  (host : Host.t) (fileContext : TFile) (io0 : Trace) (content : jsstring) :
  Host.r2Uploader host = None ->
  let result := uploadLocalImagesInContent host fileContext io0 content in
  uploadsOf (fst result) = uploadsOf io0 /\
  snd result =
    (content, 0,
     length (localTagsOf content) + length (externalTagsOf host content)).
Proof. intros Hnone. cbv zeta. now apply unconfigured_run. Qed.

(** The small vault before the uploader is configured. *)
Definition unconfiguredVault : Host.t :=
  {| Host.toLowerCase := asciiToLowerCase;
     Host.decodeURIComponent := plainDecode;
     Host.pathJoin := fun a b => a ++ lit "/" ++ b;
     Host.pathNormalize := fun p => p;
     Host.normalizePath := fun p => p;
     Host.attachmentFolderPath := lit "attachments";
     Host.activeFileParentPath := Some (lit "notes");
     Host.getAbstractFileByPath :=
       fun p => if str_eqb p (lit "attachments/a.png") then Some aPng else None;
     Host.getFirstLinkpathDest := fun _ _ => None;
     Host.getFiles := [aPng];
     Host.readBinary := fun _ _ => Ok aPngBytes;
     Host.r2Uploader := None;
     Host.downloadExternalImage :=
       fun _ _ => Throw (Error (lit "Network error"));
     Host.downloadExternalImages := true;
     Host.useImageNameAsAltText := false |}.

Lemma uploadLocalImagesInContent_unconfigured_witness :
  snd (uploadLocalImagesInContent unconfiguredVault note []
         (lit "![[a.png]] ![b](https://x.org/b.png)"))
  = (lit "![[a.png]] ![b](https://x.org/b.png)", 0, 2).
Proof.
  exact (proj2 (uploadLocalImagesInContent_unconfigured unconfiguredVault
                  note [] (lit "![[a.png]] ![b](https://x.org/b.png)")
                  eq_refl)).
Defined.

(** ** MIME types of video files *)

(** X17.  A vault file whose lower-cased extension is one of those the video
    pattern lists is uploaded with a [video/...] type. *)
Theorem mimeTypeFromExtension_video (host : Host.t) (extension : jsstring) :
  extension <> [] ->
  In (Host.toLowerCase host extension) videoExtensions ->
  exists mimeType,
    mimeTypeFromExtension host extension = Text mimeType /\
    startsWith mimeType (lit "video/") = true.
Proof.
  intros Hne Hin. unfold mimeTypeFromExtension.
  destruct extension as [|c e]; [congruence|].
  unfold videoExtensions in Hin.
  repeat (destruct Hin as [<-|Hin];
          [eexists; split; [vm_compute; reflexivity|reflexivity]|]).
  contradiction.
Qed.

Lemma mimeTypeFromExtension_video_witness :
  exists mimeType,
    mimeTypeFromExtension smallVault (lit "MOV") = Text mimeType /\
    startsWith mimeType (lit "video/") = true.
Proof.
  apply (mimeTypeFromExtension_video smallVault (lit "MOV"));
    [discriminate|].
  vm_compute. right. now left.
Defined.

(** ** Publishing several notes

    [publishSelectedFilesToR2], [publishCurrentFolderToR2] and
    [publishVaultToR2] read each note, run [uploadLocalImagesInContent] on
    its text and write the note back when a reference was uploaded. *)

(** The variables of the loops over notes, with the notes written back so
    far ([written], oldest first: the calls of [vault.modify] that
    resolved) and the awaited calls of the uploads. *)
Record BatchState := {
  trace : Trace;
  written : list (TFile * jsstring);
  totalSuccess : nat;
  totalError : nat
}.

Definition batchStart (io0 : Trace) : BatchState :=
  {| trace := io0; written := []; totalSuccess := 0; totalError := 0 |}.

Section Batch.

Variable host : Host.t.

(** [app.vault.read] and [app.vault.modify]; what they answer may depend on
    the notes written and the calls awaited so far. *)
Variable vaultRead : list (TFile * jsstring) -> Trace -> TFile -> Result jsstring.
Variable vaultModify :
  list (TFile * jsstring) -> Trace -> TFile -> jsstring -> Result unit.

(** [app.vault.getMarkdownFiles()], [app.workspace.getActiveFile()] and
    [f.parent?.path] ([None] when the file has no parent). *)
Variable getMarkdownFiles : list TFile.
Variable getActiveFile : option TFile.
Variable parentPath : TFile -> option jsstring.

(** The body of the three loops: the state after it, and the error when
    one of its awaited calls rejects. *)
Definition processFile (st : BatchState) (file : TFile)
  : BatchState * option JsError :=
  match vaultRead (written st) (trace st) file with
  | Throw e => (st, Some e)
  | Ok content =>
      let '(io', (updatedContent, successCount, errorCount)) :=
        uploadLocalImagesInContent host file (trace st) content in
      let modified :=
        if 0 <? successCount
        then match vaultModify (written st) io' file updatedContent with
             | Ok _ => Ok (written st ++ [(file, updatedContent)])
             | Throw e => Throw e
             end
        else Ok (written st) in
      match modified with
      | Throw e =>
          ({| trace := io'; written := written st;
              totalSuccess := totalSuccess st;
              totalError := totalError st |}, Some e)
      | Ok written' =>
          ({| trace := io'; written := written';
              totalSuccess := totalSuccess st + successCount;
              totalError := totalError st + errorCount |}, None)
      end
  end.

(** One turn of the loop of [publishSelectedFilesToR2]: the [try] block and
    its [catch]. *)
Definition selectedIteration (st : BatchState) (file : TFile) : BatchState :=
  match processFile st file with
  | (st', None) => st'
  | (st', Some _) =>
      {| trace := trace st'; written := written st';
         totalSuccess := totalSuccess st';
         totalError := S (totalError st') |}
  end.

(** [publishSelectedFilesToR2(files)] *)
Definition publishSelectedFilesToR2 (io0 : Trace) (files : list TFile)
  : BatchState :=
  match files with
  | [] => batchStart io0
  | _ :: _ => fold_left selectedIteration files (batchStart io0)
  end.

(** The loops of [publishCurrentFolderToR2] and [publishVaultToR2], which
    have no [try]: the first rejection ends the loop and rejects the
    call. *)
Fixpoint forEachFile (files : list TFile) (st : BatchState)
  : BatchState * option JsError :=
  match files with
  | [] => (st, None)
  | file :: files' =>
      match processFile st file with
      | (st', None) => forEachFile files' st'
      | (st', Some e) => (st', Some e)
      end
  end.

(** [publishVaultToR2()] *)
Definition publishVaultToR2 (io0 : Trace) : BatchState * option JsError :=
  match getMarkdownFiles with
  | [] => (batchStart io0, None)
  | _ :: _ => forEachFile getMarkdownFiles (batchStart io0)
  end.

(** [f.parent?.path === folder.path] *)
Definition inFolder (folderPath : jsstring) (f : TFile) : bool :=
  match parentPath f with
  | Some p => str_eqb p folderPath
  | None => false
  end.

(** [publishCurrentFolderToR2()] *)
Definition publishCurrentFolderToR2 (io0 : Trace)
  : BatchState * option JsError :=
  match getActiveFile with
  | None => (batchStart io0, None)
  | Some activeFile =>
      match parentPath activeFile with
      | None => (batchStart io0, None)
      | Some folderPath =>
          let targetFiles := filter (inFolder folderPath) getMarkdownFiles in
          match targetFiles with
          | [] => (batchStart io0, None)
          | _ :: _ => forEachFile targetFiles (batchStart io0)
          end
      end
  end.

(** What a loop over notes keeps true of its state: every note written is
    one of [files], was written with the text [uploadLocalImagesInContent]
    returned for what was read from it, and with a success counted. *)
Definition WrittenBy (files : list TFile) (w : TFile * jsstring) : Prop :=
  In (fst w) files /\
  exists written0 io0 content,
    vaultRead written0 io0 (fst w) = Ok content /\
    let result := uploadLocalImagesInContent host (fst w) io0 content in
    snd w = fst (fst (snd result)) /\ 0 < snd (fst (snd result)).

Definition BatchInv (files : list TFile) (st : BatchState) : Prop :=
  Forall (WrittenBy files) (written st) /\
  length (written st) <= totalSuccess st.

Lemma processFile_inv files st file :
  In file files -> BatchInv files st ->
  BatchInv files (fst (processFile st file)).
Proof.
  intros Hin (Hw & Hn). unfold processFile.
  destruct (vaultRead (written st) (trace st) file) as [content|e] eqn:Hread;
    [|split; assumption].
  destruct (uploadLocalImagesInContent host file (trace st) content)
    as [io' [[updatedContent successCount] errorCount]] eqn:Hrun.
  destruct (0 <? successCount) eqn:Hpos.
  - destruct (vaultModify (written st) io' file updatedContent) as [u|e];
      [|split; assumption].
    apply Nat.ltb_lt in Hpos. split; cbn [fst written totalSuccess].
    + apply Forall_app. split; [exact Hw|]. constructor; [|constructor].
      split; [exact Hin|]. cbn [fst snd].
      exists (written st), (trace st), content.
      split; [exact Hread|]. rewrite Hrun. cbn [fst snd]. split; auto.
    + rewrite length_app. simpl. lia.
  - split; cbn [fst written totalSuccess]; [exact Hw|lia].
Qed.

Lemma selectedIteration_inv files st file :
  In file files -> BatchInv files st ->
  BatchInv files (selectedIteration st file).
Proof.
  intros Hin Hinv. pose proof (processFile_inv files st file Hin Hinv) as H.
  unfold selectedIteration.
  destruct (processFile st file) as [st' [e|]]; exact H.
Qed.

Lemma fold_selected_inv files :
  forall some st,
    incl some files -> BatchInv files st ->
    BatchInv files (fold_left selectedIteration some st).
Proof.
  induction some as [|file some IH]; intros st Hincl Hinv; simpl; [exact Hinv|].
  apply IH.
  - intros f Hf. apply Hincl. now right.
  - apply selectedIteration_inv; [apply Hincl; now left|exact Hinv].
Qed.

Lemma forEachFile_inv files :
  forall some st,
    incl some files -> BatchInv files st ->
    BatchInv files (fst (forEachFile some st)).
Proof.
  induction some as [|file some IH]; intros st Hincl Hinv; simpl; [exact Hinv|].
  pose proof (processFile_inv files st file (Hincl file (or_introl eq_refl))
                Hinv) as H.
  destruct (processFile st file) as [st' [e|]]; [exact H|].
  apply IH; [|exact H]. intros f Hf. apply Hincl. now right.
Qed.

Lemma batchStart_inv files io0 : BatchInv files (batchStart io0).
Proof. split; [constructor|simpl; lia]. Qed.

Lemma forEachFile_app before after st :
  forEachFile (before ++ after) st =
  match forEachFile before st with
  | (st', None) => forEachFile after st'
  | (st', Some e) => (st', Some e)
  end.
Proof.
  revert st. induction before as [|file before IH]; intros st; simpl.
  - reflexivity.
  - destruct (processFile st file) as [st' [e|]]; [reflexivity|apply IH].
Qed.

End Batch.

(** X18.  [publishSelectedFilesToR2] writes only notes it was given, each with
    the text [uploadLocalImagesInContent] returned for what was read from
    the note, and only when a reference of the note was uploaded; it counts
    at least one success per note written. *)
Theorem publishSelectedFilesToR2_writes
  (host : Host.t)
  (vaultRead : list (TFile * jsstring) -> Trace -> TFile -> Result jsstring)
  (vaultModify :
     list (TFile * jsstring) -> Trace -> TFile -> jsstring -> Result unit)
  (io0 : Trace) (files : list TFile) :
  let st := publishSelectedFilesToR2 host vaultRead vaultModify io0 files in
  Forall (WrittenBy host vaultRead files) (written st) /\
  length (written st) <= totalSuccess st.
Proof.
  cbv zeta. unfold publishSelectedFilesToR2.
  destruct files as [|f files]; [apply batchStart_inv|].
  apply fold_selected_inv; [apply incl_refl|apply batchStart_inv].
Qed.

(** X19.  [publishCurrentFolderToR2] writes only markdown notes whose parent is
    the folder of the active file. *)
Theorem publishCurrentFolderToR2_in_folder
  (host : Host.t)
  (vaultRead : list (TFile * jsstring) -> Trace -> TFile -> Result jsstring)
  (vaultModify :
     list (TFile * jsstring) -> Trace -> TFile -> jsstring -> Result unit)
  (getMarkdownFiles : list TFile) (getActiveFile : option TFile)
  (parentPath : TFile -> option jsstring) (io0 : Trace) :
  let st := fst (publishCurrentFolderToR2 host vaultRead vaultModify
                   getMarkdownFiles getActiveFile parentPath io0) in
  forall file text,
    In (file, text) (written st) ->
    In file getMarkdownFiles /\
    exists activeFile folderPath,
      getActiveFile = Some activeFile /\
      parentPath activeFile = Some folderPath /\
      parentPath file = Some folderPath.
Proof.
  cbv zeta. unfold publishCurrentFolderToR2. intros file text.
  destruct getActiveFile as [activeFile|]; [|intros []].
  destruct (parentPath activeFile) as [folderPath|] eqn:Hfolder; [|intros []].
  set (targetFiles := filter (inFolder parentPath folderPath) getMarkdownFiles).
  assert (Hinv : BatchInv host vaultRead targetFiles
                   (fst (forEachFile host vaultRead vaultModify targetFiles
                           (batchStart io0))))
    by (apply forEachFile_inv; [apply incl_refl|apply batchStart_inv]).
  destruct targetFiles as [|f fs] eqn:Et; [intros []|].
  intros Hin. destruct Hinv as (Hw & _).
  rewrite Forall_forall in Hw. destruct (Hw _ Hin) as (Hfile & _).
  cbn [fst] in Hfile. rewrite <- Et in Hfile. unfold targetFiles in Hfile.
  apply filter_In in Hfile as (Hmd & Hfolder').
  split; [exact Hmd|]. exists activeFile, folderPath.
  split; [reflexivity|]. split; [exact Hfolder|].
  unfold inFolder in Hfolder'.
  destruct (parentPath file) as [p|]; [|discriminate].
  apply str_eqb_eq in Hfolder'. now subst.
Qed.

Lemma publishCurrentFolderToR2_in_folder_witness :
  In note [aPng; note] /\
  exists activeFile folderPath,
    Some note = Some activeFile /\
    (if startsWith (tf_path activeFile) (lit "notes/")
     then Some (lit "notes") else None) = Some folderPath /\
    (if startsWith (tf_path note) (lit "notes/")
     then Some (lit "notes") else None) = Some folderPath.
Proof.
  apply (publishCurrentFolderToR2_in_folder smallVault
           (fun _ _ _ => Ok (lit "![[a.png]]")) (fun _ _ _ _ => Ok tt)
           [aPng; note] (Some note)
           (fun f => if startsWith (tf_path f) (lit "notes/")
                     then Some (lit "notes") else None)
           [] note (lit "![](https://cdn.x/a.png)")).
  vm_compute. left. reflexivity.
Defined.

(** *** A read that fails *)

Lemma forEachFile_completes host vaultRead vaultModify :
  forall files st st',
    forEachFile host vaultRead vaultModify files st = (st', None) ->
    fold_left (selectedIteration host vaultRead vaultModify) files st = st'.
Proof.
  induction files as [|file files IH]; intros st st' H; simpl in *.
  - congruence.
  - unfold selectedIteration at 2.
    destruct (processFile host vaultRead vaultModify st file) as [st1 [e|]];
      [discriminate|].
    now apply IH.
Qed.

(** X20.  When [publishVaultToR2] completes it has done what
    [publishSelectedFilesToR2] does with all the markdown files: the same
    notes written, uploads made and totals. *)
Theorem publishVaultToR2_completes
  (host : Host.t)
  (vaultRead : list (TFile * jsstring) -> Trace -> TFile -> Result jsstring)
  (vaultModify :
     list (TFile * jsstring) -> Trace -> TFile -> jsstring -> Result unit)
  (getMarkdownFiles : list TFile) (io0 : Trace) (st : BatchState) :
  publishVaultToR2 host vaultRead vaultModify getMarkdownFiles io0
  = (st, None) ->
  publishSelectedFilesToR2 host vaultRead vaultModify io0 getMarkdownFiles
  = st.
Proof.
  unfold publishVaultToR2, publishSelectedFilesToR2.
  destruct getMarkdownFiles as [|f fs]; [congruence|].
  apply forEachFile_completes.
Qed.

Lemma publishVaultToR2_completes_witness :
  publishSelectedFilesToR2 smallVault
    (fun _ _ _ => Ok (lit "![[a.png]]")) (fun _ _ _ _ => Ok tt) [] [note]
  = {| trace := [ReadBinary aPng;
                 Upload (fileObjOf smallVault aPng aPngBytes)];
       written := [(note, lit "![](https://cdn.x/a.png)")];
       totalSuccess := 1; totalError := 0 |}.
Proof.
  apply (publishVaultToR2_completes smallVault
           (fun _ _ _ => Ok (lit "![[a.png]]")) (fun _ _ _ _ => Ok tt)
           [note] []).
  vm_compute. reflexivity.
Defined.

(** X21.  A note that cannot be read ends [publishVaultToR2]: the call rejects
    with the error of the read, and the notes after it are neither read nor
    written.  [publishSelectedFilesToR2] counts one error for the note and
    goes on with the notes after it. *)
Theorem publishVaultToR2_stops_at_failed_read
  (host : Host.t)
  (vaultRead : list (TFile * jsstring) -> Trace -> TFile -> Result jsstring)
  (vaultModify :
     list (TFile * jsstring) -> Trace -> TFile -> jsstring -> Result unit)
  (io0 : Trace) (before after : list TFile) (file : TFile)
  (st1 : BatchState) (e : JsError) :
  forEachFile host vaultRead vaultModify before (batchStart io0)
  = (st1, None) ->
  vaultRead (written st1) (trace st1) file = Throw e ->
  publishVaultToR2 host vaultRead vaultModify (before ++ file :: after) io0
  = (st1, Some e) /\
  publishSelectedFilesToR2 host vaultRead vaultModify io0
    (before ++ file :: after)
  = fold_left (selectedIteration host vaultRead vaultModify) after
      {| trace := trace st1; written := written st1;
         totalSuccess := totalSuccess st1;
         totalError := S (totalError st1) |}.
Proof.
  intros Hbefore Hread.
  assert (Hfile : processFile host vaultRead vaultModify st1 file
                  = (st1, Some e))
    by (unfold processFile; now rewrite Hread).
  split.
  - unfold publishVaultToR2.
    destruct (before ++ file :: after) eqn:E;
      [now destruct before|rewrite <- E].
    rewrite forEachFile_app, Hbefore. simpl. now rewrite Hfile.
  - unfold publishSelectedFilesToR2.
    destruct (before ++ file :: after) eqn:E;
      [now destruct before|rewrite <- E].
    rewrite fold_left_app, (forEachFile_completes _ _ _ _ _ _ Hbefore).
    simpl. unfold selectedIteration at 2. now rewrite Hfile.
Qed.

Lemma publishVaultToR2_stops_at_failed_read_witness :
  let vaultRead :=
    fun (_ : list (TFile * jsstring)) (_ : Trace) (f : TFile) =>
      if str_eqb (tf_name f) (lit "a.png")
      then Throw (Error (lit "not a note"))
      else Ok (lit "![[a.png]]") in
  let vaultModify :=
    fun (_ : list (TFile * jsstring)) (_ : Trace) (_ : TFile)
        (_ : jsstring) => Ok tt in
  publishVaultToR2 smallVault vaultRead vaultModify [aPng; note] []
  = (batchStart [], Some (Error (lit "not a note"))) /\
  written (publishSelectedFilesToR2 smallVault vaultRead vaultModify []
             [aPng; note])
  = [(note, lit "![](https://cdn.x/a.png)")].
Proof.
  cbv zeta.
  destruct (publishVaultToR2_stops_at_failed_read smallVault
              (fun _ _ f => if str_eqb (tf_name f) (lit "a.png")
                            then Throw (Error (lit "not a note"))
                            else Ok (lit "![[a.png]]"))
              (fun _ _ _ _ => Ok tt)
              [] [] [note] aPng (batchStart []) (Error (lit "not a note"))
              eq_refl eq_refl) as [Hvault Hselected].
  split; [exact Hvault|].
  cbn [app] in Hselected. rewrite Hselected. vm_compute. reflexivity.
Defined.

(** *** No uploader configured *)

Lemma processFile_unconfigured host vaultRead vaultModify io0 st file :
  Host.r2Uploader host = None ->
  written st = [] /\ totalSuccess st = 0 /\
  uploadsOf (trace st) = uploadsOf io0 ->
  let st' := fst (processFile host vaultRead vaultModify st file) in
  written st' = [] /\ totalSuccess st' = 0 /\
  uploadsOf (trace st') = uploadsOf io0.
Proof.
  intros Hnone (Hw & Hs & Hu). cbv zeta. unfold processFile.
  destruct (vaultRead (written st) (trace st) file) as [content|e];
    [|now repeat split].
  destruct (unconfigured_run host file (trace st) content Hnone) as [U R].
  destruct (uploadLocalImagesInContent host file (trace st) content)
    as [io' [[updatedContent successCount] errorCount]].
  cbn [fst snd] in U, R. injection R as -> -> ->.
  cbn [Nat.ltb Nat.leb fst written totalSuccess trace].
  split; [exact Hw|]. split; [lia|congruence].
Qed.

(** X22.  With no uploader configured, publishing notes writes no note, makes no
    upload and counts no success, whichever of the loops runs. *)
Theorem publish_unconfigured
  (host : Host.t)
  (vaultRead : list (TFile * jsstring) -> Trace -> TFile -> Result jsstring)
  (vaultModify :
     list (TFile * jsstring) -> Trace -> TFile -> jsstring -> Result unit)
  (io0 : Trace) (files : list TFile) :
  Host.r2Uploader host = None ->
  let selected :=
    publishSelectedFilesToR2 host vaultRead vaultModify io0 files in
  let vault := fst (publishVaultToR2 host vaultRead vaultModify files io0) in
  (written selected = [] /\ totalSuccess selected = 0 /\
   uploadsOf (trace selected) = uploadsOf io0) /\
  (written vault = [] /\ totalSuccess vault = 0 /\
   uploadsOf (trace vault) = uploadsOf io0).
Proof.
  intros Hnone. cbv zeta.
  assert (Hstart : written (batchStart io0) = [] /\
                   totalSuccess (batchStart io0) = 0 /\
                   uploadsOf (trace (batchStart io0)) = uploadsOf io0)
    by now repeat split.
  split.
  - unfold publishSelectedFilesToR2.
    destruct files as [|f fs] eqn:E; [exact Hstart|rewrite <- E; clear E].
    revert Hstart. generalize (batchStart io0) as st.
    induction files as [|file files IH]; intros st Hst; simpl; [exact Hst|].
    apply IH.
    pose proof (processFile_unconfigured host vaultRead vaultModify io0 st
                  file Hnone Hst) as H.
    unfold selectedIteration.
    destruct (processFile host vaultRead vaultModify st file) as [st' [e|]];
      exact H.
  - unfold publishVaultToR2.
    destruct files as [|f fs] eqn:E; [exact Hstart|rewrite <- E; clear E].
    revert Hstart. generalize (batchStart io0) as st.
    induction files as [|file files IH]; intros st Hst; simpl; [exact Hst|].
    pose proof (processFile_unconfigured host vaultRead vaultModify io0 st
                  file Hnone Hst) as H.
    destruct (processFile host vaultRead vaultModify st file) as [st' [e|]];
      [exact H|]. apply IH. exact H.
Qed.

Lemma publish_unconfigured_witness :
  written (publishSelectedFilesToR2 unconfiguredVault
             (fun _ _ _ => Ok (lit "![[a.png]]")) (fun _ _ _ _ => Ok tt)
             [] [note])
  = [].
Proof.
  apply (publish_unconfigured unconfiguredVault
           (fun _ _ _ => Ok (lit "![[a.png]]")) (fun _ _ _ _ => Ok tt)
           [] [note] eq_refl).
Defined.

(** ** Downloading an external image

    [downloadExternalImage] makes one request with the [http] or [https]
    module of Node and settles its promise from the handlers of the
    request and of the response.  A promise settles once: the first
    [resolve] or [reject] wins. *)

From Stdlib Require Import ZArith.

Record URL := {
  url_protocol : jsstring;
  url_hostname : jsstring;
  url_port : jsstring;
  url_pathname : jsstring;
  url_search : jsstring
}.

(** The options of the request that depend on the url; the method, the
    user agent and the timeout of 60 s are constants. *)
Record RequestOptions := {
  opt_isHttps : bool;
  opt_hostname : jsstring;
  opt_port : jsstring + N;
  opt_path : jsstring
}.

(** What the response callback reads of [res]; [None] is [undefined]. *)
Record IncomingMessage := {
  msg_statusCode : option N;
  msg_statusMessage : option jsstring;
  msg_contentType : option jsstring;
  msg_contentLength : option jsstring
}.

(** The events of the request, and those that follow a response. *)
Inductive RequestEvent :=
| OnError (message : jsstring)
| OnTimeout.

Inductive ResponseEvent :=
| OnData (chunk : bytes)
| OnEnd
| OnRequest (event : RequestEvent).

(** What happens to a request: events only, or events, the response, and
    the events after it. *)
Inductive Exchange :=
| Unanswered (events : list RequestEvent)
| Answered (before : list RequestEvent) (res : IncomingMessage)
    (after : list ResponseEvent).

Definition maxSize : N := 50 * 1024 * 1024.

Definition mimeToExt : list (jsstring * jsstring) :=
  [(lit "image/jpeg", lit "jpg"); (lit "image/jpg", lit "jpg");
   (lit "image/png", lit "png"); (lit "image/gif", lit "gif");
   (lit "image/webp", lit "webp"); (lit "image/svg+xml", lit "svg");
   (lit "image/bmp", lit "bmp"); (lit "image/tiff", lit "tiff");
   (lit "video/mp4", lit "mp4"); (lit "video/webm", lit "webm")].

(** The promise and the chunks received. *)
Record DownloadState := {
  settled : option (Result File);
  chunks : list bytes
}.

(** [resolve] and [reject]: without effect on a settled promise. *)
Definition settle (st : DownloadState) (r : Result File) : DownloadState :=
  match settled st with
  | Some _ => st
  | None => {| settled := Some r; chunks := chunks st |}
  end.

(** [chunks.reduce((sum, chunk) => sum + chunk.length, 0)] *)
Definition totalSize (chunks : list bytes) : N :=
  fold_left (fun sum chunk => (sum + N.of_nat (length chunk))%N) chunks 0%N.

(** [xs[0]] of the result of a [split]. *)
Definition first (xs : list jsstring) : jsstring :=
  match xs with
  | x :: _ => x
  | [] => []
  end.

Section Download.

Variable toLowerCase : jsstring -> jsstring.
(** [new URL(url)] and [httpModule.request(options, callback)], which may
    throw; [error.message] of a [TypeError]. *)
Variable newURL : jsstring -> Result URL.
Variable request : RequestOptions -> Result Exchange.
Variable typeErrorMessage : jsstring.
(** [parseInt(s)], [None] for [NaN]; [(n / 1024 / 1024).toFixed(2)];
    [Date.now()]. *)
Variable parseInt : jsstring -> option Z.
Variable megabytes : Z -> jsstring.
Variable dateNow : N.

Definition optionsOf (urlObj : URL) : RequestOptions :=
  let isHttps := str_eqb (url_protocol urlObj) (lit "https:") in
  {| opt_isHttps := isHttps;
     opt_hostname := url_hostname urlObj;
     opt_port :=
       match url_port urlObj with
       | [] => inr (if isHttps then 443 else 80)%N
       | p => inl p
       end;
     opt_path := url_pathname urlObj ++ url_search urlObj |}.

Definition tooLarge (n : Z) : jsstring :=
  lit "File too large: " ++ megabytes n ++ lit "MB (max 50MB)".

(** The handlers of [error] and [timeout] of the request. *)
Definition onRequestEvent (st : DownloadState) (event : RequestEvent)
  : DownloadState :=
  match event with
  | OnError message =>
      settle st (Throw (Error (lit "Network error: " ++ message)))
  | OnTimeout => settle st (Throw (Error (lit "Download timeout (60s)")))
  end.

(** The response callback: the state after it and, when it went on to
    listen to the response, the content type. *)
Definition onResponse (st : DownloadState) (res : IncomingMessage)
  : DownloadState * option jsstring :=
  let statusCode :=
    match msg_statusCode res with Some n => n | None => 0%N end in
  let statusMessage := orElse (msg_statusMessage res) [] in
  if (statusCode <? 200)%N || (300 <=? statusCode)%N then
    (settle st
       (Throw (Error (lit "HTTP " ++ toString statusCode ++ lit ": " ++
                      statusMessage))), None)
  else
    let contentType := orElse (msg_contentType res) [] in
    if negb (startsWith contentType (lit "image/")) &&
       negb (startsWith contentType (lit "video/")) then
      (settle st (Throw (Error (lit "Not an image/video: " ++ contentType))),
       None)
    else
      let declared :=
        match msg_contentLength res with
        | Some (c :: l) => parseInt (c :: l)
        | _ => None
        end in
      match declared with
      | Some n =>
          if (Z.of_N maxSize <? n)%Z
          then (settle st (Throw (Error (tooLarge n))), None)
          else (st, Some contentType)
      | None => (st, Some contentType)
      end.

(** The handler of [data]. *)
Definition onData (st : DownloadState) (chunk : bytes) : DownloadState :=
  let st1 := {| settled := settled st; chunks := chunks st ++ [chunk] |} in
  let total := totalSize (chunks st1) in
  if (maxSize <? total)%N
  then settle st1 (Throw (Error (tooLarge (Z.of_N total))))
  else st1.

(** The file the handler of [end] makes. *)
Definition fileOf (urlObj : URL) (contentType : jsstring)
  (chunks : list bytes) : File :=
  let buffer := concat chunks in
  let urlPath := url_pathname urlObj in
  let extension :=
    orElse (option_map toLowerCase (pop (split (chr ".") urlPath))) [] in
  let extension := first (split (chr "#") (first (split (chr "?") extension))) in
  let extension :=
    if match extension with [] => true | _ => 5 <? length extension end
    then valueToString (memberOr mimeToExt contentType (lit "png"))
    else extension in
  let urlFileName := orElse (pop (split (chr "/") urlPath)) (lit "image") in
  let cleanFileName :=
    first (split (chr "#") (first (split (chr "?") urlFileName))) in
  let fileName :=
    if match cleanFileName with [] => false | _ => true end &&
       includes cleanFileName (lit ".")
    then cleanFileName
    else lit "downloaded_image_" ++ toString dateNow ++ lit "." ++ extension in
  {| file_name := fileName; file_type := newFileType contentType;
     file_bytes := buffer |}.

(** The handlers of the response, and the events of a response that is
    not listened to. *)
Definition onResponseEvent (urlObj : URL) (contentType : jsstring)
  (st : DownloadState) (event : ResponseEvent) : DownloadState :=
  match event with
  | OnData chunk => onData st chunk
  | OnEnd => settle st (Ok (fileOf urlObj contentType (chunks st)))
  | OnRequest event => onRequestEvent st event
  end.

Definition onUnheardEvent (st : DownloadState) (event : ResponseEvent)
  : DownloadState :=
  match event with
  | OnRequest event => onRequestEvent st event
  | _ => st
  end.

Definition runExchange (urlObj : URL) (exchange : Exchange) : DownloadState :=
  let st0 := {| settled := None; chunks := [] |} in
  match exchange with
  | Unanswered events => fold_left onRequestEvent events st0
  | Answered before res after =>
      let st1 := fold_left onRequestEvent before st0 in
      match onResponse st1 res with
      | (st2, None) => fold_left onUnheardEvent after st2
      | (st2, Some contentType) =>
          fold_left (onResponseEvent urlObj contentType) after st2
      end
  end.

(** [downloadExternalImage(url)]: how the promise settles, [None] when it
    stays pending. *)
Definition downloadExternalImage (url : jsstring) : option (Result File) :=
  let failed e :=
    Some (Throw (Error (lit "Failed to download image: " ++
                        messageOf typeErrorMessage e))) in
  match newURL url with
  | Throw e => failed e
  | Ok urlObj =>
      match request (optionsOf urlObj) with
      | Throw e => failed e
      | Ok exchange => settled (runExchange urlObj exchange)
      end
  end.

(** What holds of a file the promise resolves to. *)
Definition Downloaded (file : File) : Prop :=
  (N.of_nat (length (file_bytes file)) <= maxSize)%N /\
  (exists contentType,
     startsWith contentType (lit "image/")
     || startsWith contentType (lit "video/") = true /\
     file_type file = newFileType contentType) /\
  includes (file_name file) (lit ".") = true.

Definition DownloadInv (st : DownloadState) : Prop :=
  (settled st = None -> (totalSize (chunks st) <= maxSize)%N) /\
  (forall file, settled st = Some (Ok file) -> Downloaded file).

Lemma settle_Throw_inv st e :
  DownloadInv st -> DownloadInv (settle st (Throw e)).
Proof.
  intros H. unfold settle.
  destruct (settled st) eqn:E; [exact H|].
  split; simpl; [discriminate|intros file H'; discriminate].
Qed.

Lemma onRequestEvent_inv st event :
  DownloadInv st -> DownloadInv (onRequestEvent st event).
Proof. destruct event; apply settle_Throw_inv. Qed.

Lemma fold_inv {E} (step : DownloadState -> E -> DownloadState) :
  (forall st event, DownloadInv st -> DownloadInv (step st event)) ->
  forall events st, DownloadInv st -> DownloadInv (fold_left step events st).
Proof.
  intros Hstep. induction events as [|event events IH]; intros st H; simpl;
    auto.
Qed.

Lemma onResponse_inv st res :
  DownloadInv st -> DownloadInv (fst (onResponse st res)).
Proof.
  intros H. unfold onResponse.
  repeat match goal with
         | |- context [if ?b then _ else _] => destruct b
         | |- context [match ?x with Some _ => _ | None => _ end] =>
             destruct x
         | |- context [match ?x with [] => _ | _ :: _ => _ end] => destruct x
         end;
    cbn [fst]; auto using settle_Throw_inv.
Qed.

Lemma onResponse_contentType st res contentType :
  snd (onResponse st res) = Some contentType ->
  startsWith contentType (lit "image/")
  || startsWith contentType (lit "video/") = true.
Proof.
  unfold onResponse.
  destruct ((_ <? 200)%N || _); [discriminate|].
  destruct (startsWith (orElse (msg_contentType res) []) (lit "image/"))
    eqn:Ei;
    destruct (startsWith (orElse (msg_contentType res) []) (lit "video/"))
      eqn:Ev; cbn [negb andb]; try discriminate;
    (destruct (match msg_contentLength res with
               | Some (c :: l) => parseInt (c :: l)
               | _ => None
               end) as [n|];
     [destruct (Z.of_N maxSize <? n)%Z; [discriminate|]|]);
    cbn [snd]; intros [= <-]; rewrite Ei, ?Ev; reflexivity.
Qed.

Lemma totalSize_from (chunks : list bytes) : forall sum,
  fold_left (fun sum chunk => (sum + N.of_nat (length chunk))%N) chunks sum
  = (sum + N.of_nat (length (concat chunks)))%N.
Proof.
  induction chunks as [|chunk chunks IH]; intros sum; simpl.
  - lia.
  - rewrite IH, length_app. lia.
Qed.

Lemma totalSize_concat chunks :
  totalSize chunks = N.of_nat (length (concat chunks)).
Proof. unfold totalSize. now rewrite totalSize_from. Qed.

Lemma onData_inv st chunk : DownloadInv st -> DownloadInv (onData st chunk).
Proof.
  intros (H1 & H2). unfold onData, settle. cbn [settled chunks].
  destruct (maxSize <? totalSize (chunks st ++ [chunk]))%N eqn:E.
  - destruct (settled st) as [r|] eqn:Es; split; cbn [settled chunks];
      try discriminate; try exact H2.
  - apply N.ltb_ge in E. split; cbn [settled chunks]; auto.
Qed.

Lemma includes_char a c b : includes (a ++ c :: b) [c] = true.
Proof.
  unfold includes, indexOf. generalize 0.
  induction a as [|x a IH]; intros i; simpl.
  - now rewrite char_eqb_refl.
  - destruct (char_eqb c x); [reflexivity|apply IH].
Qed.

Lemma includes_dot a b c : includes (a ++ b ++ lit "." ++ c) (lit ".") = true.
Proof. rewrite app_assoc. exact (includes_char (a ++ b) (chr ".") c). Qed.

Lemma fileOf_Downloaded urlObj contentType chunks :
  (totalSize chunks <= maxSize)%N ->
  startsWith contentType (lit "image/")
  || startsWith contentType (lit "video/") = true ->
  Downloaded (fileOf urlObj contentType chunks).
Proof.
  intros Hsize Htype. unfold Downloaded, fileOf. cbv zeta.
  cbn [file_name file_type file_bytes].
  split; [now rewrite <- totalSize_concat|].
  split; [exists contentType; split; [exact Htype|reflexivity]|].
  match goal with
  | |- context [if ?b && includes ?s ?p then _ else _] =>
      destruct (includes s p) eqn:Ei; destruct b; cbn [andb];
        try exact Ei
  end;
    apply includes_dot.
Qed.

Lemma onResponseEvent_inv urlObj contentType st event :
  startsWith contentType (lit "image/")
  || startsWith contentType (lit "video/") = true ->
  DownloadInv st -> DownloadInv (onResponseEvent urlObj contentType st event).
Proof.
  intros Htype H. destruct event as [chunk| |event]; simpl.
  - now apply onData_inv.
  - unfold settle. destruct (settled st) as [r|] eqn:Es; [exact H|].
    destruct H as (H1 & H2).
    split; cbn [settled]; [discriminate|].
    intros file [= <-]. apply fileOf_Downloaded; auto.
  - now apply onRequestEvent_inv.
Qed.

Lemma onUnheardEvent_inv st event :
  DownloadInv st -> DownloadInv (onUnheardEvent st event).
Proof.
  destruct event; simpl; auto using onRequestEvent_inv.
Qed.

Lemma runExchange_inv urlObj exchange :
  DownloadInv (runExchange urlObj exchange).
Proof.
  assert (H0 : DownloadInv {| settled := None; chunks := [] |}).
  { split; simpl; [intros _; vm_compute; discriminate|discriminate]. }
  destruct exchange as [events|before res after]; simpl.
  - apply fold_inv; auto using onRequestEvent_inv.
  - pose proof (fold_inv onRequestEvent onRequestEvent_inv before _ H0) as H1.
    pose proof (onResponse_inv _ res H1) as H2.
    pose proof (onResponse_contentType
                  (fold_left onRequestEvent before
                     {| settled := None; chunks := [] |}) res) as H3.
    destruct (onResponse _ res) as [st2 [contentType|]]; cbn [fst snd] in *.
    + apply fold_inv; [|exact H2]. intros st event.
      apply onResponseEvent_inv. now apply H3.
    + apply fold_inv; auto using onUnheardEvent_inv.
Qed.

End Download.

Lemma startsWith_lower p :
  forallb (fun c => negb (isAsciiUpper c)) p = true ->
  forall s, startsWith s p = true -> startsWith (map asciiLower s) p = true.
Proof.
  unfold startsWith.
  induction p as [|c p IH]; intros Hp s H; [reflexivity|].
  simpl in Hp. apply andb_true_iff in Hp as [Hc Hp].
  destruct s as [|d s]; simpl in *; [discriminate|].
  destruct (char_eqb c d) eqn:E; [|discriminate].
  apply char_eqb_eq in E. subst d.
  unfold asciiLower at 1. apply negb_true_iff in Hc. rewrite Hc.
  rewrite char_eqb_refl. now apply IH.
Qed.

Lemma newFileType_media contentType :
  startsWith contentType (lit "image/")
  || startsWith contentType (lit "video/") = true ->
  newFileType contentType = [] \/
  startsWith (newFileType contentType) (lit "image/")
  || startsWith (newFileType contentType) (lit "video/") = true.
Proof.
  intros H. unfold newFileType.
  match goal with
  | |- context [if ?b then _ else _] => destruct b
  end; [right|now left].
  apply orb_true_iff in H. apply orb_true_iff.
  destruct H as [H|H]; [left|right];
    (apply startsWith_lower; [reflexivity|exact H]).
Qed.

(** X23.  A file [downloadExternalImage] resolves to has at most 50 MB and a
    name with a dot in it, whatever the order in which the events of the
    request and of the response arrive.  Its type is what [new File] makes
    of a content type that starts with [image/] or [video/]: that type in
    ASCII lower case, which starts with [image/] or [video/], or the empty
    string (when the header holds a character outside U+0020..U+007E). *)
Theorem downloadExternalImage_resolved
  (toLowerCase : jsstring -> jsstring) (newURL : jsstring -> Result URL)
  (request : RequestOptions -> Result Exchange)
  (typeErrorMessage : jsstring) (parseInt : jsstring -> option Z)
  (megabytes : Z -> jsstring) (dateNow : N) (url : jsstring) (file : File) :
  downloadExternalImage toLowerCase newURL request typeErrorMessage parseInt
    megabytes dateNow url = Some (Ok file) ->
  (N.of_nat (length (file_bytes file)) <= maxSize)%N /\
  (exists contentType,
     startsWith contentType (lit "image/")
     || startsWith contentType (lit "video/") = true /\
     file_type file = newFileType contentType) /\
  (file_type file = [] \/
   startsWith (file_type file) (lit "image/")
   || startsWith (file_type file) (lit "video/") = true) /\
  includes (file_name file) (lit ".") = true.
Proof.
  unfold downloadExternalImage.
  destruct (newURL url) as [urlObj|e]; [|discriminate].
  destruct (request (optionsOf urlObj)) as [exchange|e]; [|discriminate].
  intros H.
  destruct (proj2 (runExchange_inv toLowerCase parseInt megabytes dateNow
                     urlObj exchange) file H)
    as (Hsize & (contentType & Htype & Hfile) & Hname).
  split; [exact Hsize|]. split; [now exists contentType|].
  split; [|exact Hname].
  rewrite Hfile. now apply newFileType_media.
Qed.

(** A server that answers [https://x.org/b.png] with a PNG in one chunk,
    declared as [Image/PNG]. *)
Definition pngURL : URL :=
  {| url_protocol := lit "https:"; url_hostname := lit "x.org";
     url_port := []; url_pathname := lit "/b.png"; url_search := [] |}.

Definition pngResponse : IncomingMessage :=
  {| msg_statusCode := Some 200%N; msg_statusMessage := Some (lit "OK");
     msg_contentType := Some (lit "image/PNG");
     msg_contentLength := Some (lit "4") |}.

Lemma downloadExternalImage_resolved_witness :
  (4 <= maxSize)%N /\
  (exists contentType,
     startsWith contentType (lit "image/")
     || startsWith contentType (lit "video/") = true /\
     lit "image/png" = newFileType contentType) /\
  (lit "image/png" = [] \/
   startsWith (lit "image/png") (lit "image/")
   || startsWith (lit "image/png") (lit "video/") = true) /\
  includes (lit "b.png") (lit ".") = true.
Proof.
  apply (downloadExternalImage_resolved asciiToLowerCase
           (fun _ => Ok pngURL)
           (fun _ => Ok (Answered [] pngResponse [OnData aPngBytes; OnEnd]))
           (lit "Invalid URL") (fun _ => Some 4%Z) (fun _ => lit "0.00") 0%N
           (lit "https://x.org/b.png")
           {| file_name := lit "b.png"; file_type := lit "image/png";
              file_bytes := aPngBytes |}).
  vm_compute. reflexivity.
Defined.

(** *** Responses that are turned down *)

Definition NotResolved (st : DownloadState) : Prop :=
  forall file, settled st <> Some (Ok file).

Definition Rejected (st : DownloadState) : Prop :=
  exists e, settled st = Some (Throw e).

Lemma settle_Throw_rejected st e :
  NotResolved st -> Rejected (settle st (Throw e)).
Proof.
  intros H. unfold settle, Rejected.
  destruct (settled st) as [[file|e']|] eqn:E.
  - now destruct (H file).
  - rewrite E. eauto.
  - simpl. eauto.
Qed.

Lemma onRequestEvent_rejected st event :
  NotResolved st -> Rejected (onRequestEvent st event).
Proof. destruct event; apply settle_Throw_rejected. Qed.

Lemma Rejected_NotResolved st : Rejected st -> NotResolved st.
Proof. intros [e H] file. rewrite H. discriminate. Qed.

Lemma fold_request_not_resolved events :
  forall st, NotResolved st -> NotResolved (fold_left onRequestEvent events st).
Proof.
  induction events as [|event events IH]; intros st H; simpl; [exact H|].
  apply IH, Rejected_NotResolved, onRequestEvent_rejected, H.
Qed.

Lemma fold_unheard_rejected events :
  forall st, Rejected st -> Rejected (fold_left onUnheardEvent events st).
Proof.
  induction events as [|event events IH]; intros st H; simpl; [exact H|].
  apply IH. destruct event as [chunk| |event]; simpl; try exact H.
  apply onRequestEvent_rejected, Rejected_NotResolved, H.
Qed.

(** X24.  A response with a status outside 200..299, or with a content type that
    is neither [image/...] nor [video/...], rejects the promise, whatever
    events come before and after it: no file comes out of it, and the
    promise does not stay pending. *)
Theorem downloadExternalImage_turned_down
  (toLowerCase : jsstring -> jsstring) (newURL : jsstring -> Result URL)
  (request : RequestOptions -> Result Exchange)
  (typeErrorMessage : jsstring) (parseInt : jsstring -> option Z)
  (megabytes : Z -> jsstring) (dateNow : N) (url : jsstring) (urlObj : URL)
  (before : list RequestEvent) (res : IncomingMessage)
  (after : list ResponseEvent) :
  newURL url = Ok urlObj ->
  request (optionsOf urlObj) = Ok (Answered before res after) ->
  (forall n, msg_statusCode res = Some n -> (n < 200 \/ 300 <= n)%N) \/
  (forall contentType,
     msg_contentType res = Some contentType ->
     startsWith contentType (lit "image/") = false /\
     startsWith contentType (lit "video/") = false) ->
  exists e,
    downloadExternalImage toLowerCase newURL request typeErrorMessage parseInt
      megabytes dateNow url = Some (Throw e).
Proof.
  intros Hurl Hreq Hbad. unfold downloadExternalImage.
  rewrite Hurl, Hreq. cbn [runExchange].
  set (st1 := fold_left onRequestEvent before
                {| settled := None; chunks := [] |}).
  assert (H1 : NotResolved st1).
  { apply fold_request_not_resolved. intros file. discriminate. }
  assert (Hturned : exists e,
            onResponse parseInt megabytes st1 res
            = (settle st1 (Throw e), None)).
  { unfold onResponse.
    destruct Hbad as [Hstatus|Htype].
    - assert (Hs : ((match msg_statusCode res with
                     | Some n => n
                     | None => 0
                     end <? 200)
                    || (300 <=? match msg_statusCode res with
                                | Some n => n
                                | None => 0
                                end))%N = true).
      { destruct (msg_statusCode res) as [n|]; [|reflexivity].
        apply orb_true_iff.
        destruct (Hstatus n eq_refl); [left; now apply N.ltb_lt
                                      |right; now apply N.leb_le]. }
      rewrite Hs. eauto.
    - destruct ((_ <? 200)%N || _); [eauto|].
      assert (Ht : negb (startsWith (orElse (msg_contentType res) [])
                           (lit "image/"))
                   && negb (startsWith (orElse (msg_contentType res) [])
                              (lit "video/")) = true).
      { destruct (msg_contentType res) as [[|c contentType]|];
          try reflexivity.
        destruct (Htype _ eq_refl) as [Hi Hv]. cbn [orElse].
        now rewrite Hi, Hv. }
      rewrite Ht. eauto. }
  destruct Hturned as [e ->].
  apply fold_unheard_rejected, settle_Throw_rejected, H1.
Qed.

Lemma downloadExternalImage_turned_down_witness :
  exists e,
    downloadExternalImage asciiToLowerCase (fun _ => Ok pngURL)
      (fun _ =>
         Ok (Answered []
               {| msg_statusCode := Some 404%N;
                  msg_statusMessage := Some (lit "Not Found");
                  msg_contentType := Some (lit "text/html");
                  msg_contentLength := None |}
               [OnData aPngBytes; OnEnd]))
      (lit "Invalid URL") (fun _ => None) (fun _ => lit "0.00") 0%N
      (lit "https://x.org/b.png")
    = Some (Throw e).
Proof.
  apply (downloadExternalImage_turned_down asciiToLowerCase
           (fun _ => Ok pngURL) _ (lit "Invalid URL") (fun _ => None)
           (fun _ => lit "0.00") 0%N (lit "https://x.org/b.png") pngURL
           [] _ [OnData aPngBytes; OnEnd] eq_refl eq_refl).
  left. intros n [= <-]. right. vm_compute. discriminate.
Defined.
